(** * plantcv.parallel.parsers: the filter-expression parser [ParseMatchArg]

    A shallow embedding of the tokenizer ([_tokenize_match_arg]) and of the
    state-machine parser ([_create_dictionary]) of
    [src/plantcv/parallel/parsers.py], followed by the properties of the
    filter-expression language proved about them.

    Conventions of the embedding:
    - a Python [str] is a [string]; a character is an [ascii];
    - the three parallel lists [self.tokens], [self.specials] and
      [self.indices] are kept as three lists, and zipped where the source
      zips them;
    - the dictionary [self.out] is an association list in insertion order
      (a Python [dict] keeps insertion order);
    - a raised exception is a value of [Exception]; a loop variable that was
      never bound is [None], and reading it raises [UnboundLocalError]. *)

From Stdlib Require Import String Ascii List Bool Arith Lia.
From Stdlib Require Import ZArith.
Import ListNotations.
Open Scope string_scope.
Open Scope list_scope.

(** String concatenation, written [+s+] to keep [++] for lists. *)
Infix "+s+" := String.append (at level 60, right associativity).

(** ** Exceptions *)

Inductive ErrorKind : Type :=
| EmptyKeyError
| EmptyValueError
| UnexpectedSpecialCharacterError
| MissingColonError
| KeyValuePairInListError
| EmptyListError
| OnlyCommaValidError
| IncompleteKeyValuePairError.

Definition message (k : ErrorKind) : string :=
  match k with
  | EmptyKeyError => "Empty key"
  | EmptyValueError => "Empty value"
  | UnexpectedSpecialCharacterError => "Unexpected special character"
  | MissingColonError => "Missing colon"
  | KeyValuePairInListError => "Key-value pair in list"
  | EmptyListError => "Empty list"
  | OnlyCommaValidError => "Here, only a comma can follow a filter value"
  | IncompleteKeyValuePairError => "Incomplete key-value pair"
  end.

Definition newline : string := String "010"%char "".

Fixpoint spaces (n : nat) : string :=
  match n with
  | O => ""
  | S n' => String " "%char (spaces n')
  end.

(** [error_message(message, idx, match_string)] *)
Definition error_message (msg : string) (idx : nat) (match_string : string)
  : string :=
  let message_and_original := msg +s+ newline +s+ match_string in
  let point_out_error := spaces idx +s+ "^" in
  message_and_original +s+ newline +s+ point_out_error.

(** [ShowSourceOfError(index, source_string)] and its subclasses, told apart
    by their [ErrorKind]; [UnboundLocalError] is what Python raises when a
    local name is read before it was bound. *)
Inductive Exception : Type :=
| ShowSourceOfError (kind : ErrorKind) (index : nat) (source_string : string)
| UnboundLocalError (name : string).

Definition exception_text (e : Exception) : string :=
  match e with
  | ShowSourceOfError k i s => error_message (message k) i s
  | UnboundLocalError n => n
  end.

Inductive Result (A : Type) : Type :=
| Return (a : A)
| Raise (e : Exception).

Arguments Return {A} a.
Arguments Raise {A} e.

Definition bind {A B : Type} (r : Result A) (k : A -> Result B) : Result B :=
  match r with
  | Return a => k a
  | Raise e => Raise e
  end.

Declare Scope result_scope.
Delimit Scope result_scope with result.
Notation "x <- r ;; k" := (bind r (fun x => k))
  (at level 61, r at next level, right associativity) : result_scope.
Open Scope result_scope.

(** ** Characters *)

Definition dquote : ascii := "034"%char.
Definition squote : ascii := "'"%char.
Definition backslash : ascii := "\"%char.
Definition comma : ascii := ","%char.

(** [special_characters = ":[],"] *)
Definition special_characters : string := ":[],".

(** [quote_symbols]: the single quote and the double quote, in this order *)
Definition quote_symbols : list ascii := [squote; dquote].

(** [char in s] for a one-character [char] and a [str] [s] *)
Fixpoint char_in_str (char : ascii) (s : string) : bool :=
  match s with
  | EmptyString => false
  | String c s' => Ascii.eqb char c || char_in_str char s'
  end.

(** [char in l] for a list [l] *)
Fixpoint char_in_list (char : ascii) (l : list ascii) : bool :=
  match l with
  | [] => false
  | c :: l' => Ascii.eqb char c || char_in_list char l'
  end.

(** [l.index(char)]: the position of the first occurrence, [None] where
    Python raises [ValueError] (that is, exactly when [char in l] is false). *)
Fixpoint list_index (char : ascii) (l : list ascii) : option nat :=
  match l with
  | [] => None
  | c :: l' =>
      if Ascii.eqb char c then Some 0
      else match list_index char l' with
           | Some i => Some (S i)
           | None => None
           end
  end.

(** ** The tokenizer *)

(** The attributes and locals that [_tokenize_match_arg] works on.  [idx] is
    the loop variable of [for idx, char in enumerate(self.match_string)]:
    [None] until the first iteration binds it. *)
Record Tokenizer : Type := mkTokenizer {
  tokens : list string;
  specials : list bool;
  indices : list nat;
  current_item : string;
  escaped : bool;
  active_quotes : list ascii;
  idx : option nat
}.

Definition add_char (self : Tokenizer) (char : ascii) : Tokenizer :=
  mkTokenizer (tokens self) (specials self) (indices self)
    (current_item self +s+ String char "")
    (escaped self) (active_quotes self) (idx self).

Definition set_escaped (self : Tokenizer) (b : bool) : Tokenizer :=
  mkTokenizer (tokens self) (specials self) (indices self)
    (current_item self) b (active_quotes self) (idx self).

Definition set_active_quotes (self : Tokenizer) (q : list ascii) : Tokenizer :=
  mkTokenizer (tokens self) (specials self) (indices self)
    (current_item self) (escaped self) q (idx self).

Definition set_idx (self : Tokenizer) (i : nat) : Tokenizer :=
  mkTokenizer (tokens self) (specials self) (indices self)
    (current_item self) (escaped self) (active_quotes self) (Some i).

(** [_flush_current_item(special, idx)] *)
Definition _flush_current_item (self : Tokenizer) (special : bool) (i : nat)
  : Tokenizer :=
  if negb (current_item self =? "")%string then
    mkTokenizer (tokens self ++ [current_item self])
      (specials self ++ [special])
      (indices self ++ [i])
      ""
      (escaped self) (active_quotes self) (idx self)
  else self.

(** The branches of the loop body of [_tokenize_match_arg], in source order. *)
Inductive Branch : Type :=
| BEscaped          (* if escaped *)
| BQuoteClose       (* elif char in quote_symbols: if char in active_quotes *)
| BQuoteOpen        (* elif char in quote_symbols: else *)
| BSpecial          (* elif len(active_quotes) == 0: if char in special_characters *)
| BBackslash        (* ... elif char is the backslash *)
| BComma            (* ... elif char is the comma *)
| BPlain            (* ... else *)
| BQuoted.          (* else *)

(** The action of the comma branch (lines 424-426), which is also that of
    the special-character branch (lines 418-420). *)
Definition flush_special (self : Tokenizer) (i : nat) (char : ascii)
  : Tokenizer :=
  let self := _flush_current_item self false i in
  let self := add_char self char in
  _flush_current_item self true i.

(** One iteration of the loop, with the action taken in the
    comma branch (line 423) as a parameter; the branch taken is returned
    next to the new state. *)
Definition loop_body_with (comma_action : Tokenizer -> nat -> ascii -> Tokenizer)
  (self : Tokenizer) (i : nat) (char : ascii) : Branch * Tokenizer :=
  let self := set_idx self i in
  if escaped self then
    (BEscaped, set_escaped (add_char self char) false)
  else if char_in_list char quote_symbols then
    match list_index char (active_quotes self) with
    | Some quote_index =>
        let self :=
          set_active_quotes self (firstn quote_index (active_quotes self)) in
        (BQuoteClose,
         if negb (quote_index =? 0)%nat then add_char self char else self)
    | None =>
        (BQuoteOpen, set_active_quotes self (active_quotes self ++ [char]))
    end
  else if (List.length (active_quotes self) =? 0)%nat then
    if char_in_str char special_characters then
      (BSpecial, flush_special self i char)
    else if Ascii.eqb char backslash then
      (BBackslash, set_escaped self true)
    else if Ascii.eqb char comma then
      (BComma, comma_action self i char)
    else
      (BPlain, add_char self char)
  else
    (BQuoted, add_char self char).

(** The loop body as the source has it. *)
Definition loop_body (self : Tokenizer) (i : nat) (char : ascii)
  : Branch * Tokenizer :=
  loop_body_with flush_special self i char.

(** The loop body with the comma branch (lines 423-426) left out: a character
    that would reach it falls through to the final [else]. *)
Definition loop_body_no_comma_branch (self : Tokenizer) (i : nat) (char : ascii)
  : Branch * Tokenizer :=
  loop_body_with (fun self _ char => add_char self char) self i char.

(** [for idx, char in enumerate(s)] from position [i] on. *)
Fixpoint for_enumerate (body : Tokenizer -> nat -> ascii -> Branch * Tokenizer)
  (self : Tokenizer) (i : nat) (s : string) : Tokenizer :=
  match s with
  | EmptyString => self
  | String char s' => for_enumerate body (snd (body self i char)) (S i) s'
  end.

(** The branches taken, one per character. *)
Fixpoint branches (body : Tokenizer -> nat -> ascii -> Branch * Tokenizer)
  (self : Tokenizer) (i : nat) (s : string) : list Branch :=
  match s with
  | EmptyString => []
  | String char s' =>
      fst (body self i char) :: branches body (snd (body self i char)) (S i) s'
  end.

(** The state set up by lines 397-403. *)
Definition tokenizer_init : Tokenizer :=
  mkTokenizer [] [] [] "" false [] None.

(** The state after the loop over the whole of [match_string]. *)
Definition scan (match_string : string) : Tokenizer :=
  for_enumerate loop_body tokenizer_init 0 match_string.

(** Line 431: [self._flush_current_item(special=False, idx=idx)]. *)
Definition final_flush (self : Tokenizer) : Result Tokenizer :=
  match idx self with
  | Some i => Return (_flush_current_item self false i)
  | None => Raise (UnboundLocalError "idx")
  end.

Definition _tokenize_match_arg_with
  (body : Tokenizer -> nat -> ascii -> Branch * Tokenizer)
  (match_string : string) : Result Tokenizer :=
  final_flush (for_enumerate body tokenizer_init 0 match_string).

Definition _tokenize_match_arg (match_string : string) : Result Tokenizer :=
  _tokenize_match_arg_with loop_body match_string.

Definition _tokenize_match_arg_no_comma_branch (match_string : string)
  : Result Tokenizer :=
  _tokenize_match_arg_with loop_body_no_comma_branch match_string.

(** A token as the parser sees it: [(token, special, idx)]. *)
Abbreviation Token := (string * bool * nat)%type.

Definition token_text (t : Token) : string := fst (fst t).
Definition token_special (t : Token) : bool := snd (fst t).
Definition token_position (t : Token) : nat := snd t.

(** [zip(tokens, specials, indices)] *)
Fixpoint zip3 (ts : list string) (ss : list bool) (ns : list nat)
  : list Token :=
  match ts, ss, ns with
  | t :: ts', s :: ss', i :: ns' => (t, s, i) :: zip3 ts' ss' ns'
  | _, _, _ => []
  end.

Definition token_seq (self : Tokenizer) : list Token :=
  zip3 (tokens self) (specials self) (indices self).

(** The token sequence of an expression. *)
Definition tokenize (match_string : string) : Result (list Token) :=
  self <- _tokenize_match_arg match_string ;;
  Return (token_seq self).

(** ** The dictionary [self.out] *)

(** Field name to value strings, in insertion order. *)
Definition FilterMap : Type := list (string * list string).

(** [out.get(key)] *)
Fixpoint dict_get (key : string) (d : FilterMap) : option (list string) :=
  match d with
  | [] => None
  | (k, v) :: d' => if (key =? k)%string then Some v else dict_get key d'
  end.

(** [key in out] *)
Definition dict_contains (key : string) (d : FilterMap) : bool :=
  match dict_get key d with
  | Some _ => true
  | None => false
  end.

(** [out[key].extend(values)]; Python raises [KeyError] for a missing key,
    the only call is guarded by [key in out]. *)
Fixpoint dict_extend (key : string) (values : list string) (d : FilterMap)
  : FilterMap :=
  match d with
  | [] => []
  | (k, v) :: d' =>
      if (key =? k)%string then (k, v ++ values) :: d'
      else (k, v) :: dict_extend key values d'
  end.

(** [out[key] = values]: replaces in place, or adds the key at the end. *)
Fixpoint dict_setitem (key : string) (values : list string) (d : FilterMap)
  : FilterMap :=
  match d with
  | [] => [(key, values)]
  | (k, v) :: d' =>
      if (key =? k)%string then (k, values) :: d'
      else (k, v) :: dict_setitem key values d'
  end.

(** ** The state-machine parser *)

Inductive Mode : Type :=
| expecting_key
| expecting_colon
| expecting_value
| expecting_key_comma
| expecting_list_comma
| expecting_list_value.

(** The attributes and locals that [_create_dictionary] works on.  [last_idx]
    is the loop variable [idx] of the loop over the zipped tokens, [None]
    until the first iteration binds it.  [merged] is a history variable that
    the source does not have: the [(key, values)] pairs that
    [_flush_key_value] has merged into [out], oldest first.  Nothing reads
    it; it gives the properties below a name for "each occurrence of a key
    with its value or value list". *)
Record Parser : Type := mkParser {
  mode : Mode;
  out : FilterMap;
  current_key : option string;
  current_value_list : list string;
  current_value : string;
  last_idx : option nat;
  merged : list (string * list string)
}.

Definition set_mode (self : Parser) (m : Mode) : Parser :=
  mkParser m (out self) (current_key self) (current_value_list self)
    (current_value self) (last_idx self) (merged self).

Definition set_current_key (self : Parser) (k : option string) : Parser :=
  mkParser (mode self) (out self) k (current_value_list self)
    (current_value self) (last_idx self) (merged self).

Definition set_last_idx (self : Parser) (i : nat) : Parser :=
  mkParser (mode self) (out self) (current_key self) (current_value_list self)
    (current_value self) (Some i) (merged self).

(** [_flush_value(current_value)] *)
Definition _flush_value (self : Parser) (value : string) : Parser :=
  mkParser (mode self) (out self) (current_key self)
    (current_value_list self ++ [value])
    (current_value self) (last_idx self) (merged self).

(** [_flush_key_value()] *)
Definition _flush_key_value (self : Parser) : Parser :=
  match current_key self with
  | Some key =>
      let out' :=
        if dict_contains key (out self)
        then dict_extend key (current_value_list self) (out self)
        else dict_setitem key (current_value_list self) (out self) in
      mkParser (mode self) out' None [] (current_value self) (last_idx self)
        (merged self ++ [(key, current_value_list self)])
  | None => self
  end.

(** [token == c and special] *)
Definition is_special (token : string) (special : bool) (c : string) : bool :=
  (token =? c)%string && special.

Definition raise {A : Type} (kind : ErrorKind) (i : nat)
  (match_string : string) : Result A :=
  Raise (ShowSourceOfError kind i match_string).

(** The body of the loop of [_create_dictionary] (lines 618-676). *)
Definition parse_token (match_string : string) (self : Parser) (t : Token)
  : Result Parser :=
  let '(token, special, i) := t in
  let self := set_last_idx self i in
  match mode self with
  | expecting_key =>
      if special then raise IncompleteKeyValuePairError i match_string
      else Return (set_mode (set_current_key self (Some token)) expecting_colon)
  | expecting_colon =>
      if special then
        if is_special token special ":" then Return (set_mode self expecting_value)
        else raise MissingColonError i match_string
      else
        (* no condition of the chain holds: the token is passed over *)
        Return self
  | expecting_value =>
      if special && negb (token =? "[")%string then
        raise UnexpectedSpecialCharacterError i match_string
      else if is_special token special "[" then
        Return (set_mode self expecting_list_value)
      else
        Return (set_mode (_flush_key_value (_flush_value self token))
                  expecting_key_comma)
  | expecting_list_value =>
      if is_special token special ":" then
        raise UnexpectedSpecialCharacterError i match_string
      else if is_special token special "]" then
        if (List.length (current_value_list self) =? 0)%nat
        then raise EmptyListError i match_string
        else raise EmptyValueError i match_string
      else
        Return (set_mode (_flush_value self token) expecting_list_comma)
  | expecting_list_comma =>
      if is_special token special "]" then
        Return (set_mode (_flush_key_value self) expecting_key_comma)
      else if is_special token special "," then
        Return (set_mode self expecting_list_value)
      else raise OnlyCommaValidError i match_string
  | expecting_key_comma =>
      if negb (is_special token special ",") then
        raise OnlyCommaValidError i match_string
      else Return (set_mode self expecting_key)
  end.

(** [for token, special, idx in zip(...)] *)
Fixpoint for_tokens (match_string : string) (self : Parser) (toks : list Token)
  : Result Parser :=
  match toks with
  | [] => Return self
  | t :: toks' =>
      self' <- parse_token match_string self t ;;
      for_tokens match_string self' toks'
  end.

(** Reading the loop variable after the loop. *)
Definition read_idx (self : Parser) : Result nat :=
  match last_idx self with
  | Some i => Return i
  | None => Raise (UnboundLocalError "idx")
  end.

(** Lines 677-690: the check at the end of the input. *)
Definition end_of_input (match_string : string) (self : Parser)
  : Result Parser :=
  match mode self with
  | expecting_value =>
      i <- read_idx self ;; raise EmptyValueError (i + 1) match_string
  | expecting_key =>
      i <- read_idx self ;; raise EmptyKeyError (i + 1) match_string
  | expecting_colon =>
      i <- read_idx self ;; raise IncompleteKeyValuePairError (i + 1) match_string
  | _ => Return (_flush_key_value self)
  end.

(** The state set up by lines 610-614. *)
Definition parser_init : Parser :=
  mkParser expecting_key [] None [] "" None [].

(** The run of [_create_dictionary] up to its [return]. *)
Definition run_parser (match_string : string) (toks : list Token)
  : Result Parser :=
  self <- for_tokens match_string parser_init toks ;;
  end_of_input match_string self.

(** [_create_dictionary()], on the attributes left by the tokenizer. *)
Definition _create_dictionary (match_string : string) (tok : Tokenizer)
  : Result FilterMap :=
  self <- run_parser match_string (token_seq tok) ;;
  Return (out self).

(** [parse()] *)
Definition parse (match_string : string) : Result FilterMap :=
  tok <- _tokenize_match_arg match_string ;;
  _create_dictionary match_string tok.

(** The occurrences of keys in an expression that parses: each key with the
    value or value list given to it there, in the order of the expression. *)
Definition occurrences (match_string : string) : list (string * list string) :=
  match _tokenize_match_arg match_string with
  | Return tok =>
      match run_parser match_string (token_seq tok) with
      | Return self => merged self
      | Raise _ => []
      end
  | Raise _ => []
  end.

(** [no_adjacent_plain toks]: no two neighbours in [toks] are both plain. *)
Fixpoint no_adjacent_plain (toks : list Token) : bool :=
  match toks with
  | [] => true
  | t1 :: rest =>
      match rest with
      | [] => true
      | t2 :: _ => (token_special t1 || token_special t2) && no_adjacent_plain rest
      end
  end.

(** [ends_special toks]: [toks] is empty or its last token is special. *)
Definition ends_special (toks : list Token) : bool :=
  match rev toks with
  | [] => true
  | t :: _ => token_special t
  end.

(** The modes in which the loop of [_create_dictionary] receives each
    token, up to the token that raises. *)
Fixpoint visited (match_string : string) (self : Parser) (toks : list Token)
  : list (Mode * Token) :=
  match toks with
  | [] => []
  | t :: toks' =>
      (mode self, t) ::
      match parse_token match_string self t with
      | Return self' => visited match_string self' toks'
      | Raise _ => []
      end
  end.

(** The position of the last occurrence of [char] in [l]: with the stack
    growing at the end of the list, the most recently opened one. *)
Fixpoint last_index (char : ascii) (l : list ascii) : option nat :=
  match l with
  | [] => None
  | c :: l' =>
      match last_index char l' with
      | Some i => Some (S i)
      | None => if Ascii.eqb char c then Some 0 else None
      end
  end.

(** A character with no meaning to the tokenizer: not special, not a quote
    symbol, not the backslash. *)
Definition ordinary (char : ascii) : bool :=
  negb (char_in_str char special_characters)
  && negb (char_in_list char quote_symbols)
  && negb (Ascii.eqb char backslash).

Fixpoint all_ordinary (s : string) : bool :=
  match s with
  | EmptyString => true
  | String c s' => ordinary c && all_ordinary s'
  end.

(** A plain word: a non-empty text of ordinary characters, as a key or a
    value is written when it needs no quoting. *)
Definition plain_word (s : string) : bool :=
  negb (s =? "")%string && all_ordinary s.

(** [sep.join(words)] *)
Fixpoint join (sep : string) (words : list string) : string :=
  match words with
  | [] => ""
  | [w] => w
  | w :: ws => w +s+ sep +s+ join sep ws
  end.

(** The class of an exception: its kind for a [ShowSourceOfError], leaving
    out the offset and the text of the expression that its message shows. *)
Definition exception_class (e : Exception) : option ErrorKind :=
  match e with
  | ShowSourceOfError k _ _ => Some k
  | UnboundLocalError _ => None
  end.

(** The outcome of [parse] without the diagnostics of a failure. *)
Definition outcome (r : Result FilterMap) : FilterMap + option ErrorKind :=
  match r with
  | Return d => inl d
  | Raise e => inr (exception_class e)
  end.

(** What [_flush_key_value] does to [out] with a pending [(key, values)]:
    the values are appended under a key that is there, and stored under a
    new key otherwise. *)
Definition merge_pair (d : FilterMap) (p : string * list string) : FilterMap :=
  if dict_contains (fst p) d
  then dict_extend (fst p) (snd p) d
  else dict_setitem (fst p) (snd p) d.

(** The occurrences of [key] among [occs]. *)
Definition occurrences_of (key : string) (occs : list (string * list string))
  : list (string * list string) :=
  filter (fun p => (fst p =? key)%string) occs.

(** The values given to [key] by its occurrences, concatenated in order. *)
Definition values_of (key : string) (occs : list (string * list string))
  : list string :=
  concat (map snd (occurrences_of key occs)).

(** Two parser states that differ at most in the value bound to the loop
    variable [idx], which only the diagnostics read. *)
Definition same_but_idx (a b : Parser) : Prop :=
  mode a = mode b
  /\ out a = out b
  /\ current_key a = current_key b
  /\ current_value_list a = current_value_list b
  /\ merged a = merged b
  /\ (last_idx a = None <-> last_idx b = None).

(** Two runs that end alike: in states that differ at most in [idx], or in
    exceptions of the same class. *)
Definition same_result (r r' : Result Parser) : Prop :=
  match r, r' with
  | Return a, Return b => same_but_idx a b
  | Raise e, Raise e' => exception_class e = exception_class e'
  | _, _ => False
  end.

(** The texts and flags of the tokens of a list body [v1,...,vn]. *)
Fixpoint list_lexemes (values : list string) : list (string * bool) :=
  match values with
  | [] => []
  | [v] => [(v, false)]
  | v :: vs => (v, false) :: (",", true) :: list_lexemes vs
  end.

(** The expression [key:[v1,...,vn]]. *)
Definition list_expression (key : string) (values : list string) : string :=
  key +s+ ":[" +s+ join "," values +s+ "]".

(** Tokens with the given texts and flags, all tagged with position 0. *)
Definition at_zero (lexemes : list (string * bool)) : list Token :=
  map (fun l => (fst l, snd l, 0)) lexemes.

(** ** Expressions written from keys and plain values

    The filters of the grammar: [key:value] and [key:[v1,...,vn]], joined
    by commas. *)

Inductive Filter : Type :=
| Single (key value : string)
| Listed (key : string) (values : list string).

(** The key of a filter with the values that it gives to it. *)
Definition filter_pair (f : Filter) : string * list string :=
  match f with
  | Single key value => (key, [value])
  | Listed key values => (key, values)
  end.

Definition render_filter (f : Filter) : string :=
  match f with
  | Single key value => key +s+ ":" +s+ value
  | Listed key values => list_expression key values
  end.

(** Keys and values are plain words, and a list has a value. *)
Definition well_formed (f : Filter) : bool :=
  match f with
  | Single key value => plain_word key && plain_word value
  | Listed key values =>
      plain_word key && forallb plain_word values
      && negb (List.length values =? 0)%nat
  end.

Definition expression (fs : list Filter) : string :=
  join "," (map render_filter fs).

Definition filter_lexemes (f : Filter) : list (string * bool) :=
  match f with
  | Single key value => [(key, false); (":", true); (value, false)]
  | Listed key values =>
      [(key, false); (":", true); ("[", true)]
      ++ list_lexemes values ++ [("]", true)]
  end.

Fixpoint expression_lexemes (fs : list Filter) : list (string * bool) :=
  match fs with
  | [] => []
  | [f] => filter_lexemes f
  | f :: fs' => filter_lexemes f ++ (",", true) :: expression_lexemes fs'
  end.

(** ** Diagnostics that differ by one position

    An offset that is the same or one more, for tokens, loop variables,
    exceptions and results. *)

Definition near_token (t t' : Token) : Prop :=
  fst t = fst t' /\ (snd t' = snd t \/ snd t' = S (snd t)).

Definition near_idx (a b : option nat) : Prop :=
  b = a \/ exists i, a = Some i /\ b = Some (S i).

Definition near_state (a b : Parser) : Prop :=
  same_but_idx a b /\ near_idx (last_idx a) (last_idx b).

(** Exceptions of the same class, each showing its own expression, the
    second at the same offset or one further. *)
Definition near_exception (ms ms' : string) (e e' : Exception) : Prop :=
  match e, e' with
  | ShowSourceOfError k i src, ShowSourceOfError k' i' src' =>
      k = k' /\ src = ms /\ src' = ms' /\ (i' = i \/ i' = S i)
  | UnboundLocalError n, UnboundLocalError n' => n = n'
  | _, _ => False
  end.

Definition near_result {A : Type} (R : A -> A -> Prop) (ms ms' : string)
  (r r' : Result A) : Prop :=
  match r, r' with
  | Return a, Return b => R a b
  | Raise e, Raise e' => near_exception ms ms' e e'
  | _, _ => False
  end.

(** ** Further notions: well-formed tokens, keys in order, texts without
    quotes *)

(** A token of the expression [s]: its text is not empty, its position lies
    inside [s], and a special token is the one special character found at
    that position of [s]. *)
Definition token_ok (s : string) (t : Token) : Prop :=
  token_position t < String.length s
  /\ token_text t <> ""
  /\ (token_special t = true ->
      exists c, token_text t = String c ""
                /\ String.get (token_position t) s = Some c
                /\ char_in_str c special_characters = true).



(** The value bound to the loop variable [idx] of [_create_dictionary]
    after the tokens [toks], from the value [d] bound before. *)
Definition last_position (toks : list Token) (d : option nat) : option nat :=
  fold_left (fun _ t => Some (token_position t)) toks d.

(** The kinds of error that the loop of [_create_dictionary] raises. *)
Definition loop_kind (k : ErrorKind) : bool :=
  match k with
  | EmptyKeyError | KeyValuePairInListError => false
  | _ => true
  end.

(** The kinds that are raised only on a special token, inside the loop. *)
Definition special_token_kind (k : ErrorKind) : bool :=
  match k with
  | MissingColonError | UnexpectedSpecialCharacterError | EmptyListError => true
  | _ => false
  end.

(** The kinds raised by the check at the end of the input. *)
Definition end_kind (k : ErrorKind) : bool :=
  match k with
  | EmptyValueError | EmptyKeyError | IncompleteKeyValuePairError => true
  | _ => false
  end.

(** The keys of a list, each once, in the order of their first occurrence:
    the order in which a Python [dict] keeps them. *)
Definition add_key (acc : list string) (k : string) : list string :=
  if existsb (String.eqb k) acc then acc else acc ++ [k].

Definition keys_in_order (keys : list string) : list string :=
  fold_left add_key keys [].

(** The texts of a list, one after the other. *)
Fixpoint flatten (texts : list string) : string :=
  match texts with
  | [] => ""
  | t :: texts' => t +s+ flatten texts'
  end.

(** A text without quote symbols. *)
Fixpoint no_quotes (s : string) : bool :=
  match s with
  | EmptyString => true
  | String c s' => negb (char_in_list c quote_symbols) && no_quotes s'
  end.

(** A text without quote symbols and without backslash. *)
Fixpoint no_quote_or_escape (s : string) : bool :=
  match s with
  | EmptyString => true
  | String c s' =>
      negb (char_in_list c quote_symbols) && negb (Ascii.eqb c backslash)
      && no_quote_or_escape s'
  end.

(** The dictionary written back as an expression, each key with its list. *)
Definition filters_of_dict (d : FilterMap) : list Filter :=
  map (fun kv => Listed (fst kv) (snd kv)) d.

(** The last token is a special opening bracket. *)
Definition ends_with_open_bracket (toks : list Token) : bool :=
  match rev toks with
  | t :: _ => token_special t && (token_text t =? "[")%string
  | [] => false
  end.

(** No key of the dictionary has an empty list of values. *)
Definition no_empty_list (d : FilterMap) : Prop :=
  Forall (fun kv => snd kv <> []) d.

(** What the parser keeps about empty lists: none is in [out], and a list
    that awaits a comma or its closing bracket has a value. *)
Definition NInv (self : Parser) : Prop :=
  no_empty_list (out self)
  /\ (mode self = expecting_list_comma -> current_value_list self <> []).

(** ** Metadata of file names: [_parse_filename]

    Python values that are a [str] or [None]: the groups of a regular
    expression match, the metadata of an image. *)

Inductive PyValue : Type :=
| PyStr (s : string)
| PyNone.

(** [s.split(sep)] for a separator [sep] of one character: the texts
    between the occurrences of [sep], empty ones included. *)
Fixpoint split_char (sep : ascii) (s : string) : list string :=
  match s with
  | EmptyString => [""]
  | String c s' =>
      if Ascii.eqb c sep then "" :: split_char sep s'
      else match split_char sep s' with
           | field :: fields => String c field :: fields
           | [] => [String c ""]
           end
  end.

(** A compiled regular expression, as [re.search(regex, s)] sees it:
    [None] when nothing in [s] matches, else [groups()] of the first match.
    The engine of the [re] module is not modelled. *)
Definition Regex : Type := string -> option (list PyValue).

(** [_parse_filename(filename, delimiter, regex)] *)
Definition _parse_filename (filename delimiter : string) (regex : Regex)
  : list PyValue :=
  match delimiter with
  | String sep EmptyString =>
      (* len(delimiter) == 1 *)
      map PyStr (split_char sep filename)
  | _ =>
      match regex filename with
      | Some groups => groups
      | None => []
      end
  end.

(** The number of occurrences of [c] in [s]. *)
Fixpoint count_char (c : ascii) (s : string) : nat :=
  match s with
  | EmptyString => 0
  | String c' s' => (if Ascii.eqb c' c then 1 else 0) + count_char c s'
  end.

(** ** Selecting images: [check_date_range] and [metadata_parser]

    [metadata_parser] is modelled where the data directory has no
    [SnapshotInfo.csv] (lines 44-52 and 178-225): the walk through the
    directory.  What it takes from the [re], [os] and [datetime] modules is
    a [World]. *)

Inductive MetaException : Type :=
| ReError
| IndexError
| KeyError (key : string)
| TypeError
| SystemExit (msg : string).

Inductive MResult (A : Type) : Type :=
| MReturn (a : A)
| MRaise (e : MetaException).

Arguments MReturn {A} a.
Arguments MRaise {A} e.

Definition mbind {A B : Type} (r : MResult A) (k : A -> MResult B)
  : MResult B :=
  match r with
  | MReturn a => k a
  | MRaise e => MRaise e
  end.

Notation "x <-- r ;; k" := (mbind r (fun x => k))
  (at level 61, r at next level, right associativity).

(** A Python [dict] with [str] keys, in insertion order. *)
Definition Dict (V : Type) : Type := list (string * V).

(** [d.get(key)]; [key in d] is [lookup key d <> None]. *)
Fixpoint lookup {V : Type} (key : string) (d : Dict V) : option V :=
  match d with
  | [] => None
  | (k, v) :: d' => if (key =? k)%string then Some v else lookup key d'
  end.

(** [d[key] = v] *)
Fixpoint setitem {V : Type} (key : string) (v : V) (d : Dict V) : Dict V :=
  match d with
  | [] => [(key, v)]
  | (k, v0) :: d' =>
      if (key =? k)%string then (k, v) :: d'
      else (k, v0) :: setitem key v d'
  end.

(** [l[i]] for a Python [int] [i]: a negative index counts from the end,
    [None] where Python raises [IndexError]. *)
Definition py_index {A : Type} (l : list A) (i : Z) : option A :=
  let n := Z.of_nat (List.length l) in
  if (0 <=? i)%Z then nth_error l (Z.to_nat i)
  else if (- n <=? i)%Z then nth_error l (Z.to_nat (n + i))
  else None.

(** [value in l] for a list [l] of [str]. *)
Definition py_in (value : PyValue) (l : list string) : bool :=
  match value with
  | PyStr s => existsb (String.eqb s) l
  | PyNone => false
  end.

(** The regular expression that ends image file names, as its methods
    [search] (is there a match) and [sub] with the empty replacement. *)
Record ExtRegex : Type := mkExtRegex {
  ext_search : string -> bool;
  ext_sub : string -> string
}.

(** The outcomes of [datetime.strptime(img_time, date_format)] followed by
    [timestamp - datetime.datetime(1970, 1, 1)] (lines 249-252):
    - [strptime] raises [ValueError], with a text;
    - [strptime] returns a timestamp that carries a UTC offset (a format
      with the directive [%z]): subtracting the epoch, which carries none,
      raises [TypeError];
    - [strptime] returns a timestamp without offset, and the difference
      to the epoch has these [days] and [seconds]. *)
Inductive Strptime : Type :=
| StrptimeValueError (text : string)
| StrptimeAware
| StrptimeNaive (days seconds : Z).

(** What [metadata_parser] takes from outside.
    - [re_compile delimiter] is [re.compile(delimiter)], [None] when it
      raises [re.error];
    - [re_compile_ext file_type] is [re.compile(re.escape('.') + file_type
      + '$', re.IGNORECASE)];
    - [os_walk data_dir] is the list of [(dirpath, filenames)] that
      [os.walk(data_dir)] yields;
    - [strptime_since_epoch img_time date_format] is what lines 249-252
      get from [datetime.strptime(img_time, date_format)] and from
      subtracting [datetime(1970, 1, 1)], a [Strptime]. *)
Record World : Type := mkWorld {
  re_compile : string -> option Regex;
  re_compile_ext : string -> option ExtRegex;
  os_walk : string -> list (string * list string);
  strptime_since_epoch : string -> string -> Strptime
}.

(** [check_date_range(start_date, end_date, img_time, date_format)] *)
Definition check_date_range (w : World) (start_date end_date : Z)
  (img_time date_format : string) : MResult bool :=
  match strptime_since_epoch w img_time date_format with
  | StrptimeValueError e =>
      MRaise (SystemExit
                (e +s+ newline
                 +s+ "  --> Please specify the correct --timestampformat argument <--"
                 +s+ newline))
  | StrptimeAware => MRaise TypeError
  | StrptimeNaive days seconds =>
      let unix_time := (days * 24 * 3600 + seconds)%Z in
      if (unix_time <? start_date)%Z || (unix_time >? end_date)%Z
      then MReturn false
      else MReturn true
  end.

(** The arguments of [metadata_parser] that stay the same for all files. *)
Record Config : Type := mkConfig {
  meta_fields : Dict Z;
  valid_meta : Dict PyValue;       (* field -> valid_meta[field]["value"] *)
  meta_filters : FilterMap;
  date_format : string;
  start_date : Z;
  end_date : Z;
  delimiter : string
}.

(** Lines 200-213, one [field] of [valid_meta] with its default value:
    [acc] is [(img_meta, img_pass)]. *)
Definition field_step (cfg : Config) (metadata : list PyValue)
  (acc : Dict PyValue * nat) (entry : string * PyValue)
  : MResult (Dict PyValue * nat) :=
  let '(img_meta, img_pass) := acc in
  let '(field, default) := entry in
  match lookup field (meta_fields cfg) with
  | Some index =>
      match py_index metadata index with
      | Some meta_value =>
          let img_pass :=
            match dict_get field (meta_filters cfg) with
            | Some filter =>
                (* meta_value != filter holds of a str or None and a list *)
                if true && negb (py_in meta_value filter) then 0 else img_pass
            | None => img_pass
            end in
          MReturn (setitem field meta_value img_meta, img_pass)
      | None => MRaise IndexError
      end
  | None => MReturn (setitem field default img_meta, img_pass)
  end.

(** [for field in valid_meta] *)
Fixpoint for_fields (cfg : Config) (metadata : list PyValue)
  (acc : Dict PyValue * nat) (fields : Dict PyValue)
  : MResult (Dict PyValue * nat) :=
  match fields with
  | [] => MReturn acc
  | entry :: fields' =>
      acc' <-- field_step cfg metadata acc entry ;;
      for_fields cfg metadata acc' fields'
  end.

(** Lines 215-218: the date range, checked only when both dates are
    nonzero and the image has a timestamp. *)
Definition date_step (w : World) (cfg : Config) (img_meta : Dict PyValue)
  (img_pass : nat) : MResult nat :=
  if negb (start_date cfg =? 0)%Z && negb (end_date cfg =? 0)%Z then
    match lookup "timestamp" img_meta with
    | None => MRaise (KeyError "timestamp")
    | Some PyNone => MReturn img_pass
    | Some (PyStr img_time) =>
        in_date_range <-- check_date_range w (start_date cfg) (end_date cfg)
                            img_time (date_format cfg) ;;
        MReturn (if in_date_range then img_pass else 0)
    end
  else MReturn img_pass.

(** Lines 186-223, one file of a directory: [st] is [(meta, jobcount)]. *)
Definition process_file (w : World) (cfg : Config) (regex : Regex)
  (ext : ExtRegex) (dirpath : string)
  (st : Dict (Dict PyValue) * nat) (filename : string)
  : MResult (Dict (Dict PyValue) * nat) :=
  let '(meta, jobcount) := st in
  if ext_search ext filename then
    let prefix := ext_sub ext filename in
    let metadata := _parse_filename prefix (delimiter cfg) regex in
    if (List.length metadata =? List.length (meta_fields cfg))%nat then
      acc <-- for_fields cfg metadata ([("path", PyStr dirpath)], 1)
                (valid_meta cfg) ;;
      img_pass <-- date_step w cfg (fst acc) (snd acc) ;;
      if (img_pass =? 1)%nat
      then MReturn (setitem filename (fst acc) meta, jobcount + 1)
      else MReturn (meta, jobcount)
    else MReturn (meta, jobcount)
  else MReturn (meta, jobcount).

(** [for filename in filenames] *)
Fixpoint for_files (w : World) (cfg : Config) (regex : Regex)
  (ext : ExtRegex) (dirpath : string)
  (st : Dict (Dict PyValue) * nat) (filenames : list string)
  : MResult (Dict (Dict PyValue) * nat) :=
  match filenames with
  | [] => MReturn st
  | filename :: filenames' =>
      st' <-- process_file w cfg regex ext dirpath st filename ;;
      for_files w cfg regex ext dirpath st' filenames'
  end.

(** [for (dirpath, dirnames, filenames) in os.walk(data_dir)] *)
Fixpoint for_walk (w : World) (cfg : Config) (regex : Regex) (ext : ExtRegex)
  (st : Dict (Dict PyValue) * nat) (dirs : list (string * list string))
  : MResult (Dict (Dict PyValue) * nat) :=
  match dirs with
  | [] => MReturn st
  | (dirpath, filenames) :: dirs' =>
      st' <-- for_files w cfg regex ext dirpath st filenames ;;
      for_walk w cfg regex ext st' dirs'
  end.

(** [metadata_parser(...)] for a [data_dir] without [SnapshotInfo.csv];
    the result is [(jobcount, meta)]. *)
Definition metadata_parser (w : World) (data_dir : string) (cfg : Config)
  (file_type : string) : MResult (nat * Dict (Dict PyValue)) :=
  match re_compile w (delimiter cfg) with
  | None => MRaise ReError
  | Some regex =>
      match re_compile_ext w file_type with
      | None => MRaise ReError
      | Some ext =>
          st <-- for_walk w cfg regex ext ([], 0) (os_walk w data_dir) ;;
          MReturn (snd st, fst st)
      end
  end.

(** The same arguments with other filters, or another date format; the
    same world with another [strptime]. *)
Definition with_filters (cfg : Config) (filters : FilterMap) : Config :=
  mkConfig (meta_fields cfg) (valid_meta cfg) filters (date_format cfg)
    (start_date cfg) (end_date cfg) (delimiter cfg).

Definition with_date_format (cfg : Config) (format : string) : Config :=
  mkConfig (meta_fields cfg) (valid_meta cfg) (meta_filters cfg) format
    (start_date cfg) (end_date cfg) (delimiter cfg).

Definition with_strptime (w : World)
  (strptime : string -> string -> Strptime) : World :=
  mkWorld (re_compile w) (re_compile_ext w) (os_walk w) strptime.

(** The file [filename] of the directory [dirpath] is an image with the
    right number of fields, and lines 197-221 build [img_meta] for it and
    let it pass. *)
Definition accepted (w : World) (cfg : Config) (regex : Regex)
  (ext : ExtRegex) (dirpath filename : string) (img_meta : Dict PyValue)
  : Prop :=
  let metadata :=
    _parse_filename (ext_sub ext filename) (delimiter cfg) regex in
  ext_search ext filename = true
  /\ List.length metadata = List.length (meta_fields cfg)
  /\ exists img_pass,
       for_fields cfg metadata ([("path", PyStr dirpath)], 1) (valid_meta cfg)
       = MReturn (img_meta, img_pass)
       /\ date_step w cfg img_meta img_pass = MReturn 1.

(** Every record of [meta] comes from an accepted file of that name found
    by the walk. *)
Definition all_accepted (w : World) (cfg : Config) (regex : Regex)
  (ext : ExtRegex) (dirs : list (string * list string))
  (meta : Dict (Dict PyValue)) : Prop :=
  forall filename img_meta,
    lookup filename meta = Some img_meta ->
    exists dirpath filenames,
      In (dirpath, filenames) dirs
      /\ In filename filenames
      /\ accepted w cfg regex ext dirpath filename img_meta.

(** All the file names that the walk yields. *)
Definition walked_files (dirs : list (string * list string)) : list string :=
  concat (map snd dirs).

(** A small world and configuration to run [metadata_parser] on: two
    directories, image names ending in [.png], fields cut at [_], and a
    [strptime] that reads the timestamps [1] and [2] as that many seconds
    after the epoch and refuses every other text. *)
Definition example_world : World :=
  mkWorld
    (fun _ => Some (fun _ => None))
    (fun _ =>
       Some (mkExtRegex
               (fun f => (substring (String.length f - 4) 4 f =? ".png")%string)
               (fun f => substring 0 (String.length f - 4) f)))
    (fun _ => [("d1", ["VIS_SV_1.png"; "NIR_SV_1.png"; "notes.txt"]);
               ("d2", ["VIS_TV_2.png"])])
    (fun img_time _ =>
       if (img_time =? "1")%string then StrptimeNaive 0 1
       else if (img_time =? "2")%string then StrptimeNaive 0 2
       else StrptimeValueError "time data does not match format").

Definition example_config : Config :=
  mkConfig
    [("imgtype", 0%Z); ("camera", 1%Z); ("id", (-1)%Z)]
    [("camera", PyStr "none"); ("imgtype", PyStr "none"); ("id", PyStr "none");
     ("timestamp", PyNone)]
    [("imgtype", ["VIS"])] "%Y" 0%Z 0%Z "_".

(** The same with a date range, the third field of a name being its
    timestamp. *)
Definition example_config_dates : Config :=
  mkConfig
    [("imgtype", 0%Z); ("camera", 1%Z); ("timestamp", 2%Z)]
    [("camera", PyStr "none"); ("imgtype", PyStr "none");
     ("timestamp", PyNone)]
    [("imgtype", ["VIS"])] "%Y" 1%Z 10%Z "_".

Definition example_meta : Dict (Dict PyValue) :=
  [("VIS_SV_1.png",
    [("path", PyStr "d1"); ("camera", PyStr "SV");
     ("imgtype", PyStr "VIS"); ("id", PyStr "1"); ("timestamp", PyNone)]);
   ("VIS_TV_2.png",
    [("path", PyStr "d2"); ("camera", PyStr "TV");
     ("imgtype", PyStr "VIS"); ("id", PyStr "2"); ("timestamp", PyNone)])].

Definition example_meta_dates : Dict (Dict PyValue) :=
  [("VIS_SV_1.png",
    [("path", PyStr "d1"); ("camera", PyStr "SV");
     ("imgtype", PyStr "VIS"); ("timestamp", PyStr "1")]);
   ("VIS_TV_2.png",
    [("path", PyStr "d2"); ("camera", PyStr "TV");
     ("imgtype", PyStr "VIS"); ("timestamp", PyStr "2")])].

(** [l[index]] does not raise [IndexError] on a list of [n] items:
    [-n <= index < n]. *)
Definition index_in_range (n : nat) (index : Z) : Prop :=
  (- Z.of_nat n <= index < Z.of_nat n)%Z.

(** Why lines 186-223 raise [e] for some file: an index of [meta_fields]
    that is out of range for a file name of [meta_count] fields, dates
    without a [timestamp] field in [valid_meta], a timestamp that
    [strptime] refuses, or one that it returns with a UTC offset.  A
    [re.error] is not raised there. *)
Definition file_exception_cause (w : World) (cfg : Config)
  (e : MetaException) : Prop :=
  match e with
  | ReError => False
  | IndexError =>
      exists field index,
        In field (map fst (valid_meta cfg))
        /\ lookup field (meta_fields cfg) = Some index
        /\ ~ index_in_range (List.length (meta_fields cfg)) index
  | KeyError key =>
      key = "timestamp"
      /\ ~ In "timestamp" (map fst (valid_meta cfg))
      /\ start_date cfg <> 0%Z /\ end_date cfg <> 0%Z
  | TypeError =>
      start_date cfg <> 0%Z /\ end_date cfg <> 0%Z
      /\ exists img_time,
           strptime_since_epoch w img_time (date_format cfg) = StrptimeAware
  | SystemExit msg =>
      start_date cfg <> 0%Z /\ end_date cfg <> 0%Z
      /\ exists img_time err,
           strptime_since_epoch w img_time (date_format cfg)
           = StrptimeValueError err
           /\ msg = err +s+ newline
                    +s+ "  --> Please specify the correct --timestampformat argument <--"
                    +s+ newline
  end.

(** The timestamp that line 215 reads for a file of the walk, when the file
    is an image whose name has as many fields as [meta_fields]: the field
    of the name at the index of [timestamp], or the default value of
    [valid_meta] when [meta_fields] has no such field. *)
Definition image_timestamp (cfg : Config) (regex : Regex) (ext : ExtRegex)
  (filename : string) : option PyValue :=
  let metadata :=
    _parse_filename (ext_sub ext filename) (delimiter cfg) regex in
  if ext_search ext filename
     && (List.length metadata =? List.length (meta_fields cfg))%nat
  then
    match lookup "timestamp" (meta_fields cfg) with
    | Some index => py_index metadata index
    | None => lookup "timestamp" (valid_meta cfg)
    end
  else None.

(** [strptime] reads the timestamp of the file, when it has one that is
    not [None], and returns it without UTC offset. *)
Definition timestamp_readable (w : World) (cfg : Config) (regex : Regex)
  (ext : ExtRegex) (filename : string) : Prop :=
  forall img_time,
    image_timestamp cfg regex ext filename = Some (PyStr img_time) ->
    exists days seconds,
      strptime_since_epoch w img_time (date_format cfg)
      = StrptimeNaive days seconds.

(** A configuration with an index that no file name of three fields has. *)
Definition example_config_bad_index : Config :=
  mkConfig
    [("imgtype", 0%Z); ("camera", 1%Z); ("id", 3%Z)]
    [("camera", PyStr "none"); ("imgtype", PyStr "none"); ("id", PyStr "none");
     ("timestamp", PyNone)]
    [("imgtype", ["VIS"])] "%Y" 0%Z 0%Z "_".

(** ** Invariants *)

(** What holds of the tokenizer's state before and after every iteration. *)
Record TInv (self : Tokenizer) : Prop := mkTInv {
  inv_len_specials : List.length (tokens self) = List.length (specials self);
  inv_len_indices : List.length (specials self) = List.length (indices self);
  inv_quotes : Forall (fun c => char_in_list c quote_symbols = true)
                 (active_quotes self);
  inv_nodup : NoDup (active_quotes self);
  inv_escaped : escaped self = true -> active_quotes self = [];
  inv_alternate : no_adjacent_plain (token_seq self) = true;
  inv_ends : ends_special (token_seq self) = true
}.

(** The tokenizer between two tokens: outside quotes and escapes, with no
    pending text. *)
Record Ready (self : Tokenizer) : Prop := mkReady {
  ready_escaped : escaped self = false;
  ready_quotes : active_quotes self = [];
  ready_item : current_item self = "";
  ready_specials : List.length (tokens self) = List.length (specials self);
  ready_indices : List.length (specials self) = List.length (indices self)
}.

(** What holds of the parser's state before and after every iteration:
    [out] is the merge of the pairs flushed so far, and a key is pending
    exactly in the modes that follow a key. *)
Record PInv (self : Parser) : Prop := mkPInv {
  pinv_out : out self = fold_left merge_pair (merged self) [];
  pinv_key :
    match mode self with
    | expecting_key | expecting_key_comma =>
        current_key self = None /\ current_value_list self = []
    | expecting_colon | expecting_value =>
        (exists k, current_key self = Some k) /\ current_value_list self = []
    | expecting_list_value | expecting_list_comma =>
        exists k, current_key self = Some k
    end
}.

(** ** Strings *)

Lemma append_nil_r (s : string) : s +s+ "" = s.
Proof. induction s as [|c s IH]; simpl; [reflexivity | now rewrite IH]. Qed.

Lemma append_assoc (s1 s2 s3 : string) :
  (s1 +s+ s2) +s+ s3 = s1 +s+ (s2 +s+ s3).
Proof. induction s1 as [|c s1 IH]; simpl; [reflexivity | now rewrite IH]. Qed.

Lemma length_append (s1 s2 : string) :
  String.length (s1 +s+ s2) = String.length s1 + String.length s2.
Proof. induction s1 as [|c s1 IH]; simpl; [reflexivity | now rewrite IH]. Qed.


Lemma append_cons_snoc (s : string) (c : ascii) (s' : string) :
  s +s+ String c s' = (s +s+ String c "") +s+ s'.
Proof. now rewrite append_assoc. Qed.

(** ** The tokenizer loop *)

Section Loop.

Variable body : Tokenizer -> nat -> ascii -> Branch * Tokenizer.

Lemma for_enumerate_app (s1 s2 : string) : forall (self : Tokenizer) (i : nat),
  for_enumerate body self i (s1 +s+ s2)
  = for_enumerate body (for_enumerate body self i s1) (i + String.length s1) s2.
Proof.
  induction s1 as [|c s1 IH]; intros self i; simpl.
  - now rewrite Nat.add_0_r.
  - rewrite IH. now rewrite Nat.add_succ_r.
Qed.

Lemma for_enumerate_snoc (s : string) (c : ascii) (self : Tokenizer) (i : nat) :
  for_enumerate body self i (s +s+ String c "")
  = snd (body (for_enumerate body self i s) (i + String.length s) c).
Proof. now rewrite for_enumerate_app. Qed.

End Loop.

Lemma scan_snoc (s : string) (c : ascii) :
  scan (s +s+ String c "") = snd (loop_body (scan s) (String.length s) c).
Proof. unfold scan. now rewrite for_enumerate_snoc. Qed.

(** Induction on a string from its end. *)
Lemma string_rev_ind (P : string -> Prop) :
  P "" -> (forall s c, P s -> P (s +s+ String c "")) -> forall s, P s.
Proof.
  intros H0 Hs s.
  assert (H : forall s' pre, P pre -> P (pre +s+ s')).
  { induction s' as [|c s' IH]; intros pre Hpre.
    - now rewrite append_nil_r.
    - rewrite append_cons_snoc. apply IH. now apply Hs. }
  apply (H s "" H0).
Qed.

(** The comma is a special character: a character that is not special is
    not the comma. *)
Lemma not_special_not_comma (char : ascii) :
  char_in_str char special_characters = false -> Ascii.eqb char comma = false.
Proof.
  unfold special_characters, comma; simpl.
  intros H. repeat (apply orb_false_elim in H; destruct H as [? H]).
  repeat match goal with
         | H : (_ || _) = false |- _ => apply orb_false_elim in H; destruct H
         end.
  assumption.
Qed.

Lemma loop_body_with_irrelevant
  (f g : Tokenizer -> nat -> ascii -> Tokenizer)
  (self : Tokenizer) (i : nat) (char : ascii) :
  loop_body_with f self i char = loop_body_with g self i char.
Proof.
  unfold loop_body_with.
  destruct (escaped (set_idx self i)); [reflexivity|].
  destruct (char_in_list char quote_symbols); [reflexivity|].
  destruct (List.length (active_quotes (set_idx self i)) =? 0)%nat; [|reflexivity].
  destruct (char_in_str char special_characters) eqn:Hs; [reflexivity|].
  destruct (Ascii.eqb char backslash); [reflexivity|].
  now rewrite (not_special_not_comma _ Hs).
Qed.

Lemma loop_body_with_not_comma
  (f : Tokenizer -> nat -> ascii -> Tokenizer)
  (self : Tokenizer) (i : nat) (char : ascii) :
  fst (loop_body_with f self i char) <> BComma.
Proof.
  unfold loop_body_with.
  destruct (escaped (set_idx self i)); [discriminate|].
  destruct (char_in_list char quote_symbols).
  { destruct (list_index char (active_quotes (set_idx self i))); discriminate. }
  destruct (List.length (active_quotes (set_idx self i)) =? 0)%nat; [|discriminate].
  destruct (char_in_str char special_characters) eqn:Hs; [discriminate|].
  destruct (Ascii.eqb char backslash); [discriminate|].
  rewrite (not_special_not_comma _ Hs). discriminate.
Qed.

Lemma for_enumerate_ext
  (b1 b2 : Tokenizer -> nat -> ascii -> Branch * Tokenizer) :
  (forall self i c, b1 self i c = b2 self i c) ->
  forall s self i, for_enumerate b1 self i s = for_enumerate b2 self i s.
Proof.
  intros Hb s. induction s as [|c s IH]; intros self i; simpl.
  - reflexivity.
  - rewrite Hb. apply IH.
Qed.

Lemma branches_not_comma (s : string) : forall self i,
  ~ In BComma (branches loop_body self i s).
Proof.
  induction s as [|c s IH]; intros self i; simpl.
  - tauto.
  - intros [H | H].
    + now apply (loop_body_with_not_comma flush_special self i c).
    + now apply IH in H.
Qed.

(** C8: the comma branch of the tokenizer (the [elif] on the comma, lines
    423-426) is unreachable: for every input string no iteration of the loop
    of [_tokenize_match_arg] takes it, the comma being one of the special
    characters tested first; so the tokenizer without that branch computes
    the same result on every input. *)
Theorem C8_comma_branch_unreachable (match_string : string) :
  ~ In BComma (branches loop_body tokenizer_init 0 match_string)
  /\ _tokenize_match_arg_no_comma_branch match_string
     = _tokenize_match_arg match_string.
Proof.
  split.
  - apply branches_not_comma.
  - unfold _tokenize_match_arg_no_comma_branch, _tokenize_match_arg,
      _tokenize_match_arg_with.
    f_equal. apply for_enumerate_ext. intros self i c.
    apply loop_body_with_irrelevant.
Qed.

(** ** Invariants of the tokenizer *)

Lemma zip3_snoc (ts : list string) : forall (ss : list bool) (ns : list nat)
  (t : string) (s : bool) (n : nat),
  List.length ts = List.length ss -> List.length ss = List.length ns ->
  zip3 (ts ++ [t]) (ss ++ [s]) (ns ++ [n]) = zip3 ts ss ns ++ [(t, s, n)].
Proof.
  induction ts as [|t0 ts IH]; intros [|s0 ss] [|n0 ns] t s n H1 H2;
    simpl in *; try discriminate; try reflexivity.
  rewrite IH by congruence. reflexivity.
Qed.

Lemma no_adjacent_plain_snoc (toks : list Token) (t : Token) :
  no_adjacent_plain (toks ++ [t])
  = no_adjacent_plain toks && (ends_special toks || token_special t).
Proof.
  induction toks as [|t1 [|t2 rest] IH].
  - reflexivity.
  - unfold ends_special; simpl. now rewrite andb_true_r.
  - change (no_adjacent_plain ((t1 :: t2 :: rest) ++ [t]))
      with ((token_special t1 || token_special t2)
            && no_adjacent_plain ((t2 :: rest) ++ [t])).
    rewrite IH.
    change (no_adjacent_plain (t1 :: t2 :: rest))
      with ((token_special t1 || token_special t2)
            && no_adjacent_plain (t2 :: rest)).
    assert (E : ends_special (t1 :: t2 :: rest) = ends_special (t2 :: rest)).
    { unfold ends_special. simpl.
      destruct (rev rest) as [|x l]; simpl; reflexivity. }
    rewrite E. now rewrite andb_assoc.
Qed.

Lemma ends_special_snoc (toks : list Token) (t : Token) :
  ends_special (toks ++ [t]) = token_special t.
Proof. unfold ends_special. now rewrite rev_app_distr. Qed.

Lemma list_index_none (char : ascii) (l : list ascii) :
  list_index char l = None -> ~ In char l.
Proof.
  induction l as [|c l IH]; simpl; [tauto|].
  destruct (Ascii.eqb char c) eqn:E; [discriminate|].
  destruct (list_index char l); [discriminate|].
  intros _ [H | H].
  - subst. now rewrite Ascii.eqb_refl in E.
  - now apply IH.
Qed.

Lemma list_index_some_in (char : ascii) (l : list ascii) :
  In char l -> exists n, list_index char l = Some n.
Proof.
  intros H. destruct (list_index char l) eqn:E; [eauto|].
  now apply list_index_none in E.
Qed.

Lemma list_index_last_index (char : ascii) (l : list ascii) :
  NoDup l -> last_index char l = list_index char l.
Proof.
  induction 1 as [|c l Hc Hl IH]; simpl; [reflexivity|].
  rewrite IH. destruct (Ascii.eqb char c) eqn:E.
  - apply Ascii.eqb_eq in E; subst.
    destruct (list_index c l) eqn:E'; [|reflexivity].
    exfalso. apply Hc. clear -E'.
    revert n E'. induction l as [|d l IHl]; simpl; intros n E; [discriminate|].
    destruct (Ascii.eqb c d) eqn:Ecd.
    + apply Ascii.eqb_eq in Ecd. now left.
    + destruct (list_index c l); [|discriminate]. right. eapply IHl; eauto.
  - reflexivity.
Qed.

Lemma In_firstn (A : Type) (x : A) (n : nat) : forall l : list A,
  In x (firstn n l) -> In x l.
Proof.
  induction n as [|n IH]; intros [|a l]; simpl; try tauto.
  intros [H | H]; [now left | right; now apply IH].
Qed.

Lemma NoDup_firstn (A : Type) (n : nat) (l : list A) :
  NoDup l -> NoDup (firstn n l).
Proof.
  intros H. revert n. induction H as [|a l Ha Hl IH]; intros [|n]; simpl;
    try constructor.
  - intros Hin. apply Ha. eapply In_firstn; eauto.
  - apply IH.
Qed.

Lemma NoDup_snoc (A : Type) (l : list A) (a : A) :
  NoDup l -> ~ In a l -> NoDup (l ++ [a]).
Proof.
  intros Hl Ha. apply NoDup_app; auto.
  - repeat constructor. simpl; tauto.
  - intros x Hx [Hx' | []]. subst. contradiction.
Qed.

Lemma token_seq_flush (self : Tokenizer) (special : bool) (i : nat) :
  List.length (tokens self) = List.length (specials self) ->
  List.length (specials self) = List.length (indices self) ->
  token_seq (_flush_current_item self special i)
  = token_seq self
    ++ (if (current_item self =? "")%string then []
        else [(current_item self, special, i)]).
Proof.
  intros H1 H2. unfold _flush_current_item, token_seq.
  destruct (current_item self =? "")%string; simpl.
  - now rewrite app_nil_r.
  - now apply zip3_snoc.
Qed.

Lemma flush_lengths (self : Tokenizer) (special : bool) (i : nat) :
  List.length (tokens self) = List.length (specials self) ->
  List.length (specials self) = List.length (indices self) ->
  List.length (tokens (_flush_current_item self special i))
  = List.length (specials (_flush_current_item self special i))
  /\ List.length (specials (_flush_current_item self special i))
     = List.length (indices (_flush_current_item self special i)).
Proof.
  intros H1 H2. unfold _flush_current_item.
  destruct (current_item self =? "")%string; simpl; [tauto|].
  rewrite !length_app; simpl. lia.
Qed.

Lemma token_seq_flush_special (self : Tokenizer) (i : nat) (char : ascii) :
  List.length (tokens self) = List.length (specials self) ->
  List.length (specials self) = List.length (indices self) ->
  token_seq (flush_special self i char)
  = token_seq self
    ++ (if (current_item self =? "")%string then []
        else [(current_item self, false, i)])
    ++ [(String char "", true, i)].
Proof.
  intros H1 H2. unfold flush_special.
  destruct (flush_lengths self false i H1 H2) as [H3 H4].
  set (A := _flush_current_item self false i) in *.
  assert (E : current_item A = "").
  { unfold A, _flush_current_item.
    destruct (current_item self =? "")%string eqn:E; simpl; [|reflexivity].
    now apply String.eqb_eq in E. }
  rewrite (token_seq_flush (add_char A char) true i H3 H4).
  change (token_seq (add_char A char)) with (token_seq A).
  change (current_item (add_char A char))
    with (current_item A +s+ String char "").
  rewrite E. simpl. unfold A.
  rewrite token_seq_flush by assumption. now rewrite <- app_assoc.
Qed.

Lemma flush_special_fields (self : Tokenizer) (i : nat) (char : ascii) :
  current_item (flush_special self i char) = ""
  /\ escaped (flush_special self i char) = escaped self
  /\ active_quotes (flush_special self i char) = active_quotes self
  /\ idx (flush_special self i char) = idx self.
Proof.
  unfold flush_special, _flush_current_item, add_char.
  destruct (current_item self =? "")%string eqn:E; simpl.
  - apply String.eqb_eq in E. rewrite E. simpl. tauto.
  - tauto.
Qed.

Lemma flush_special_lengths (self : Tokenizer) (i : nat) (char : ascii) :
  List.length (tokens self) = List.length (specials self) ->
  List.length (specials self) = List.length (indices self) ->
  List.length (tokens (flush_special self i char))
  = List.length (specials (flush_special self i char))
  /\ List.length (specials (flush_special self i char))
     = List.length (indices (flush_special self i char)).
Proof.
  intros H1 H2. unfold flush_special.
  destruct (flush_lengths self false i H1 H2) as [H3 H4].
  apply flush_lengths; simpl; assumption.
Qed.

Lemma TInv_init : TInv tokenizer_init.
Proof. constructor; simpl; auto using NoDup_nil; discriminate. Qed.

Lemma TInv_loop_body (self : Tokenizer) (i : nat) (char : ascii) :
  TInv self -> TInv (snd (loop_body self i char)).
Proof.
  intros [H1 H2 H3 H4 H5 H6 H7].
  unfold loop_body, loop_body_with.
  change (escaped (set_idx self i)) with (escaped self).
  change (active_quotes (set_idx self i)) with (active_quotes self).
  destruct (escaped self) eqn:Hesc.
  { simpl. constructor; simpl; auto; intros; congruence. }
  destruct (char_in_list char quote_symbols) eqn:Hq.
  { destruct (list_index char (active_quotes self)) as [n|] eqn:Hi; simpl.
    - assert (Hf : Forall (fun c => char_in_list c quote_symbols = true)
                     (firstn n (active_quotes self))).
      { apply Forall_forall. intros x Hx.
        rewrite Forall_forall in H3. apply H3.
        eapply In_firstn; eauto. }
      destruct (negb (n =? 0)%nat); constructor; simpl;
        auto using NoDup_firstn; intros; congruence.
    - constructor; simpl; auto; try (intros; congruence).
      + apply Forall_app; split; auto.
      + apply NoDup_snoc; auto. now apply list_index_none. }
  destruct (List.length (active_quotes self) =? 0)%nat eqn:Hl.
  2:{ simpl. constructor; simpl; auto; intros; congruence. }
  destruct (char_in_str char special_characters) eqn:Hs.
  { simpl.
    assert (L1 : List.length (tokens (set_idx self i))
                 = List.length (specials (set_idx self i))) by exact H1.
    assert (L2 : List.length (specials (set_idx self i))
                 = List.length (indices (set_idx self i))) by exact H2.
    destruct (flush_special_fields (set_idx self i) i char) as (F1 & F2 & F3 & F4).
    destruct (flush_special_lengths (set_idx self i) i char L1 L2) as [L3 L4].
    constructor; auto.
    - rewrite F3. exact H3.
    - rewrite F3. exact H4.
    - rewrite F2. simpl. rewrite Hesc. discriminate.
    - rewrite token_seq_flush_special by assumption.
      change (token_seq (set_idx self i)) with (token_seq self).
      change (current_item (set_idx self i)) with (current_item self).
      destruct (current_item self =? "")%string.
      + rewrite app_nil_l, no_adjacent_plain_snoc, H6. simpl.
        now rewrite orb_true_r.
      + rewrite app_assoc, !no_adjacent_plain_snoc, H6, H7. simpl.
        now rewrite orb_true_r.
    - rewrite token_seq_flush_special by assumption.
      rewrite app_assoc. now rewrite ends_special_snoc. }
  destruct (Ascii.eqb char backslash) eqn:Hb.
  { simpl. constructor; simpl; auto. intros _.
    apply Nat.eqb_eq in Hl. now apply length_zero_iff_nil. }
  rewrite (not_special_not_comma _ Hs). simpl.
  constructor; simpl; auto; intros; congruence.
Qed.

Lemma TInv_for_enumerate (s : string) : forall self i,
  TInv self -> TInv (for_enumerate loop_body self i s).
Proof.
  induction s as [|c s IH]; intros self i H; simpl; auto.
  apply IH. now apply TInv_loop_body.
Qed.

Lemma TInv_scan (s : string) : TInv (scan s).
Proof. apply TInv_for_enumerate, TInv_init. Qed.

Lemma idx_loop_body (self : Tokenizer) (i : nat) (char : ascii) :
  idx (snd (loop_body self i char)) = Some i.
Proof.
  unfold loop_body, loop_body_with.
  change (escaped (set_idx self i)) with (escaped self).
  change (active_quotes (set_idx self i)) with (active_quotes self).
  destruct (escaped self); [reflexivity|].
  destruct (char_in_list char quote_symbols).
  { destruct (list_index char (active_quotes self)) as [n|]; simpl; [|reflexivity].
    destruct (negb (n =? 0)%nat); reflexivity. }
  destruct (List.length (active_quotes self) =? 0)%nat; [|reflexivity].
  destruct (char_in_str char special_characters) eqn:Hs.
  { simpl. now destruct (flush_special_fields (set_idx self i) i char)
      as (_ & _ & _ & ->). }
  destruct (Ascii.eqb char backslash); [reflexivity|].
  now rewrite (not_special_not_comma _ Hs).
Qed.

Lemma idx_scan_snoc (s : string) (c : ascii) :
  idx (scan (s +s+ String c "")) = Some (String.length s).
Proof. rewrite scan_snoc. apply idx_loop_body. Qed.

Lemma idx_scan_nonempty (s : string) :
  s <> "" -> idx (scan s) = Some (String.length s - 1).
Proof.
  pattern s. apply string_rev_ind; [congruence|].
  clear s. intros s c _ _. rewrite idx_scan_snoc, length_append. simpl.
  f_equal. lia.
Qed.

Lemma tokenize_nonempty (s : string) :
  s <> "" ->
  _tokenize_match_arg s
  = Return (_flush_current_item (scan s) false (String.length s - 1)).
Proof.
  intros H. unfold _tokenize_match_arg, _tokenize_match_arg_with, final_flush.
  fold (scan s). now rewrite idx_scan_nonempty.
Qed.

(** ** Positions of tokens *)

(** C1: on the expression [id:[1a,2a]] the tokenizer tags the plain tokens
    [id], [1a] and [2a], which start at the indices 0, 4 and 7, with the
    indices 2, 6 and 9 of the special characters that end them; only the
    special tokens are tagged at their own position. *)
Theorem C1_plain_token_tagged_at_its_end :
  tokenize "id:[1a,2a]"
  = Return [("id", false, 2); (":", true, 2); ("[", true, 3);
            ("1a", false, 6); (",", true, 6); ("2a", false, 9);
            ("]", true, 9)].
Proof. reflexivity. Qed.

(** ** The empty expression *)

Lemma tokenize_total_on_nonempty (s : string) :
  s <> "" -> exists tok, _tokenize_match_arg s = Return tok.
Proof. intros H. rewrite tokenize_nonempty by assumption. eauto. Qed.

(** C2 does not hold on the empty expression: [parse] does not return the
    empty dictionary there, and the tokenizer does not return at all (it
    raises). *)
Lemma C2_empty_expression_counterexample :
  parse "" <> Return []
  /\ (forall tok, _tokenize_match_arg "" <> Return tok).
Proof. split; [discriminate | intros tok; discriminate]. Qed.

(** C2, amended: for every expression that is not empty the tokenizer
    returns without raising (violations of the grammar are found by the
    parser stage only); for the empty expression [parse] returns no
    dictionary. *)
Theorem C2_tokenizer_total_on_nonempty :
  (forall s, s <> "" -> exists tok, _tokenize_match_arg s = Return tok)
  /\ (forall d, parse "" <> Return d).
Proof. split; [apply tokenize_total_on_nonempty | intros d; discriminate]. Qed.

Lemma C2_tokenizer_total_witness :
  "a:1" <> "" /\ exists tok, _tokenize_match_arg "a:1" = Return tok.
Proof.
  split; [discriminate|].
  apply (proj1 C2_tokenizer_total_on_nonempty "a:1"). discriminate.
Defined.

(** ** Closing a quote *)

Lemma escaped_scan_no_quotes (s : string) :
  escaped (scan s) = true -> active_quotes (scan s) = [].
Proof. apply inv_escaped, TInv_scan. Qed.

(** C4: when the tokenizer reads a quote symbol that is open somewhere in
    the quote stack, the stack is cut back to the entries before the most
    recent occurrence of that symbol, and the quote character is added to
    the pending text exactly when that occurrence was not the bottom entry
    of the stack (position 0); no token is emitted. *)
Theorem C4_closing_quote (s : string) (char : ascii) :
  char_in_list char quote_symbols = true ->
  In char (active_quotes (scan s)) ->
  exists n,
    last_index char (active_quotes (scan s)) = Some n
    /\ fst (loop_body (scan s) (String.length s) char) = BQuoteClose
    /\ active_quotes (scan (s +s+ String char ""))
       = firstn n (active_quotes (scan s))
    /\ current_item (scan (s +s+ String char ""))
       = (if (n =? 0)%nat then current_item (scan s)
          else current_item (scan s) +s+ String char "")
    /\ token_seq (scan (s +s+ String char "")) = token_seq (scan s).
Proof.
  intros Hq Hin.
  destruct (list_index_some_in _ _ Hin) as [n Hn].
  exists n. rewrite (list_index_last_index _ _ (inv_nodup _ (TInv_scan s))).
  split; [exact Hn|].
  rewrite scan_snoc. unfold loop_body, loop_body_with.
  change (escaped (set_idx (scan s) (String.length s))) with (escaped (scan s)).
  change (active_quotes (set_idx (scan s) (String.length s)))
    with (active_quotes (scan s)).
  destruct (escaped (scan s)) eqn:Hesc.
  { apply escaped_scan_no_quotes in Hesc. rewrite Hesc in Hin. destruct Hin. }
  rewrite Hq, Hn. simpl.
  destruct n; simpl; repeat split; reflexivity.
Qed.

Lemma C4_closing_quote_witness :
  char_in_list squote quote_symbols = true
  /\ In squote (active_quotes (scan "a:'x"))
  /\ exists n,
       last_index squote (active_quotes (scan "a:'x")) = Some n
       /\ fst (loop_body (scan "a:'x") (String.length "a:'x") squote)
          = BQuoteClose
       /\ active_quotes (scan ("a:'x" +s+ String squote ""))
          = firstn n (active_quotes (scan "a:'x"))
       /\ current_item (scan ("a:'x" +s+ String squote ""))
          = (if (n =? 0)%nat then current_item (scan "a:'x")
             else current_item (scan "a:'x") +s+ String squote "")
       /\ token_seq (scan ("a:'x" +s+ String squote ""))
          = token_seq (scan "a:'x").
Proof.
  split; [reflexivity|]. split; [simpl; left; reflexivity|].
  apply (C4_closing_quote "a:'x" squote).
  - reflexivity.
  - simpl. left. reflexivity.
Defined.

(** ** A closing bracket where a list value is expected *)

(** C7: in the mode [expecting_list_value] a special closing bracket raises
    [EmptyListError] when the value list collected so far is empty and
    [EmptyValueError] otherwise, at the position of the bracket; so
    [parse] raises [EmptyValueError] on [a:[1,]]. *)
Theorem C7_bracket_in_expecting_list_value
  (match_string : string) (self : Parser) (i : nat) :
  mode self = expecting_list_value ->
  parse_token match_string self ("]", true, i)
  = Raise (ShowSourceOfError
             (match current_value_list self with
              | [] => EmptyListError
              | _ :: _ => EmptyValueError
              end) i match_string)
  /\ parse "a:[1,]" = Raise (ShowSourceOfError EmptyValueError 5 "a:[1,]").
Proof.
  intros Hm. split; [|reflexivity].
  unfold parse_token. simpl. rewrite Hm. simpl.
  destruct (current_value_list self); reflexivity.
Qed.

Lemma C7_bracket_witness :
  mode (mkParser expecting_list_value [] (Some "a") [] "" (Some 2) [])
  = expecting_list_value
  /\ parse_token "a:[]"
       (mkParser expecting_list_value [] (Some "a") [] "" (Some 2) [])
       ("]", true, 3)
     = Raise (ShowSourceOfError EmptyListError 3 "a:[]")
  /\ parse "a:[1,]" = Raise (ShowSourceOfError EmptyValueError 5 "a:[1,]").
Proof.
  split; [reflexivity|].
  apply (C7_bracket_in_expecting_list_value "a:[]"
           (mkParser expecting_list_value [] (Some "a") [] "" (Some 2) []) 3).
  reflexivity.
Defined.

(** ** The tokens of an expression alternate *)

Lemma token_seq_tokenize (s : string) (tok : Tokenizer) :
  _tokenize_match_arg s = Return tok ->
  s <> ""
  /\ token_seq tok
     = token_seq (scan s)
       ++ (if (current_item (scan s) =? "")%string then []
           else [(current_item (scan s), false, String.length s - 1)]).
Proof.
  intros H. assert (Hs : s <> "").
  { intros ->. discriminate. }
  split; [exact Hs|].
  rewrite tokenize_nonempty in H by assumption. injection H as <-.
  apply token_seq_flush; apply TInv_scan.
Qed.

Lemma tokenize_no_adjacent_plain (s : string) (toks : list Token) :
  tokenize s = Return toks -> no_adjacent_plain toks = true.
Proof.
  unfold tokenize. destruct (_tokenize_match_arg s) as [tok|e] eqn:E;
    simpl; [|discriminate].
  intros H; injection H as <-.
  destruct (token_seq_tokenize _ _ E) as [_ ->].
  destruct (current_item (scan s) =? "")%string.
  - rewrite app_nil_r. apply inv_alternate, TInv_scan.
  - rewrite no_adjacent_plain_snoc.
    now rewrite (inv_alternate _ (TInv_scan s)), (inv_ends _ (TInv_scan s)).
Qed.

Lemma parse_token_to_expecting_colon
  (ms : string) (self self' : Parser) (t : Token) :
  parse_token ms self t = Return self' ->
  mode self' = expecting_colon ->
  token_special t = false.
Proof.
  destruct t as [[token special] i]. unfold parse_token, raise. simpl.
  destruct (mode self) eqn:Hm; simpl;
    repeat match goal with
           | |- context [if ?b then _ else _] => destruct b eqn:?
           end;
    intros H; inversion H; subst; simpl; intros Hc;
    try discriminate; try congruence; reflexivity.
Qed.

Lemma visited_expecting_colon (ms : string) (toks : list Token) :
  forall self,
  no_adjacent_plain toks = true ->
  (mode self = expecting_colon ->
   match toks with
   | [] => True
   | t :: _ => token_special t = true
   end) ->
  Forall (fun mt => fst mt = expecting_colon -> token_special (snd mt) = true)
    (visited ms self toks).
Proof.
  induction toks as [|t toks IH]; intros self Hnap Hhead; simpl.
  - constructor.
  - constructor; [exact Hhead|].
    destruct (parse_token ms self t) as [self'|e] eqn:E; [|constructor].
    apply IH.
    + destruct toks as [|t2 rest]; [reflexivity|].
      simpl in Hnap. now apply andb_prop in Hnap.
    + intros Hc. destruct toks as [|t2 rest]; [exact I|].
      pose proof (parse_token_to_expecting_colon _ _ _ _ E Hc) as Hp.
      simpl in Hnap. apply andb_prop in Hnap. destruct Hnap as [Hn _].
      rewrite Hp in Hn. exact Hn.
Qed.

(** C9: the tokens of an expression never have two plain tokens next to
    each other; so, running [parse], the loop of [_create_dictionary]
    receives only special tokens while in the mode [expecting_colon]: the
    path on which a plain token would be passed over in that mode is never
    taken. *)
Theorem C9_no_plain_token_in_expecting_colon (s : string) (toks : list Token) :
  tokenize s = Return toks ->
  no_adjacent_plain toks = true
  /\ Forall (fun mt => fst mt = expecting_colon -> token_special (snd mt) = true)
       (visited s parser_init toks).
Proof.
  intros H. pose proof (tokenize_no_adjacent_plain _ _ H) as Hnap.
  split; [exact Hnap|].
  apply visited_expecting_colon; [exact Hnap|].
  simpl. discriminate.
Qed.

Lemma C9_no_plain_token_witness :
  tokenize "a:1,b"
  = Return [("a", false, 1); (":", true, 1); ("1", false, 3); (",", true, 3);
            ("b", false, 4)]
  /\ no_adjacent_plain
       [("a", false, 1); (":", true, 1); ("1", false, 3); (",", true, 3);
        ("b", false, 4)] = true
  /\ Forall (fun mt => fst mt = expecting_colon -> token_special (snd mt) = true)
       (visited "a:1,b" parser_init
          [("a", false, 1); (":", true, 1); ("1", false, 3); (",", true, 3);
           ("b", false, 4)]).
Proof.
  split; [reflexivity|].
  apply (C9_no_plain_token_in_expecting_colon "a:1,b"). reflexivity.
Defined.

(** ** Invariants of the parser *)

Lemma PInv_init : PInv parser_init.
Proof. constructor; simpl; auto. Qed.

Lemma flush_key_value_some (self : Parser) (key : string) :
  current_key self = Some key ->
  _flush_key_value self
  = mkParser (mode self)
      (merge_pair (out self) (key, current_value_list self))
      None [] (current_value self) (last_idx self)
      (merged self ++ [(key, current_value_list self)]).
Proof. intros H. unfold _flush_key_value. now rewrite H. Qed.

Lemma flush_key_value_none (self : Parser) :
  current_key self = None -> _flush_key_value self = self.
Proof. intros H. unfold _flush_key_value. now rewrite H. Qed.

Lemma PInv_parse_token (ms : string) (self self' : Parser) (t : Token) :
  PInv self -> parse_token ms self t = Return self' -> PInv self'.
Proof.
  intros [Ho Hk]. destruct t as [[token special] i].
  unfold parse_token, raise.
  change (mode (set_last_idx self i)) with (mode self).
  destruct (mode self) eqn:Hm; simpl in Hk;
    repeat match goal with
           | |- context [if ?b then _ else _] => destruct b eqn:?
           end;
    intros H; inversion H; subst; clear H;
    try (constructor; simpl; try rewrite Hm; simpl; eauto; tauto).
  - (* expecting_key, a key *)
    constructor; simpl; [exact Ho|]. split; [eauto | tauto].
  - (* expecting_value, a plain value *)
    destruct Hk as [[k Hk] Hv].
    rewrite (flush_key_value_some (_flush_value (set_last_idx self i) token) k)
      by exact Hk.
    constructor; simpl; auto.
    rewrite fold_left_app. simpl. now rewrite <- Ho.
  - (* expecting_list_comma, the closing bracket *)
    destruct Hk as [k Hk].
    rewrite (flush_key_value_some (set_last_idx self i) k) by exact Hk.
    constructor; simpl; auto.
    rewrite fold_left_app. simpl. now rewrite <- Ho.
Qed.

Lemma PInv_for_tokens (ms : string) (toks : list Token) :
  forall self self',
  PInv self -> for_tokens ms self toks = Return self' -> PInv self'.
Proof.
  induction toks as [|t toks IH]; intros self self' Hinv; simpl.
  - intros H; injection H as <-. exact Hinv.
  - destruct (parse_token ms self t) as [self1|e] eqn:E; simpl; [|discriminate].
    apply IH. eapply PInv_parse_token; eauto.
Qed.

Lemma PInv_end_of_input (ms : string) (self self' : Parser) :
  PInv self -> end_of_input ms self = Return self' ->
  out self' = fold_left merge_pair (merged self') []
  /\ (mode self = expecting_list_value \/ mode self = expecting_list_comma
      \/ mode self = expecting_key_comma).
Proof.
  intros [Ho Hk]. unfold end_of_input, read_idx, raise.
  destruct (mode self) eqn:Hm; simpl in *;
    try (destruct (last_idx self); simpl; discriminate).
  - destruct Hk as [Hk _]. rewrite (flush_key_value_none _ Hk).
    intros H; injection H as <-. tauto.
  - destruct Hk as [k Hk]. rewrite (flush_key_value_some _ _ Hk).
    intros H; injection H as <-. simpl. rewrite fold_left_app. simpl.
    rewrite <- Ho. tauto.
  - destruct Hk as [k Hk]. rewrite (flush_key_value_some _ _ Hk).
    intros H; injection H as <-. simpl. rewrite fold_left_app. simpl.
    rewrite <- Ho. tauto.
Qed.

Lemma for_tokens_app (ms : string) (l1 l2 : list Token) : forall self,
  for_tokens ms self (l1 ++ l2)
  = (self' <- for_tokens ms self l1 ;; for_tokens ms self' l2).
Proof.
  induction l1 as [|t l1 IH]; intros self; simpl; [reflexivity|].
  destruct (parse_token ms self t); simpl; [apply IH | reflexivity].
Qed.

(** ** Merging repeated keys *)

Lemma dict_get_extend (k k' : string) (vs : list string) (d : FilterMap) :
  dict_get k (dict_extend k' vs d)
  = if (k =? k')%string
    then option_map (fun l => l ++ vs) (dict_get k d)
    else dict_get k d.
Proof.
  induction d as [|[k0 v0] d IH]; simpl.
  - now destruct (k =? k')%string.
  - destruct (k' =? k0)%string eqn:E1; simpl.
    + apply String.eqb_eq in E1; subst k0.
      destruct (k =? k')%string; reflexivity.
    + destruct (k =? k0)%string eqn:E2.
      * apply String.eqb_eq in E2; subst k0.
        rewrite String.eqb_sym in E1. now rewrite E1.
      * exact IH.
Qed.

Lemma dict_get_setitem (k k' : string) (vs : list string) (d : FilterMap) :
  dict_get k (dict_setitem k' vs d)
  = if (k =? k')%string then Some vs else dict_get k d.
Proof.
  induction d as [|[k0 v0] d IH]; simpl.
  - reflexivity.
  - destruct (k' =? k0)%string eqn:E1; simpl.
    + apply String.eqb_eq in E1; subst k0.
      destruct (k =? k')%string; reflexivity.
    + destruct (k =? k0)%string eqn:E2.
      * apply String.eqb_eq in E2; subst k0.
        rewrite String.eqb_sym in E1. now rewrite E1.
      * exact IH.
Qed.

(** New values are appended to the ones a key has; the other keys keep
    theirs. *)
Lemma dict_get_merge_pair (k k' : string) (vs : list string) (d : FilterMap) :
  dict_get k (merge_pair d (k', vs))
  = if (k =? k')%string
    then Some (match dict_get k d with
               | Some l => l ++ vs
               | None => vs
               end)
    else dict_get k d.
Proof.
  unfold merge_pair, dict_contains. simpl.
  destruct (dict_get k' d) as [l|] eqn:E.
  - rewrite dict_get_extend. destruct (k =? k')%string eqn:Ek; [|reflexivity].
    apply String.eqb_eq in Ek; subst k'. now rewrite E.
  - rewrite dict_get_setitem. destruct (k =? k')%string eqn:Ek; [|reflexivity].
    apply String.eqb_eq in Ek; subst k'. now rewrite E.
Qed.

Lemma dict_get_fold_merge (k : string) (occs : list (string * list string)) :
  forall d,
  dict_get k (fold_left merge_pair occs d)
  = match dict_get k d with
    | Some l => Some (l ++ values_of k occs)
    | None =>
        match occurrences_of k occs with
        | [] => None
        | _ :: _ => Some (values_of k occs)
        end
    end.
Proof.
  unfold values_of, occurrences_of.
  induction occs as [|[k' vs] occs IH]; intros d; simpl.
  - destruct (dict_get k d); [now rewrite app_nil_r | reflexivity].
  - rewrite IH, dict_get_merge_pair. rewrite (String.eqb_sym k' k).
    destruct (k =? k')%string; simpl.
    + destruct (dict_get k d); [now rewrite app_assoc | reflexivity].
    + reflexivity.
Qed.

Lemma parse_inversion (s : string) (d : FilterMap) :
  parse s = Return d ->
  exists tok self,
    _tokenize_match_arg s = Return tok
    /\ run_parser s (token_seq tok) = Return self
    /\ d = out self
    /\ occurrences s = merged self.
Proof.
  unfold parse, _create_dictionary, occurrences.
  destruct (_tokenize_match_arg s) as [tok|e]; simpl; [|discriminate].
  destruct (run_parser s (token_seq tok)) as [self|e] eqn:E; simpl;
    [|discriminate].
  intros H; injection H as <-. exists tok, self. now rewrite E.
Qed.

Lemma run_parser_out (ms : string) (toks : list Token) (self : Parser) :
  run_parser ms toks = Return self ->
  out self = fold_left merge_pair (merged self) [].
Proof.
  unfold run_parser.
  destruct (for_tokens ms parser_init toks) as [self0|e] eqn:E; simpl;
    [|discriminate].
  intros H.
  now destruct (PInv_end_of_input _ _ _
                  (PInv_for_tokens _ _ _ _ PInv_init E) H).
Qed.

(** The dictionary that [parse] returns is the merge, in order, of the
    occurrences of the expression. *)
Lemma parse_merges_occurrences (s : string) (d : FilterMap) :
  parse s = Return d -> d = fold_left merge_pair (occurrences s) [].
Proof.
  intros H. destruct (parse_inversion _ _ H) as (tok & self & _ & Hr & -> & ->).
  eapply run_parser_out; eauto.
Qed.

(** ** The positions of the tokens only matter to the diagnostics *)

Lemma same_but_idx_refl (a : Parser) : same_but_idx a a.
Proof. unfold same_but_idx; tauto. Qed.

Lemma parse_token_same_but_idx (ms ms' : string) (a b : Parser)
  (token : string) (special : bool) (i i' : nat) :
  same_but_idx a b ->
  same_result (parse_token ms a (token, special, i))
              (parse_token ms' b (token, special, i')).
Proof.
  destruct a as [m o k vl cv li mg], b as [m' o' k' vl' cv' li' mg'].
  unfold same_but_idx; simpl. intros (-> & -> & -> & -> & -> & _).
  unfold parse_token, raise, _flush_key_value, _flush_value, set_mode,
    set_last_idx, set_current_key; simpl.
  destruct m'; simpl;
    repeat match goal with
           | |- context [if ?c then _ else _] => destruct c eqn:?
           | |- context [match ?c with Some _ => _ | None => _ end] =>
               destruct c eqn:?
           end;
    simpl; unfold same_but_idx; simpl; try reflexivity;
    repeat split; try reflexivity; try discriminate; auto.
Qed.

Lemma for_tokens_cons (ms : string) (self : Parser) (t : Token)
  (toks : list Token) :
  for_tokens ms self (t :: toks)
  = (self' <- parse_token ms self t ;; for_tokens ms self' toks).
Proof. reflexivity. Qed.

Lemma for_tokens_same_but_idx (ms ms' : string) (toks : list Token) :
  forall (toks' : list Token) (a b : Parser),
  map fst toks = map fst toks' ->
  same_but_idx a b ->
  same_result (for_tokens ms a toks) (for_tokens ms' b toks').
Proof.
  induction toks as [|[[token special] i] toks IH];
    intros [|[[token' special'] i'] toks'] a b Hmap Hab; simpl in Hmap;
    try discriminate.
  - exact Hab.
  - injection Hmap as -> -> Hmap. rewrite !for_tokens_cons.
    pose proof (parse_token_same_but_idx ms ms' a b token' special' i i' Hab)
      as Hstep.
    destruct (parse_token ms a (token', special', i)) as [a1|e];
      destruct (parse_token ms' b (token', special', i')) as [b1|e'];
      unfold same_result in Hstep; try contradiction; unfold bind.
    + now apply IH.
    + exact Hstep.
Qed.

Lemma end_of_input_same_but_idx (ms ms' : string) (a b : Parser) :
  same_but_idx a b ->
  same_result (end_of_input ms a) (end_of_input ms' b).
Proof.
  destruct a as [m o k vl cv li mg], b as [m' o' k' vl' cv' li' mg'].
  unfold same_but_idx; simpl. intros (-> & -> & -> & -> & -> & Hli).
  unfold end_of_input, read_idx, raise, _flush_key_value; simpl.
  destruct m'; simpl;
    try (destruct li as [n|], li' as [n'|]; simpl; try reflexivity;
         exfalso; destruct Hli as [H1 H2];
         first [ now specialize (H1 eq_refl) | now specialize (H2 eq_refl) ]);
    destruct k'; simpl; unfold same_but_idx; simpl; tauto.
Qed.

Lemma run_parser_same_lexemes (ms ms' : string) (toks toks' : list Token) :
  map fst toks = map fst toks' ->
  same_result (run_parser ms toks) (run_parser ms' toks').
Proof.
  intros Hmap. unfold run_parser.
  pose proof (for_tokens_same_but_idx ms ms' toks toks' parser_init parser_init
                Hmap (same_but_idx_refl _)) as H.
  destruct (for_tokens ms parser_init toks) as [a|e];
    destruct (for_tokens ms' parser_init toks') as [b|e'];
    simpl in *; try contradiction.
  - now apply end_of_input_same_but_idx.
  - exact H.
Qed.

(** Two expressions with the same tokens up to their positions have the
    same outcome. *)
Lemma parse_same_lexemes (s s' : string) (tok tok' : Tokenizer) :
  _tokenize_match_arg s = Return tok ->
  _tokenize_match_arg s' = Return tok' ->
  map fst (token_seq tok) = map fst (token_seq tok') ->
  outcome (parse s) = outcome (parse s').
Proof.
  intros H H' Hmap. unfold parse, _create_dictionary. rewrite H, H'. simpl.
  pose proof (run_parser_same_lexemes s s' _ _ Hmap) as Hr.
  destruct (run_parser s (token_seq tok)) as [a|e];
    destruct (run_parser s' (token_seq tok')) as [b|e'];
    simpl in *; try contradiction.
  - destruct Hr as (_ & -> & _). reflexivity.
  - now rewrite Hr.
Qed.

(** ** An unterminated quote *)

Lemma open_quote_nonempty (s : string) (q : ascii) (rest : list ascii) :
  active_quotes (scan s) = q :: rest -> s <> "".
Proof. intros H ->. discriminate. Qed.

(** Reading the outermost open quote symbol again closes every open quote
    and leaves the tokens and the pending text as they are. *)
Lemma scan_close_outermost (s : string) (q : ascii) (rest : list ascii) :
  active_quotes (scan s) = q :: rest ->
  scan (s +s+ String q "")
  = mkTokenizer (tokens (scan s)) (specials (scan s)) (indices (scan s))
      (current_item (scan s)) false [] (Some (String.length s)).
Proof.
  intros Hq. rewrite scan_snoc. unfold loop_body, loop_body_with.
  change (escaped (set_idx (scan s) (String.length s))) with (escaped (scan s)).
  change (active_quotes (set_idx (scan s) (String.length s)))
    with (active_quotes (scan s)).
  destruct (escaped (scan s)) eqn:Hesc.
  { apply escaped_scan_no_quotes in Hesc. congruence. }
  pose proof (inv_quotes _ (TInv_scan s)) as Hall.
  rewrite Hq in Hall. inversion Hall as [|? ? Hqs _]; subst.
  rewrite Hqs, Hq. simpl. rewrite Ascii.eqb_refl. simpl.
  unfold set_active_quotes, set_idx. simpl. now rewrite Hesc.
Qed.

Lemma near_token_refl (t : Token) : near_token t t.
Proof. unfold near_token; tauto. Qed.

Lemma near_state_refl (a : Parser) : near_state a a.
Proof. split; [apply same_but_idx_refl | now left]. Qed.

Lemma parse_token_near (ms ms' : string) (a b : Parser) (t t' : Token) :
  near_token t t' -> near_state a b ->
  near_result near_state ms ms' (parse_token ms a t) (parse_token ms' b t').
Proof.
  destruct t as [[token special] i], t' as [[token' special'] i'].
  unfold near_token; simpl. intros [E Hi]. injection E as <- <-.
  destruct a as [m o k vl cv li mg], b as [m' o' k' vl' cv' li' mg'].
  unfold near_state, same_but_idx; simpl.
  intros [(-> & -> & -> & -> & -> & _) _].
  assert (Hn : near_idx (Some i) (Some i')).
  { destruct Hi as [-> | ->]; [now left | right; eauto]. }
  unfold parse_token, raise, _flush_key_value, _flush_value, set_mode,
    set_last_idx, set_current_key; simpl.
  destruct m'; simpl;
    repeat match goal with
           | |- context [if ?c then _ else _] => destruct c eqn:?
           | |- context [match ?c with Some _ => _ | None => _ end] =>
               destruct c eqn:?
           end;
    simpl; unfold near_state, same_but_idx; simpl;
    repeat split; try reflexivity; try discriminate; auto.
Qed.

Lemma for_tokens_near (ms ms' : string) (toks toks' : list Token) :
  Forall2 near_token toks toks' ->
  forall a b, near_state a b ->
  near_result near_state ms ms' (for_tokens ms a toks) (for_tokens ms' b toks').
Proof.
  induction 1 as [|t t' toks toks' Ht _ IH]; intros a b Hab.
  - exact Hab.
  - rewrite !for_tokens_cons.
    pose proof (parse_token_near ms ms' a b t t' Ht Hab) as Hstep.
    destruct (parse_token ms a t) as [a1|e];
      destruct (parse_token ms' b t') as [b1|e'];
      unfold near_result in Hstep; try contradiction; unfold bind.
    + now apply IH.
    + destruct e, e'; exact Hstep.
Qed.

Lemma near_idx_none (li li' : option nat) :
  near_idx li li' -> (li = None <-> li' = None).
Proof.
  intros [-> | (i & -> & ->)]; [tauto | split; discriminate].
Qed.

Lemma read_idx_near (ms ms' : string) (kind : ErrorKind) (a b : Parser) :
  near_idx (last_idx a) (last_idx b) ->
  near_result near_state ms ms'
    (i <- read_idx a ;; raise kind (i + 1) ms)
    (i <- read_idx b ;; raise kind (i + 1) ms').
Proof.
  unfold read_idx, raise.
  intros [-> | (i & -> & ->)]; simpl.
  - destruct (last_idx a); simpl; [|reflexivity].
    repeat split. now left.
  - repeat split. right. lia.
Qed.

Lemma flush_key_value_near (a b : Parser) :
  near_state a b -> near_state (_flush_key_value a) (_flush_key_value b).
Proof.
  destruct a as [m o k vl cv li mg], b as [m' o' k' vl' cv' li' mg'].
  unfold near_state, same_but_idx; simpl.
  intros [(-> & -> & -> & -> & -> & Hnone) Hli].
  unfold _flush_key_value; simpl. destruct k'; simpl; repeat split; auto;
    apply Hnone.
Qed.

Lemma end_of_input_near (ms ms' : string) (a b : Parser) :
  near_state a b ->
  near_result near_state ms ms' (end_of_input ms a) (end_of_input ms' b).
Proof.
  intros Hab. pose proof Hab as [(Hm & _) Hli].
  unfold end_of_input. rewrite <- Hm.
  destruct (mode a); try (now apply read_idx_near);
    simpl; now apply flush_key_value_near.
Qed.

(** Expressions whose tokens differ at most by one position have the same
    outcome, with diagnostics that differ at most by one position. *)
Lemma parse_near (s s' : string) (tok tok' : Tokenizer) :
  _tokenize_match_arg s = Return tok ->
  _tokenize_match_arg s' = Return tok' ->
  Forall2 near_token (token_seq tok) (token_seq tok') ->
  near_result eq s s' (parse s) (parse s').
Proof.
  intros H H' Hnear. unfold parse, _create_dictionary, run_parser.
  rewrite H, H'. unfold bind at 1 4.
  pose proof (for_tokens_near s s' _ _ Hnear parser_init parser_init
                (near_state_refl _)) as Hrun.
  destruct (for_tokens s parser_init (token_seq tok)) as [a|e];
    destruct (for_tokens s' parser_init (token_seq tok')) as [b|e'];
    unfold near_result in Hrun; try contradiction; unfold bind at 2 4.
  - pose proof (end_of_input_near s s' a b Hrun) as Hend.
    destruct (end_of_input s a) as [a1|e];
      destruct (end_of_input s' b) as [b1|e'];
      unfold near_result in Hend; try contradiction; unfold bind.
    + destruct Hend as [(_ & Ho & _) _]. simpl. now rewrite Ho.
    + destruct e, e'; exact Hend.
  - unfold bind. destruct e, e'; exact Hrun.
Qed.

Lemma near_result_outcome (s s' : string) (r r' : Result FilterMap) :
  near_result eq s s' r r' -> outcome r = outcome r'.
Proof.
  destruct r as [d|e], r' as [d'|e']; simpl; try contradiction.
  - now intros ->.
  - destruct e, e'; simpl; try contradiction.
    + now intros (-> & _).
    + reflexivity.
Qed.

Lemma Forall2_near_refl (toks : list Token) : Forall2 near_token toks toks.
Proof. induction toks; constructor; auto using near_token_refl. Qed.

(** C10: an expression that ends with quotes still open raises nothing in
    the tokenizer: the pending text, if there is any, is flushed as a last
    plain token at the end of the input.  The tokens are those of the
    expression with the outermost open quote symbol [q] added at its end
    (which closes every open quote), up to the position recorded for that
    last plain token; and [parse] has the same outcome on both: the same
    dictionary, or an exception of the same class, each showing its own
    expression, at the same offset or one further for the longer one.  So
    [parse] returns the value [xy] for the key [a] on the expression [a:]
    followed by a double quote and [xy]. *)
Theorem C10_unterminated_quote (s : string) (q : ascii) (rest : list ascii) :
  active_quotes (scan s) = q :: rest ->
  (exists tok tok',
      _tokenize_match_arg s = Return tok
      /\ token_seq tok
         = token_seq (scan s)
           ++ (if (current_item (scan s) =? "")%string then []
               else [(current_item (scan s), false, String.length s - 1)])
      /\ _tokenize_match_arg (s +s+ String q "") = Return tok'
      /\ token_seq tok'
         = token_seq (scan s)
           ++ (if (current_item (scan s) =? "")%string then []
               else [(current_item (scan s), false, String.length s)]))
  /\ outcome (parse s) = outcome (parse (s +s+ String q ""))
  /\ near_result eq s (s +s+ String q "") (parse s) (parse (s +s+ String q ""))
  /\ parse ("a:" +s+ String dquote "xy") = Return [("a", ["xy"])].
Proof.
  intros Hq. pose proof (open_quote_nonempty _ _ _ Hq) as Hs.
  assert (Hs' : s +s+ String q "" <> "").
  { destruct s; discriminate. }
  destruct (tokenize_total_on_nonempty _ Hs) as [tok Ht].
  destruct (tokenize_total_on_nonempty _ Hs') as [tok' Ht'].
  destruct (token_seq_tokenize _ _ Ht) as [_ Hseq].
  destruct (token_seq_tokenize _ _ Ht') as [_ Hseq'].
  rewrite (scan_close_outermost _ _ _ Hq) in Hseq'.
  simpl in Hseq'.
  change (token_seq
            (mkTokenizer (tokens (scan s)) (specials (scan s)) (indices (scan s))
               (current_item (scan s)) false [] (Some (String.length s))))
    with (token_seq (scan s)) in Hseq'.
  rewrite length_append in Hseq'. simpl in Hseq'.
  replace (String.length s + 1 - 1) with (String.length s) in Hseq' by lia.
  assert (Hnear : near_result eq s (s +s+ String q "")
                    (parse s) (parse (s +s+ String q ""))).
  { apply (parse_near _ _ _ _ Ht Ht'). rewrite Hseq, Hseq'.
    apply Forall2_app; [apply Forall2_near_refl|].
    destruct (current_item (scan s) =? "")%string; constructor;
      [|constructor].
    split; simpl; [reflexivity|].
    right. destruct s; [congruence | simpl; lia]. }
  split; [|split; [|split; [exact Hnear | reflexivity]]].
  - exists tok, tok'. repeat split; assumption.
  - exact (near_result_outcome _ _ _ _ Hnear).
Qed.

Lemma C10_unterminated_quote_witness :
  active_quotes (scan "a:'x,y") = [squote]
  /\ outcome (parse "a:'x,y") = outcome (parse ("a:'x,y" +s+ String squote "")).
Proof.
  split; [reflexivity|].
  exact (proj1 (proj2 (C10_unterminated_quote "a:'x,y" squote [] eq_refl))).
Defined.

(** ** Tokens of plain words and special characters *)

Lemma special_cases (c : ascii) :
  char_in_str c special_characters = true ->
  c = ":"%char \/ c = "["%char \/ c = "]"%char \/ c = ","%char.
Proof.
  unfold special_characters; simpl. rewrite orb_false_r.
  intros H. repeat (apply orb_prop in H; destruct H as [H | H]);
    apply Ascii.eqb_eq in H; tauto.
Qed.

Lemma special_not_quote (c : ascii) :
  char_in_str c special_characters = true ->
  char_in_list c quote_symbols = false.
Proof.
  intros H. destruct (special_cases _ H) as [-> | [-> | [-> | ->]]];
    reflexivity.
Qed.

Lemma loop_body_special (self : Tokenizer) (i : nat) (c : ascii) :
  escaped self = false -> active_quotes self = [] ->
  char_in_str c special_characters = true ->
  snd (loop_body self i c) = flush_special (set_idx self i) i c.
Proof.
  intros He Hq Hs. unfold loop_body, loop_body_with.
  change (escaped (set_idx self i)) with (escaped self).
  change (active_quotes (set_idx self i)) with (active_quotes self).
  now rewrite He, (special_not_quote _ Hs), Hq, Hs.
Qed.

Lemma loop_body_ordinary (self : Tokenizer) (i : nat) (c : ascii) :
  escaped self = false -> active_quotes self = [] ->
  ordinary c = true ->
  snd (loop_body self i c) = add_char (set_idx self i) c.
Proof.
  intros He Hq Ho. unfold ordinary in Ho.
  apply andb_prop in Ho. destruct Ho as [Ho Hb].
  apply andb_prop in Ho. destruct Ho as [Hs Hqs].
  apply negb_true_iff in Hs, Hqs, Hb.
  unfold loop_body, loop_body_with.
  change (escaped (set_idx self i)) with (escaped self).
  change (active_quotes (set_idx self i)) with (active_quotes self).
  now rewrite He, Hqs, Hq, Hs, Hb, (not_special_not_comma _ Hs).
Qed.

(** A run of ordinary characters is added to the pending text. *)
Lemma scan_word (w : string) : forall (self : Tokenizer) (i : nat),
  escaped self = false -> active_quotes self = [] ->
  all_ordinary w = true ->
  for_enumerate loop_body self i w
  = mkTokenizer (tokens self) (specials self) (indices self)
      (current_item self +s+ w) false []
      (match w with
       | EmptyString => idx self
       | String _ _ => Some (i + String.length w - 1)
       end).
Proof.
  induction w as [|c w IH]; intros self i He Hq Hw; simpl.
  - rewrite append_nil_r. destruct self; simpl in *. now subst.
  - simpl in Hw. apply andb_prop in Hw. destruct Hw as [Hc Hw].
    rewrite (loop_body_ordinary _ _ _ He Hq Hc).
    rewrite IH by assumption. simpl.
    rewrite append_assoc. simpl. f_equal.
    destruct w; simpl; f_equal; lia.
Qed.

(** A plain word followed by a special character gives two tokens, both
    tagged with the position of the special character. *)
Lemma scan_word_special (w : string) (c : ascii) (rest : string)
  (self : Tokenizer) (i : nat) :
  Ready self -> plain_word w = true ->
  char_in_str c special_characters = true ->
  exists self',
    for_enumerate loop_body self i (w +s+ String c rest)
    = for_enumerate loop_body self' (S (i + String.length w)) rest
    /\ Ready self'
    /\ idx self' = Some (i + String.length w)
    /\ token_seq self'
       = token_seq self
         ++ [(w, false, i + String.length w);
             (String c "", true, i + String.length w)].
Proof.
  intros [He Hq Hi L1 L2] Hw Hc.
  unfold plain_word in Hw. apply andb_prop in Hw. destruct Hw as [Hne Hw].
  apply negb_true_iff in Hne.
  rewrite for_enumerate_app, (scan_word _ _ _ He Hq Hw). simpl.
  rewrite Hi. simpl.
  set (st := mkTokenizer (tokens self) (specials self) (indices self) w
               false [] _).
  rewrite (loop_body_special st _ _ eq_refl eq_refl Hc).
  set (p := i + String.length w).
  exists (flush_special (set_idx st p) p c).
  destruct (flush_special_fields (set_idx st p) p c) as (F1 & F2 & F3 & F4).
  destruct (flush_special_lengths (set_idx st p) p c L1 L2) as [L3 L4].
  split; [reflexivity|].
  split; [constructor; auto|].
  split; [exact F4|].
  rewrite (token_seq_flush_special (set_idx st p) p c L1 L2).
  change (current_item (set_idx st p)) with w. rewrite Hne.
  reflexivity.
Qed.

(** A special character where no text is pending gives one token. *)
Lemma scan_special (c : ascii) (rest : string) (self : Tokenizer) (i : nat) :
  Ready self -> char_in_str c special_characters = true ->
  exists self',
    for_enumerate loop_body self i (String c rest)
    = for_enumerate loop_body self' (S i) rest
    /\ Ready self'
    /\ idx self' = Some i
    /\ token_seq self' = token_seq self ++ [(String c "", true, i)].
Proof.
  intros [He Hq Hi L1 L2] Hc. simpl.
  rewrite (loop_body_special _ _ _ He Hq Hc).
  exists (flush_special (set_idx self i) i c).
  destruct (flush_special_fields (set_idx self i) i c) as (F1 & F2 & F3 & F4).
  destruct (flush_special_lengths (set_idx self i) i c L1 L2) as [L3 L4].
  simpl in F2, F3.
  split; [reflexivity|].
  split; [constructor; auto; congruence|].
  split; [exact F4|].
  rewrite (token_seq_flush_special (set_idx self i) i c L1 L2).
  change (current_item (set_idx self i)) with (current_item self).
  rewrite Hi. reflexivity.
Qed.

Lemma scan_join (vs : list string) :
  forall (self : Tokenizer) (i : nat) (c : ascii) (rest : string),
  vs <> [] -> forallb plain_word vs = true ->
  Ready self -> char_in_str c special_characters = true ->
  exists self' j,
    for_enumerate loop_body self i (join "," vs +s+ String c rest)
    = for_enumerate loop_body self' j rest
    /\ Ready self'
    /\ map fst (token_seq self')
       = map fst (token_seq self) ++ list_lexemes vs ++ [(String c "", true)].
Proof.
  induction vs as [|v vs IH]; intros self i c rest Hne Hall Hready Hc;
    [congruence|].
  simpl in Hall. apply andb_prop in Hall. destruct Hall as [Hv Hall].
  destruct vs as [|v2 vs].
  - simpl.
    destruct (scan_word_special v c rest self i Hready Hv Hc)
      as (self' & Hrun & Hr & _ & Hseq).
    exists self', (S (i + String.length v)).
    split; [exact Hrun|]. split; [exact Hr|].
    rewrite Hseq, map_app. reflexivity.
  - change (join "," (v :: v2 :: vs))
      with (v +s+ "," +s+ join "," (v2 :: vs)).
    rewrite !append_assoc.
    change ("," +s+ join "," (v2 :: vs) +s+ String c rest)
      with (String ","%char (join "," (v2 :: vs) +s+ String c rest)).
    destruct (scan_word_special v ","%char
                (join "," (v2 :: vs) +s+ String c rest) self i Hready Hv
                eq_refl)
      as (self1 & Hrun1 & Hr1 & _ & Hseq1).
    destruct (IH self1 (S (i + String.length v)) c rest
                ltac:(discriminate) Hall Hr1 Hc)
      as (self' & j & Hrun & Hr & Hseq).
    exists self', j. split; [now rewrite Hrun1|]. split; [exact Hr|].
    rewrite Hseq, Hseq1, map_app, <- !app_assoc. reflexivity.
Qed.

Lemma Ready_init : Ready tokenizer_init.
Proof. constructor; reflexivity. Qed.

Lemma tokenize_ready (s : string) :
  s <> "" -> Ready (scan s) -> _tokenize_match_arg s = Return (scan s).
Proof.
  intros Hs Hr. rewrite tokenize_nonempty by assumption.
  unfold _flush_current_item. now rewrite (ready_item _ Hr).
Qed.

(** ** Parsing a list of values *)

Lemma map_fst_at_zero (lexemes : list (string * bool)) :
  map fst (at_zero lexemes) = lexemes.
Proof.
  unfold at_zero. rewrite map_map. simpl.
  induction lexemes as [|[t b] l IH]; simpl; [reflexivity | now rewrite IH].
Qed.

Lemma at_zero_app (l1 l2 : list (string * bool)) :
  at_zero (l1 ++ l2) = at_zero l1 ++ at_zero l2.
Proof. apply map_app. Qed.

Lemma parse_token_list_value (ms : string) (self : Parser) (v : string)
  (i : nat) :
  mode self = expecting_list_value ->
  parse_token ms self (v, false, i)
  = Return (set_mode (_flush_value (set_last_idx self i) v)
              expecting_list_comma).
Proof.
  intros Hm. unfold parse_token.
  change (mode (set_last_idx self i)) with (mode self). rewrite Hm.
  unfold is_special. now rewrite !andb_false_r.
Qed.

Lemma for_tokens_list_body (ms key : string) (vs : list string) :
  forall self : Parser,
  vs <> [] ->
  mode self = expecting_list_value ->
  current_key self = Some key ->
  for_tokens ms self (at_zero (list_lexemes vs ++ [("]", true)]))
  = Return (mkParser expecting_key_comma
              (merge_pair (out self) (key, current_value_list self ++ vs))
              None [] (current_value self) (Some 0)
              (merged self ++ [(key, current_value_list self ++ vs)])).
Proof.
  induction vs as [|v vs IH]; intros self Hne Hm Hk; [congruence|].
  destruct vs as [|v2 vs].
  - change (at_zero (list_lexemes [v] ++ [("]", true)]))
      with [(v, false, 0); ("]", true, 0)].
    rewrite for_tokens_cons, (parse_token_list_value _ _ _ _ Hm).
    simpl. rewrite (flush_key_value_some _ key) by exact Hk. reflexivity.
  - change (at_zero (list_lexemes (v :: v2 :: vs) ++ [("]", true)]))
      with ((v, false, 0) :: (",", true, 0)
            :: at_zero (list_lexemes (v2 :: vs) ++ [("]", true)])).
    rewrite for_tokens_cons, (parse_token_list_value _ _ _ _ Hm).
    unfold bind at 1. rewrite for_tokens_cons.
    change (parse_token ms
              (set_mode (_flush_value (set_last_idx self 0) v)
                 expecting_list_comma) (",", true, 0))
      with (Return (set_mode
                      (set_last_idx
                         (set_mode (_flush_value (set_last_idx self 0) v)
                            expecting_list_comma) 0)
                      expecting_list_value)).
    unfold bind at 1.
    rewrite (IH (set_mode
                   (set_last_idx
                      (set_mode (_flush_value (set_last_idx self 0) v)
                         expecting_list_comma) 0)
                   expecting_list_value)
               ltac:(discriminate) eq_refl Hk).
    simpl. now rewrite <- !app_assoc.
Qed.

Lemma run_parser_list (ms key : string) (vs : list string) :
  vs <> [] ->
  exists self,
    run_parser ms
      (at_zero ([(key, false); (":", true); ("[", true)]
                ++ list_lexemes vs ++ [("]", true)]))
    = Return self
    /\ out self = [(key, vs)].
Proof.
  intros Hne. unfold run_parser. rewrite at_zero_app, for_tokens_app.
  change (for_tokens ms parser_init
            (at_zero [(key, false); (":", true); ("[", true)]))
    with (Return (mkParser expecting_list_value [] (Some key) [] "" (Some 0) [])).
  unfold bind at 2.
  rewrite (for_tokens_list_body ms key vs
             (mkParser expecting_list_value [] (Some key) [] "" (Some 0) [])
             Hne eq_refl eq_refl).
  eexists. split; reflexivity.
Qed.

Lemma plain_word_nonempty (w rest : string) :
  plain_word w = true -> w +s+ rest <> "".
Proof. destruct w; [discriminate | intros _; discriminate]. Qed.

(** C6: for a key and values [v1], ..., [vn] written as plain words,
    [parse] returns on [key:[v1,...,vn]] with n >= 1 the dictionary that
    maps the key to the values in the order of the list, and nothing else;
    on [key:[]] (n = 0) it raises [EmptyListError], at the closing
    bracket. *)
Theorem C6_list_of_values (key : string) (vs : list string) :
  plain_word key = true ->
  forallb plain_word vs = true ->
  parse (list_expression key vs)
  = match vs with
    | [] => Raise (ShowSourceOfError EmptyListError (String.length key + 2)
                     (list_expression key []))
    | _ :: _ => Return [(key, vs)]
    end.
Proof.
  intros Hkey Hvs.
  assert (Hs : list_expression key vs <> "") by now apply plain_word_nonempty.
  assert (E : list_expression key vs
              = key +s+ String ":"%char
                        (String "["%char (join "," vs +s+ String "]"%char "")))
    by reflexivity.
  destruct (scan_word_special key ":"%char
              (String "["%char (join "," vs +s+ String "]"%char ""))
              tokenizer_init 0 Ready_init Hkey eq_refl)
    as (self1 & Hrun1 & Hr1 & _ & Hseq1).
  destruct (scan_special "["%char (join "," vs +s+ String "]"%char "")
              self1 (S (0 + String.length key)) Hr1 eq_refl)
    as (self2 & Hrun2 & Hr2 & _ & Hseq2).
  destruct vs as [|v vs].
  - destruct (scan_special "]"%char "" self2 (S (S (0 + String.length key)))
                Hr2 eq_refl)
      as (self3 & Hrun3 & Hr3 & _ & Hseq3).
    assert (Hscan : scan (list_expression key []) = self3).
    { unfold scan. rewrite E, Hrun1, Hrun2. exact Hrun3. }
    unfold parse. rewrite (tokenize_ready _ Hs) by now rewrite Hscan.
    rewrite Hscan. unfold bind, _create_dictionary.
    rewrite Hseq3, Hseq2, Hseq1. simpl.
    do 2 f_equal. lia.
  - destruct (scan_join (v :: vs) self2 (S (S (0 + String.length key)))
                "]"%char "" ltac:(discriminate) Hvs Hr2 eq_refl)
      as (self3 & j & Hrun3 & Hr3 & Hseq3).
    assert (Hscan : scan (list_expression key (v :: vs)) = self3).
    { unfold scan. rewrite E, Hrun1, Hrun2. exact Hrun3. }
    unfold parse. rewrite (tokenize_ready _ Hs) by now rewrite Hscan.
    rewrite Hscan. unfold bind at 1. unfold _create_dictionary.
    destruct (run_parser_list (list_expression key (v :: vs)) key (v :: vs)
                ltac:(discriminate))
      as (self' & Hrun & Hout).
    pose proof (run_parser_same_lexemes
                  (list_expression key (v :: vs)) (list_expression key (v :: vs))
                  (token_seq self3)
                  (at_zero ([(key, false); (":", true); ("[", true)]
                            ++ list_lexemes (v :: vs) ++ [("]", true)])))
      as Hsame.
    rewrite map_fst_at_zero, Hseq3, Hseq2, Hseq1 in Hsame.
    specialize (Hsame eq_refl). rewrite Hrun in Hsame.
    destruct (run_parser (list_expression key (v :: vs)) (token_seq self3))
      as [a|e]; simpl in Hsame; [|contradiction].
    destruct Hsame as (_ & Ho & _). simpl. now rewrite Ho, Hout.
Qed.

Lemma C6_list_of_values_witness :
  plain_word "camera" = true
  /\ forallb plain_word ["SV"; "TV"; "NIR"] = true
  /\ parse (list_expression "camera" ["SV"; "TV"; "NIR"])
     = Return [("camera", ["SV"; "TV"; "NIR"])].
Proof.
  split; [reflexivity|]. split; [reflexivity|].
  apply (C6_list_of_values "camera" ["SV"; "TV"; "NIR"]); reflexivity.
Defined.

(** ** Parsing expressions written from filters *)

Lemma well_formed_single (k v : string) :
  well_formed (Single k v) = true ->
  plain_word k = true /\ plain_word v = true.
Proof. simpl. intros H. now apply andb_prop in H. Qed.

Lemma well_formed_listed (k : string) (vs : list string) :
  well_formed (Listed k vs) = true ->
  plain_word k = true /\ forallb plain_word vs = true /\ vs <> [].
Proof.
  simpl. intros H. apply andb_prop in H. destruct H as [H Hn].
  apply andb_prop in H. destruct H as [Hk Hvs].
  repeat split; auto. intros ->. discriminate.
Qed.

(** The tokens of a filter that a special character follows. *)
Lemma scan_filter_special (f : Filter) (c : ascii) (rest : string)
  (self : Tokenizer) (i : nat) :
  Ready self -> well_formed f = true ->
  char_in_str c special_characters = true ->
  exists self' j,
    for_enumerate loop_body self i (render_filter f +s+ String c rest)
    = for_enumerate loop_body self' j rest
    /\ Ready self'
    /\ map fst (token_seq self')
       = map fst (token_seq self) ++ filter_lexemes f ++ [(String c "", true)].
Proof.
  intros Hr Hwf Hc. destruct f as [k v | k vs].
  - destruct (well_formed_single _ _ Hwf) as [Hk Hv].
    assert (E : render_filter (Single k v) +s+ String c rest
                = k +s+ String ":"%char (v +s+ String c rest)).
    { simpl. now rewrite !append_assoc. }
    rewrite E.
    destruct (scan_word_special k ":"%char (v +s+ String c rest) self i
                Hr Hk eq_refl)
      as (self1 & Hrun1 & Hr1 & _ & Hseq1).
    destruct (scan_word_special v c rest self1 (S (i + String.length k))
                Hr1 Hv Hc)
      as (self2 & Hrun2 & Hr2 & _ & Hseq2).
    eexists self2, _. split; [now rewrite Hrun1, Hrun2|].
    split; [exact Hr2|].
    rewrite Hseq2, Hseq1, !map_app, <- !app_assoc. reflexivity.
  - destruct (well_formed_listed _ _ Hwf) as (Hk & Hvs & Hne).
    assert (E : render_filter (Listed k vs) +s+ String c rest
                = k +s+ String ":"%char
                    (String "["%char
                       (join "," vs +s+ String "]"%char (String c rest)))).
    { simpl. unfold list_expression. now rewrite !append_assoc. }
    rewrite E.
    destruct (scan_word_special k ":"%char
                (String "["%char
                   (join "," vs +s+ String "]"%char (String c rest)))
                self i Hr Hk eq_refl)
      as (self1 & Hrun1 & Hr1 & _ & Hseq1).
    destruct (scan_special "["%char
                (join "," vs +s+ String "]"%char (String c rest))
                self1 (S (i + String.length k)) Hr1 eq_refl)
      as (self2 & Hrun2 & Hr2 & _ & Hseq2).
    destruct (scan_join vs self2 (S (S (i + String.length k))) "]"%char
                (String c rest) Hne Hvs Hr2 eq_refl)
      as (self3 & j & Hrun3 & Hr3 & Hseq3).
    destruct (scan_special c rest self3 j Hr3 Hc)
      as (self4 & Hrun4 & Hr4 & _ & Hseq4).
    eexists self4, _. split; [now rewrite Hrun1, Hrun2, Hrun3, Hrun4|].
    split; [exact Hr4|].
    rewrite Hseq4, map_app, Hseq3, Hseq2, map_app, Hseq1, map_app.
    simpl. rewrite <- !app_assoc. reflexivity.
Qed.

(** The tokens of a filter at the end of the input, after the last flush. *)
Lemma scan_filter_end (f : Filter) (self : Tokenizer) (i p : nat) :
  Ready self -> well_formed f = true ->
  map fst (token_seq
             (_flush_current_item
                (for_enumerate loop_body self i (render_filter f)) false p))
  = map fst (token_seq self) ++ filter_lexemes f.
Proof.
  intros Hr Hwf. destruct f as [k v | k vs].
  - destruct (well_formed_single _ _ Hwf) as [Hk Hv].
    assert (E : render_filter (Single k v) = k +s+ String ":"%char v)
      by reflexivity.
    rewrite E.
    destruct (scan_word_special k ":"%char v self i Hr Hk eq_refl)
      as (self1 & Hrun1 & [He1 Hq1 Hi1 L1 L2] & _ & Hseq1).
    rewrite Hrun1.
    unfold plain_word in Hv. apply andb_prop in Hv. destruct Hv as [Hne Hv].
    apply negb_true_iff in Hne.
    rewrite (scan_word _ _ _ He1 Hq1 Hv), Hi1.
    rewrite token_seq_flush by assumption. simpl current_item.
    change (token_seq (mkTokenizer (tokens self1) (specials self1)
                         (indices self1) ("" +s+ v) false [] _))
      with (token_seq self1).
    change ("" +s+ v) with v. rewrite Hne, Hseq1, !map_app, <- app_assoc.
    reflexivity.
  - destruct (well_formed_listed _ _ Hwf) as (Hk & Hvs & Hne).
    assert (E : render_filter (Listed k vs)
                = k +s+ String ":"%char
                    (String "["%char (join "," vs +s+ String "]"%char "")))
      by reflexivity.
    rewrite E.
    destruct (scan_word_special k ":"%char
                (String "["%char (join "," vs +s+ String "]"%char ""))
                self i Hr Hk eq_refl)
      as (self1 & Hrun1 & Hr1 & _ & Hseq1).
    destruct (scan_special "["%char (join "," vs +s+ String "]"%char "")
                self1 (S (i + String.length k)) Hr1 eq_refl)
      as (self2 & Hrun2 & Hr2 & _ & Hseq2).
    destruct (scan_join vs self2 (S (S (i + String.length k))) "]"%char
                "" Hne Hvs Hr2 eq_refl)
      as (self3 & j & Hrun3 & Hr3 & Hseq3).
    rewrite Hrun1, Hrun2, Hrun3. simpl for_enumerate.
    unfold _flush_current_item. rewrite (ready_item _ Hr3). simpl.
    rewrite Hseq3, Hseq2, map_app, Hseq1, map_app.
    simpl. rewrite <- !app_assoc. reflexivity.
Qed.

Lemma scan_expression (fs : list Filter) :
  forall (self : Tokenizer) (i p : nat),
  fs <> [] -> forallb well_formed fs = true -> Ready self ->
  map fst (token_seq
             (_flush_current_item
                (for_enumerate loop_body self i (expression fs)) false p))
  = map fst (token_seq self) ++ expression_lexemes fs.
Proof.
  induction fs as [|f fs IH]; intros self i p Hne Hwf Hr; [congruence|].
  simpl in Hwf. apply andb_prop in Hwf. destruct Hwf as [Hf Hwf].
  destruct fs as [|f2 fs].
  - apply scan_filter_end; assumption.
  - change (expression (f :: f2 :: fs))
      with (render_filter f +s+ String ","%char (expression (f2 :: fs))).
    destruct (scan_filter_special f ","%char (expression (f2 :: fs)) self i
                Hr Hf eq_refl)
      as (self1 & j & Hrun1 & Hr1 & Hseq1).
    rewrite Hrun1, (IH self1 j p ltac:(discriminate) Hwf Hr1), Hseq1.
    change (expression_lexemes (f :: f2 :: fs))
      with (filter_lexemes f ++ (",", true) :: expression_lexemes (f2 :: fs)).
    rewrite <- !app_assoc. reflexivity.
Qed.

Lemma expression_nonempty (fs : list Filter) :
  fs <> [] -> forallb well_formed fs = true -> expression fs <> "".
Proof.
  destruct fs as [|f fs]; [congruence|]. intros _ Hwf.
  simpl in Hwf. apply andb_prop in Hwf. destruct Hwf as [Hf _].
  assert (Hk : exists k rest, render_filter f = k +s+ rest
                              /\ plain_word k = true).
  { destruct f as [k v | k vs].
    - exists k, (":" +s+ v). split; [reflexivity|].
      now destruct (well_formed_single _ _ Hf).
    - exists k, (":[" +s+ join "," vs +s+ "]"). split; [reflexivity|].
      now destruct (well_formed_listed _ _ Hf). }
  destruct Hk as (k & rest & E & Hk).
  unfold expression. destruct fs as [|f2 fs]; simpl; rewrite E.
  - now apply plain_word_nonempty.
  - rewrite append_assoc. now apply plain_word_nonempty.
Qed.

Lemma tokenize_expression (fs : list Filter) :
  fs <> [] -> forallb well_formed fs = true ->
  exists tok,
    _tokenize_match_arg (expression fs) = Return tok
    /\ map fst (token_seq tok) = expression_lexemes fs.
Proof.
  intros Hne Hwf.
  rewrite (tokenize_nonempty _ (expression_nonempty _ Hne Hwf)).
  eexists. split; [reflexivity|].
  unfold scan. now rewrite (scan_expression fs _ _ _ Hne Hwf Ready_init).
Qed.

Lemma for_tokens_filter (ms : string) (f : Filter) (self : Parser) :
  well_formed f = true ->
  mode self = expecting_key ->
  current_value_list self = [] ->
  for_tokens ms self (at_zero (filter_lexemes f))
  = Return (mkParser expecting_key_comma
              (merge_pair (out self) (filter_pair f))
              None [] (current_value self) (Some 0)
              (merged self ++ [filter_pair f])).
Proof.
  intros Hwf Hm Hv. destruct self as [m o k vl cv li mg].
  simpl in Hm, Hv. subst m vl. destruct f as [key v | key vs].
  - change (at_zero (filter_lexemes (Single key v)))
      with [(key, false, 0); (":", true, 0); (v, false, 0)].
    do 2 (rewrite for_tokens_cons; simpl (parse_token _ _ _); unfold bind).
    rewrite for_tokens_cons. unfold parse_token, is_special. simpl.
    rewrite andb_false_r. reflexivity.
  - destruct (well_formed_listed _ _ Hwf) as (_ & _ & Hne).
    change (at_zero (filter_lexemes (Listed key vs)))
      with ((key, false, 0) :: (":", true, 0) :: ("[", true, 0)
            :: at_zero (list_lexemes vs ++ [("]", true)])).
    do 3 (rewrite for_tokens_cons; simpl (parse_token _ _ _); unfold bind).
    rewrite (for_tokens_list_body ms key vs);
      [reflexivity | exact Hne | reflexivity | reflexivity].
Qed.

Lemma for_tokens_expression (ms : string) (fs : list Filter) :
  forall self : Parser,
  fs <> [] -> forallb well_formed fs = true ->
  mode self = expecting_key ->
  current_value_list self = [] ->
  for_tokens ms self (at_zero (expression_lexemes fs))
  = Return (mkParser expecting_key_comma
              (fold_left merge_pair (map filter_pair fs) (out self))
              None [] (current_value self) (Some 0)
              (merged self ++ map filter_pair fs)).
Proof.
  induction fs as [|f fs IH]; intros self Hne Hwf Hm Hv; [congruence|].
  simpl in Hwf. apply andb_prop in Hwf. destruct Hwf as [Hf Hwf].
  destruct fs as [|f2 fs].
  - now apply for_tokens_filter.
  - change (expression_lexemes (f :: f2 :: fs))
      with (filter_lexemes f ++ (",", true) :: expression_lexemes (f2 :: fs)).
    rewrite at_zero_app, for_tokens_app, (for_tokens_filter ms f self Hf Hm Hv).
    unfold bind at 1.
    change (at_zero ((",", true) :: expression_lexemes (f2 :: fs)))
      with ((",", true, 0) :: at_zero (expression_lexemes (f2 :: fs))).
    rewrite for_tokens_cons. simpl (parse_token _ _ _). unfold bind at 1.
    rewrite IH; [| discriminate | exact Hwf | reflexivity | reflexivity].
    simpl. now rewrite <- app_assoc.
Qed.

(** An expression written from filters parses to the merge of its filters,
    and its occurrences are its filters. *)
Lemma parse_expression (fs : list Filter) :
  fs <> [] -> forallb well_formed fs = true ->
  parse (expression fs) = Return (fold_left merge_pair (map filter_pair fs) [])
  /\ occurrences (expression fs) = map filter_pair fs.
Proof.
  intros Hne Hwf.
  destruct (tokenize_expression fs Hne Hwf) as (tok & Htok & Hlex).
  pose proof (run_parser_same_lexemes (expression fs) (expression fs)
                (token_seq tok) (at_zero (expression_lexemes fs))) as Hsame.
  rewrite map_fst_at_zero in Hsame. specialize (Hsame Hlex).
  unfold run_parser at 2 in Hsame.
  rewrite (for_tokens_expression (expression fs) fs parser_init Hne Hwf
             eq_refl eq_refl) in Hsame.
  unfold parse, occurrences, _create_dictionary. rewrite Htok.
  unfold bind.
  destruct (run_parser (expression fs) (token_seq tok)) as [a|e];
    simpl in Hsame; [|contradiction].
  destruct Hsame as (_ & Ho & _ & _ & Hmg & _).
  now rewrite Ho, Hmg.
Qed.

(** C5: when [parse] returns a dictionary, every key that occurs at least
    once in the expression is mapped to the concatenation, in the order of
    the expression, of the values of its occurrences (a later occurrence
    appends to the values of the earlier ones, it does not replace them).
    For an expression written as filters [key:value] and
    [key:[v1,...,vn]] of plain words joined by commas, the occurrences are
    these filters, and [parse] returns.  So [parse] maps [a] to the values
    [1] and [2] on [a:1,a:2]. *)
Theorem C5_repeated_keys_concatenate :
  (forall (s : string) (d : FilterMap) (k : string),
      parse s = Return d ->
      1 <= List.length (occurrences_of k (occurrences s)) ->
      dict_get k d = Some (values_of k (occurrences s)))
  /\ (forall (fs : list Filter) (k : string),
         fs <> [] -> forallb well_formed fs = true ->
         1 <= List.length (occurrences_of k (map filter_pair fs)) ->
         exists d,
           parse (expression fs) = Return d
           /\ dict_get k d = Some (values_of k (map filter_pair fs)))
  /\ parse "a:1,a:2" = Return [("a", ["1"; "2"])].
Proof.
  assert (General : forall s d k,
             parse s = Return d ->
             1 <= List.length (occurrences_of k (occurrences s)) ->
             dict_get k d = Some (values_of k (occurrences s))).
  { intros s d k H Hn. rewrite (parse_merges_occurrences _ _ H).
    rewrite dict_get_fold_merge. simpl.
    destruct (occurrences_of k (occurrences s));
      [simpl in Hn; lia | reflexivity]. }
  split; [exact General|]. split; [|reflexivity].
  intros fs k Hne Hwf Hn.
  destruct (parse_expression fs Hne Hwf) as [Hp Ho].
  eexists. split; [exact Hp|].
  pose proof (General _ _ k Hp) as Hg. rewrite Ho in Hg. now apply Hg.
Qed.

Lemma C5_repeated_keys_witness :
  (dict_get "a" [("a", ["1"; "2"; "5"]); ("b", ["3"; "4"])]
   = Some (values_of "a" (occurrences "a:1,b:[3,4],a:[2,5]")))
  /\ exists d,
       parse (expression [Single "a" "1"; Listed "b" ["3"; "4"];
                          Listed "a" ["2"; "5"]]) = Return d
       /\ dict_get "a" d
          = Some (values_of "a"
                    (map filter_pair [Single "a" "1"; Listed "b" ["3"; "4"];
                                      Listed "a" ["2"; "5"]])).
Proof.
  split.
  - apply (proj1 C5_repeated_keys_concatenate "a:1,b:[3,4],a:[2,5]").
    + reflexivity.
    + vm_compute. lia.
  - apply (proj1 (proj2 C5_repeated_keys_concatenate)
             [Single "a" "1"; Listed "b" ["3"; "4"]; Listed "a" ["2"; "5"]]).
    + discriminate.
    + reflexivity.
    + vm_compute. lia.
Defined.

(** ** The expressions of the documentation, evaluated *)

Example parse_key_value :
  parse "id:1,camera:[A,B]" = Return [("id", ["1"]); ("camera", ["A"; "B"])].
Proof. reflexivity. Qed.

Example parse_quoted_comma :
  parse "a:'x,y'" = Return [("a", ["x,y"])].
Proof. reflexivity. Qed.

Example parse_escaped_comma :
  parse "a:x\,y" = Return [("a", ["x,y"])].
Proof. reflexivity. Qed.

Example parse_missing_colon :
  parse "a,b:1" = Raise (ShowSourceOfError MissingColonError 1 "a,b:1").
Proof. reflexivity. Qed.

Example parse_missing_value :
  parse "a:" = Raise (ShowSourceOfError EmptyValueError 2 "a:").
Proof. reflexivity. Qed.

Example parse_trailing_comma :
  parse "camera:id," = Raise (ShowSourceOfError EmptyKeyError 10 "camera:id,").
Proof. reflexivity. Qed.

Example parse_dangling_key :
  parse "id:[001,002],camera:SV,timestamp"
  = Raise (ShowSourceOfError IncompleteKeyValuePairError 32
             "id:[001,002],camera:SV,timestamp").
Proof. reflexivity. Qed.

Example parse_unterminated_list :
  parse "key:[1,2" = Return [("key", ["1"; "2"])].
Proof. reflexivity. Qed.

Example parse_only_quotes_raises_unbound :
  parse "''" = Raise (UnboundLocalError "idx").
Proof. reflexivity. Qed.

Example error_text_missing_colon :
  exception_text (ShowSourceOfError MissingColonError 1 "a,b:1")
  = "Missing colon" +s+ newline +s+ "a,b:1" +s+ newline +s+ " ^".
Proof. reflexivity. Qed.

(** ** Every token is well formed *)

Lemma token_ok_mono (s s' : string) (t : Token) :
  token_ok s t -> token_ok (s +s+ s') t.
Proof.
  intros (Hp & Ht & Hs). split; [|split].
  - rewrite length_append. lia.
  - exact Ht.
  - intros Hsp. destruct (Hs Hsp) as (c & E & Hg & Hc).
    exists c. repeat split; auto.
    rewrite <- Hg. symmetry. now apply append_correct1.
Qed.

Lemma get_snoc (s : string) (c : ascii) :
  String.get (String.length s) (s +s+ String c "") = Some c.
Proof.
  pose proof (append_correct2 s (String c "") 0) as H.
  simpl in H. now rewrite <- H.
Qed.

(** The tokens that one iteration adds: all at the position of the
    character read, none empty, a special one being that character. *)
Lemma loop_body_tokens (self : Tokenizer) (i : nat) (c : ascii) :
  List.length (tokens self) = List.length (specials self) ->
  List.length (specials self) = List.length (indices self) ->
  exists extra,
    token_seq (snd (loop_body self i c)) = token_seq self ++ extra
    /\ Forall (fun t => token_position t = i
                        /\ token_text t <> ""
                        /\ (token_special t = true ->
                            token_text t = String c ""
                            /\ char_in_str c special_characters = true))
         extra.
Proof.
  intros L1 L2. unfold loop_body, loop_body_with.
  change (escaped (set_idx self i)) with (escaped self).
  change (active_quotes (set_idx self i)) with (active_quotes self).
  destruct (escaped self).
  { exists []. rewrite app_nil_r. split; [reflexivity | constructor]. }
  destruct (char_in_list c quote_symbols).
  { exists []. rewrite app_nil_r. split; [|constructor].
    destruct (list_index c (active_quotes self)) as [n|]; simpl;
      [destruct (negb (n =? 0)%nat)|]; reflexivity. }
  destruct (List.length (active_quotes self) =? 0)%nat.
  2:{ exists []. rewrite app_nil_r. split; [reflexivity | constructor]. }
  destruct (char_in_str c special_characters) eqn:Hs.
  { simpl. rewrite (token_seq_flush_special (set_idx self i) i c L1 L2).
    change (token_seq (set_idx self i)) with (token_seq self).
    change (current_item (set_idx self i)) with (current_item self).
    eexists. split; [reflexivity|].
    destruct (current_item self =? "")%string eqn:E; simpl.
    - constructor; [|constructor]. unfold token_position, token_text,
        token_special; simpl. repeat split; auto; discriminate.
    - apply String.eqb_neq in E.
      constructor; [|constructor; [|constructor]];
        unfold token_position, token_text, token_special; simpl;
        repeat split; auto; discriminate. }
  destruct (Ascii.eqb c backslash).
  { exists []. rewrite app_nil_r. split; [reflexivity | constructor]. }
  rewrite (not_special_not_comma _ Hs).
  exists []. rewrite app_nil_r. split; [reflexivity | constructor].
Qed.

Lemma token_ok_scan (s : string) : Forall (token_ok s) (token_seq (scan s)).
Proof.
  pattern s. apply string_rev_ind; clear s.
  - constructor.
  - intros s c IH. rewrite scan_snoc.
    destruct (loop_body_tokens (scan s) (String.length s) c
                (inv_len_specials _ (TInv_scan s))
                (inv_len_indices _ (TInv_scan s)))
      as (extra & -> & Hextra).
    apply Forall_app. split.
    + eapply Forall_impl; [|exact IH]. intros t. apply token_ok_mono.
    + eapply Forall_impl; [|exact Hextra].
      intros t (Hp & Ht & Hsp). split; [|split].
      * rewrite Hp, length_append. simpl. lia.
      * exact Ht.
      * intros H. destruct (Hsp H) as [E Hc]. exists c.
        rewrite Hp. repeat split; auto. apply get_snoc.
Qed.

Lemma token_ok_tokenize (s : string) (tok : Tokenizer) :
  _tokenize_match_arg s = Return tok -> Forall (token_ok s) (token_seq tok).
Proof.
  intros E. destruct (token_seq_tokenize _ _ E) as [Hs ->].
  apply Forall_app. split; [apply token_ok_scan|].
  destruct (current_item (scan s) =? "")%string eqn:Hc; constructor;
    [|constructor].
  apply String.eqb_neq in Hc.
  unfold token_ok, token_position, token_text, token_special; simpl.
  split; [|split; [exact Hc | discriminate]].
  destruct s; [congruence | simpl; lia].
Qed.











(** ** What [parse] raises, and where *)

(** An exception raised inside the loop is a [ShowSourceOfError] at the
    position of the token read, of a kind of the loop; the kinds
    [MissingColonError], [UnexpectedSpecialCharacterError] and
    [EmptyListError] are raised on special tokens only. *)
Lemma parse_token_raise (ms : string) (self : Parser) (t : Token)
  (e : Exception) :
  parse_token ms self t = Raise e ->
  exists k,
    e = ShowSourceOfError k (token_position t) ms
    /\ loop_kind k = true
    /\ (special_token_kind k = true ->
        token_special t = true
        /\ (k = EmptyListError -> token_text t = "]")
        /\ (k = MissingColonError -> token_text t <> ":")).
Proof.
  destruct t as [[token special] i].
  unfold parse_token, raise, is_special, token_position, token_special,
    token_text.
  change (mode (set_last_idx self i)) with (mode self). simpl.
  destruct (mode self); destruct special; simpl;
    rewrite ?andb_true_r, ?andb_false_r;
    repeat match goal with
           | |- context [if ?b then _ else _] => destruct b eqn:?
           end;
    intros H; inversion H; subst; clear H;
    eexists; (split; [reflexivity|]); (split; [reflexivity|]);
    simpl; intros Hk; try discriminate;
    (split; [reflexivity|]); split; intros Hk'; try discriminate;
    match goal with
    | E : (token =? _)%string = true |- _ => now apply String.eqb_eq in E
    | E : (token =? _)%string = false |- _ => now apply String.eqb_neq in E
    end.
Qed.

Lemma parse_token_last_idx (ms : string) (self self' : Parser) (t : Token) :
  parse_token ms self t = Return self' ->
  last_idx self' = Some (token_position t).
Proof.
  destruct t as [[token special] i].
  unfold parse_token, raise, token_position.
  change (mode (set_last_idx self i)) with (mode self). simpl.
  destruct (mode self);
    repeat match goal with
           | |- context [if ?b then _ else _] => destruct b eqn:?
           end;
    intros H; inversion H; subst; clear H; try reflexivity;
    unfold _flush_key_value; simpl;
    destruct (current_key self); reflexivity.
Qed.

Lemma for_tokens_raise (ms : string) (toks : list Token) :
  forall (self : Parser) (e : Exception),
  for_tokens ms self toks = Raise e ->
  exists t k,
    In t toks
    /\ e = ShowSourceOfError k (token_position t) ms
    /\ loop_kind k = true
    /\ (special_token_kind k = true ->
        token_special t = true
        /\ (k = EmptyListError -> token_text t = "]")
        /\ (k = MissingColonError -> token_text t <> ":")).
Proof.
  induction toks as [|t toks IH]; intros self e; [discriminate|].
  rewrite for_tokens_cons.
  destruct (parse_token ms self t) as [self1|e1] eqn:E; unfold bind.
  - intros H. destruct (IH _ _ H) as (t' & k & Hin & Hrest).
    exists t', k. split; [now right | exact Hrest].
  - intros H; injection H as <-.
    destruct (parse_token_raise _ _ _ _ E) as (k & Hrest).
    exists t, k. split; [now left | exact Hrest].
Qed.

Lemma for_tokens_last_idx (ms : string) (toks : list Token) :
  forall self self' : Parser,
  for_tokens ms self toks = Return self' ->
  last_idx self' = last_position toks (last_idx self).
Proof.
  unfold last_position.
  induction toks as [|t toks IH]; intros self self'.
  - intros H; injection H as <-. reflexivity.
  - rewrite for_tokens_cons.
    destruct (parse_token ms self t) as [self1|e1] eqn:E; unfold bind;
      [|discriminate].
    intros H. rewrite (IH _ _ H). simpl.
    now rewrite (parse_token_last_idx _ _ _ _ E).
Qed.

Lemma last_position_cases (toks : list Token) (d : option nat) :
  (toks = [] /\ last_position toks d = d)
  \/ exists t, In t toks /\ last_position toks d = Some (token_position t).
Proof.
  unfold last_position. revert d.
  induction toks as [|t toks IH]; intros d; [left; auto|].
  right. simpl. destruct (IH (Some (token_position t))) as [[-> E] | (t' & Hin & E)].
  - exists t. split; [now left | exact E].
  - exists t'. split; [now right | exact E].
Qed.

Lemma end_of_input_raise (ms : string) (self : Parser) (e : Exception) :
  end_of_input ms self = Raise e ->
  (last_idx self = None /\ e = UnboundLocalError "idx")
  \/ exists i k, last_idx self = Some i
                 /\ e = ShowSourceOfError k (i + 1) ms
                 /\ end_kind k = true.
Proof.
  unfold end_of_input, read_idx, raise.
  destruct (mode self); destruct (last_idx self) as [i|]; simpl;
    intros H; inversion H; subst;
    first [ left; split; reflexivity
          | right; eexists _, _; repeat split; reflexivity ].
Qed.

(** The ways in which [parse] can raise. *)
Lemma parse_raise (s : string) (e : Exception) :
  parse s = Raise e ->
  (s = "" /\ e = UnboundLocalError "idx")
  \/ exists tok,
       _tokenize_match_arg s = Return tok
       /\ (for_tokens s parser_init (token_seq tok) = Raise e
           \/ exists self,
                for_tokens s parser_init (token_seq tok) = Return self
                /\ end_of_input s self = Raise e).
Proof.
  unfold parse, _create_dictionary, run_parser.
  destruct (_tokenize_match_arg s) as [tok|e0] eqn:Ht; unfold bind at 1.
  - intros H. right. exists tok. split; [reflexivity|].
    destruct (for_tokens s parser_init (token_seq tok)) as [self|e1];
      unfold bind at 2 in H.
    + right. exists self. split; [reflexivity|].
      destruct (end_of_input s self) as [a|e2]; unfold bind in H;
        [discriminate | congruence].
    + left. unfold bind in H. congruence.
  - intros H; injection H as <-. left.
    destruct (String.string_dec s "") as [-> | Hne].
    + split; [reflexivity|]. now injection Ht as <-.
    + rewrite tokenize_nonempty in Ht by assumption. discriminate.
Qed.

(** X2: [parse] never raises [KeyValuePairInListError], for any input: the
    class is declared but nothing raises it (a colon inside a list raises
    [UnexpectedSpecialCharacterError] or [OnlyCommaValidError]). *)
Theorem X2_never_key_value_pair_in_list (s : string) (i : nat) (src : string) :
  parse s <> Raise (ShowSourceOfError KeyValuePairInListError i src).
Proof.
  intros H. destruct (parse_raise _ _ H) as [[_ E] | (tok & _ & [Hr | (self & _ & Hr)])].
  - discriminate.
  - destruct (for_tokens_raise _ _ _ _ Hr) as (t & k & _ & E & Hk & _).
    injection E as <- _ _. discriminate.
  - destruct (end_of_input_raise _ _ _ Hr) as [[_ E] | (j & k & _ & E & Hk)].
    + discriminate.
    + injection E as <- _ _. discriminate.
Qed.

(** X3: a [ShowSourceOfError] raised by [parse] shows the expression that
    was parsed, and its offset is at most the length of that expression:
    the caret of the message is under a character of the expression or
    right after its last one. *)
Theorem X3_error_offset_in_bounds
  (s : string) (k : ErrorKind) (i : nat) (src : string) :
  parse s = Raise (ShowSourceOfError k i src) ->
  src = s /\ i <= String.length s.
Proof.
  intros H.
  destruct (parse_raise _ _ H) as [[_ E] | (tok & Ht & [Hr | (self & Hrun & Hr)])].
  - discriminate.
  - destruct (for_tokens_raise _ _ _ _ Hr) as (t & k' & Hin & E & _).
    injection E as -> -> ->. split; [reflexivity|].
    pose proof (token_ok_tokenize _ _ Ht) as Hok.
    rewrite Forall_forall in Hok. destruct (Hok _ Hin) as [Hp _]. lia.
  - destruct (end_of_input_raise _ _ _ Hr) as [[_ E] | (j & k' & Hj & E & _)];
      [discriminate|].
    injection E as -> -> ->. split; [reflexivity|].
    rewrite (for_tokens_last_idx _ _ _ _ Hrun) in Hj. simpl in Hj.
    destruct (last_position_cases (token_seq tok) None)
      as [[_ E] | (t & Hin & E)]; rewrite E in Hj; [discriminate|].
    injection Hj as <-.
    pose proof (token_ok_tokenize _ _ Ht) as Hok.
    rewrite Forall_forall in Hok. destruct (Hok _ Hin) as [Hp _]. lia.
Qed.

Lemma X3_error_offset_witness :
  parse "a:[1,]" = Raise (ShowSourceOfError EmptyValueError 5 "a:[1,]")
  /\ "a:[1,]" = "a:[1,]" /\ 5 <= String.length "a:[1,]".
Proof.
  split; [reflexivity|].
  apply (X3_error_offset_in_bounds "a:[1,]" EmptyValueError 5 "a:[1,]").
  reflexivity.
Defined.

(** X4: when [parse] raises [MissingColonError],
    [UnexpectedSpecialCharacterError] or [EmptyListError], the offset of the
    error is the position of a special character of the expression: the
    closing bracket for [EmptyListError], a special character other than
    the colon for [MissingColonError]. *)
Theorem X4_caret_on_special_character
  (s : string) (k : ErrorKind) (i : nat) (src : string) :
  parse s = Raise (ShowSourceOfError k i src) ->
  special_token_kind k = true ->
  exists c,
    String.get i s = Some c
    /\ char_in_str c special_characters = true
    /\ (k = EmptyListError -> c = "]"%char)
    /\ (k = MissingColonError -> c <> ":"%char).
Proof.
  intros H Hk.
  destruct (parse_raise _ _ H) as [[_ E] | (tok & Ht & [Hr | (self & Hrun & Hr)])].
  - discriminate.
  - destruct (for_tokens_raise _ _ _ _ Hr) as (t & k' & Hin & E & _ & Hsp).
    injection E as -> -> ->.
    destruct (Hsp Hk) as (Hspecial & Hlist & Hcolon).
    pose proof (token_ok_tokenize _ _ Ht) as Hok.
    rewrite Forall_forall in Hok.
    destruct (Hok _ Hin) as (_ & _ & Hc).
    destruct (Hc Hspecial) as (c & Etext & Hget & Hchar).
    exists c. repeat split; auto.
    + intros ->. specialize (Hlist eq_refl). rewrite Etext in Hlist.
      now injection Hlist.
    + intros -> ->. apply (Hcolon eq_refl). exact Etext.
  - destruct (end_of_input_raise _ _ _ Hr) as [[_ E] | (j & k' & _ & E & Hend)];
      [discriminate|].
    injection E as -> _ _. destruct k'; discriminate.
Qed.

Lemma X4_caret_witness :
  parse "a,b:1" = Raise (ShowSourceOfError MissingColonError 1 "a,b:1")
  /\ exists c,
       String.get 1 "a,b:1" = Some c
       /\ char_in_str c special_characters = true
       /\ (MissingColonError = EmptyListError -> c = "]"%char)
       /\ (MissingColonError = MissingColonError -> c <> ":"%char).
Proof.
  split; [reflexivity|].
  apply (X4_caret_on_special_character "a,b:1" MissingColonError 1 "a,b:1");
    reflexivity.
Defined.

(** X5: [parse] raises [UnboundLocalError] exactly on the expressions that
    give no token at all: the empty expression, on which the tokenizer
    itself raises, and the expressions for which the tokenizer returns an
    empty token sequence (only quotes, or a lone backslash). *)
Theorem X5_unbound_iff_no_token (s : string) :
  (exists n, parse s = Raise (UnboundLocalError n))
  <-> (s = ""
       \/ exists tok, _tokenize_match_arg s = Return tok /\ token_seq tok = []).
Proof.
  split.
  - intros [n H].
    destruct (parse_raise _ _ H) as [[E _] | (tok & Ht & [Hr | (self & Hrun & Hr)])].
    + now left.
    + destruct (for_tokens_raise _ _ _ _ Hr) as (t & k & _ & E & _). discriminate.
    + right. exists tok. split; [exact Ht|].
      destruct (end_of_input_raise _ _ _ Hr) as [[Hnone _] | (j & k & _ & E & _)];
        [|discriminate].
      rewrite (for_tokens_last_idx _ _ _ _ Hrun) in Hnone. simpl in Hnone.
      destruct (last_position_cases (token_seq tok) None)
        as [[E _] | (t & _ & E)]; [exact E | congruence].
  - intros [-> | (tok & Ht & Hnil)].
    + exists "idx". reflexivity.
    + exists "idx". unfold parse, _create_dictionary. rewrite Ht.
      unfold bind at 1. rewrite Hnil. reflexivity.
Qed.

Lemma X5_unbound_witness :
  exists n, parse "''" = Raise (UnboundLocalError n).
Proof.
  apply (proj2 (X5_unbound_iff_no_token "''")).
  right. eexists. split; reflexivity.
Defined.

(** ** The keys of the dictionary *)

Lemma dict_contains_keys (k : string) (d : FilterMap) :
  dict_contains k d = existsb (String.eqb k) (map fst d).
Proof.
  unfold dict_contains. induction d as [|[k0 v0] d IH]; simpl; [reflexivity|].
  destruct (k =? k0)%string; [reflexivity | exact IH].
Qed.


Lemma dict_setitem_absent (k : string) (vs : list string) (d : FilterMap) :
  existsb (String.eqb k) (map fst d) = false ->
  dict_setitem k vs d = d ++ [(k, vs)].
Proof.
  induction d as [|[k0 v0] d IH]; simpl; [reflexivity|].
  intros H. apply orb_false_elim in H. destruct H as [E H].
  rewrite E. now rewrite IH.
Qed.








(** ** Writing a dictionary back as an expression *)

Lemma fold_merge_distinct (d : FilterMap) :
  forall acc,
  NoDup (map fst acc ++ map fst d) ->
  fold_left merge_pair d acc = acc ++ d.
Proof.
  induction d as [|[k vs] d IH]; intros acc Hnd; simpl.
  - now rewrite app_nil_r.
  - assert (Habs : existsb (String.eqb k) (map fst acc) = false).
    { destruct (existsb (String.eqb k) (map fst acc)) eqn:E; [|reflexivity].
      apply existsb_exists in E. destruct E as (x & Hin & Ex).
      apply String.eqb_eq in Ex. subst x.
      simpl in Hnd. apply NoDup_remove_2 in Hnd.
      exfalso. apply Hnd. apply in_or_app. now left. }
    unfold merge_pair at 2. simpl.
    rewrite dict_contains_keys, Habs, dict_setitem_absent by assumption.
    rewrite IH.
    + now rewrite <- app_assoc.
    + rewrite map_app. simpl. rewrite <- app_assoc. exact Hnd.
Qed.

Lemma filter_pair_filters_of_dict (d : FilterMap) :
  map filter_pair (filters_of_dict d) = d.
Proof.
  unfold filters_of_dict. rewrite map_map. simpl.
  induction d as [|[k vs] d IH]; simpl; [reflexivity | now rewrite IH].
Qed.

(** X7: a dictionary with distinct keys, whose keys and values are plain
    words and whose lists are not empty, is returned unchanged by [parse]
    from the expression that lists each key with its values,
    [k1:[...],k2:[...],...]: the keys in the same order, each with the same
    values in the same order. *)
Theorem X7_dictionary_round_trip (d : FilterMap) :
  d <> [] ->
  NoDup (map fst d) ->
  forallb well_formed (filters_of_dict d) = true ->
  parse (expression (filters_of_dict d)) = Return d.
Proof.
  intros Hne Hnd Hwf.
  assert (Hne' : filters_of_dict d <> []).
  { destruct d; [congruence | discriminate]. }
  destruct (parse_expression _ Hne' Hwf) as [-> _].
  rewrite filter_pair_filters_of_dict.
  now rewrite (fold_merge_distinct d []).
Qed.

Lemma X7_dictionary_round_trip_witness :
  parse (expression (filters_of_dict [("id", ["001"; "002"]); ("camera", ["SV"])]))
  = Return [("id", ["001"; "002"]); ("camera", ["SV"])].
Proof.
  apply (X7_dictionary_round_trip [("id", ["001"; "002"]); ("camera", ["SV"])]).
  - discriminate.
  - repeat constructor; simpl; intuition discriminate.
  - reflexivity.
Defined.

(** X8: for a key and a value that are plain words, [parse] returns on
    [key:value] the dictionary that maps the key to the one value: the same
    dictionary as for the list of one value, [key:[value]]. *)
Theorem X8_single_value (k v : string) :
  plain_word k = true -> plain_word v = true ->
  parse (k +s+ ":" +s+ v) = Return [(k, [v])]
  /\ parse (k +s+ ":[" +s+ v +s+ "]") = parse (k +s+ ":" +s+ v).
Proof.
  intros Hk Hv.
  assert (H1 : parse (k +s+ ":" +s+ v) = Return [(k, [v])]).
  { apply (parse_expression [Single k v]); [discriminate|].
    simpl. now rewrite Hk, Hv. }
  split; [exact H1|]. rewrite H1.
  apply (parse_expression [Listed k [v]]); [discriminate|].
  simpl. now rewrite Hk, Hv.
Qed.

Lemma X8_single_value_witness :
  parse ("camera" +s+ ":" +s+ "SV") = Return [("camera", ["SV"])]
  /\ parse ("camera" +s+ ":[" +s+ "SV" +s+ "]")
     = parse ("camera" +s+ ":" +s+ "SV").
Proof.
  apply (X8_single_value "camera" "SV"); reflexivity.
Defined.

(** ** No key without a value *)

Lemma no_empty_list_extend (k : string) (vs : list string) (d : FilterMap) :
  no_empty_list d -> no_empty_list (dict_extend k vs d).
Proof.
  unfold no_empty_list. induction 1 as [|[k0 v0] d Hv Hd IH]; simpl;
    [constructor|].
  destruct (k =? k0)%string; constructor; auto.
  simpl in *. intros E. apply app_eq_nil in E. tauto.
Qed.

Lemma no_empty_list_setitem (k : string) (vs : list string) (d : FilterMap) :
  vs <> [] -> no_empty_list d -> no_empty_list (dict_setitem k vs d).
Proof.
  unfold no_empty_list. intros Hvs. induction 1 as [|[k0 v0] d Hv Hd IH]; simpl.
  - constructor; [exact Hvs | constructor].
  - destruct (k =? k0)%string; constructor; auto.
Qed.

Lemma no_empty_list_merge_pair (d : FilterMap) (k : string) (vs : list string) :
  vs <> [] -> no_empty_list d -> no_empty_list (merge_pair d (k, vs)).
Proof.
  intros Hvs Hd. unfold merge_pair. simpl.
  destruct (dict_contains k d);
    [now apply no_empty_list_extend | now apply no_empty_list_setitem].
Qed.

Lemma snoc_not_nil (A : Type) (l : list A) (a : A) : l ++ [a] <> [].
Proof. destruct l; discriminate. Qed.

(** One iteration keeps [NInv]; and it leaves the parser expecting the
    first value of a list only after a special opening bracket. *)
Lemma NInv_parse_token (ms : string) (self self' : Parser) (t : Token) :
  PInv self -> NInv self ->
  parse_token ms self t = Return self' ->
  NInv self'
  /\ (mode self' = expecting_list_value ->
      current_value_list self' = [] ->
      token_special t = true /\ token_text t = "[").
Proof.
  intros [_ Hk] [Hout Hlist]. destruct t as [[token special] i].
  destruct self as [m o k vl cv li mg]. simpl in *.
  unfold parse_token, raise, is_special, NInv, token_special, token_text.
  simpl.
  destruct m; destruct special; simpl;
    rewrite ?andb_true_r, ?andb_false_r;
    repeat match goal with
           | |- context [if ?b then _ else _] => destruct b eqn:?
           end;
    intros H; inversion H; subst; clear H;
    unfold _flush_key_value; simpl; try destruct k as [key|]; simpl;
    (split; [split|]);
    try assumption;
    try (apply no_empty_list_merge_pair;
         [first [apply snoc_not_nil | now apply Hlist] | assumption]);
    try (intros Hm; first [discriminate | apply snoc_not_nil]);
    try (intros Hm Hv;
         first [ discriminate
               | exfalso; now apply (Hlist eq_refl)
               | exfalso; now apply (snoc_not_nil _ _ _ Hv)
               | split; [reflexivity | now apply String.eqb_eq] ]).
Qed.

Lemma NInv_init : NInv parser_init.
Proof. split; [constructor | discriminate]. Qed.

Lemma NInv_for_tokens (ms : string) (toks : list Token) :
  forall self self',
  PInv self -> NInv self ->
  for_tokens ms self toks = Return self' -> NInv self'.
Proof.
  induction toks as [|t toks IH]; intros self self' Hp Hn.
  - intros H; injection H as <-. exact Hn.
  - rewrite for_tokens_cons.
    destruct (parse_token ms self t) as [self1|e] eqn:E; unfold bind;
      [|discriminate].
    apply IH.
    + eapply PInv_parse_token; eauto.
    + now destruct (NInv_parse_token _ _ _ _ Hp Hn E).
Qed.

(** X9: every key of the dictionary that [parse] returns has at least one
    value, unless the last token of the expression is a special opening
    bracket (an expression that ends in [key:[], for which the key is
    stored with the values it had before, none if it is new). *)
Theorem X9_no_key_without_value
  (s : string) (toks : list Token) (d : FilterMap) :
  tokenize s = Return toks ->
  ends_with_open_bracket toks = false ->
  parse s = Return d ->
  no_empty_list d.
Proof.
  unfold tokenize, parse, _create_dictionary, run_parser.
  destruct (_tokenize_match_arg s) as [tok|e]; unfold bind at 1 2;
    [|discriminate].
  intros H; injection H as <-. intros Hlast.
  destruct (for_tokens s parser_init (token_seq tok)) as [self|e] eqn:Hrun;
    unfold bind at 2; [|discriminate].
  destruct (end_of_input s self) as [self'|e] eqn:Hend; unfold bind;
    [|discriminate].
  intros H; injection H as <-.
  pose proof (PInv_for_tokens _ _ _ _ PInv_init Hrun) as [_ Hk].
  pose proof (NInv_for_tokens _ _ _ _ PInv_init NInv_init Hrun) as [Hout Hlist].
  unfold end_of_input in Hend.
  destruct (mode self) eqn:Hm;
    try (unfold read_idx, raise in Hend; destruct (last_idx self);
         simpl in Hend; discriminate);
    injection Hend as <-.
  - (* expecting_key_comma: nothing is pending *)
    destruct Hk as [Hk _]. now rewrite (flush_key_value_none _ Hk).
  - (* expecting_list_comma: the list has a value *)
    destruct Hk as [k Hk]. rewrite (flush_key_value_some _ _ Hk). simpl.
    apply no_empty_list_merge_pair; [now apply Hlist | exact Hout].
  - (* expecting_list_value: the list is empty only after the bracket *)
    destruct Hk as [k Hk]. rewrite (flush_key_value_some _ _ Hk). simpl.
    apply no_empty_list_merge_pair; [|exact Hout].
    intros Hnil.
    destruct (rev (token_seq tok)) as [|t rtoks] eqn:Hrev.
    + apply (f_equal (@rev Token)) in Hrev. rewrite rev_involutive in Hrev.
      rewrite Hrev in Hrun. injection Hrun as <-. discriminate.
    + apply (f_equal (@rev Token)) in Hrev. rewrite rev_involutive in Hrev.
      simpl in Hrev. rewrite Hrev in Hrun, Hlast.
      rewrite for_tokens_app in Hrun.
      destruct (for_tokens s parser_init (rev rtoks)) as [self1|e] eqn:Hrun1;
        unfold bind in Hrun; [|discriminate].
      rewrite for_tokens_cons in Hrun.
      destruct (parse_token s self1 t) as [self2|e] eqn:Hstep;
        unfold bind in Hrun; [|discriminate].
      injection Hrun as ->.
      destruct (NInv_parse_token _ _ _ _
                  (PInv_for_tokens _ _ _ _ PInv_init Hrun1)
                  (NInv_for_tokens _ _ _ _ PInv_init NInv_init Hrun1) Hstep)
        as [_ Hopen].
      destruct (Hopen Hm Hnil) as [Hsp Htext].
      unfold ends_with_open_bracket in Hlast.
      rewrite rev_app_distr in Hlast. simpl in Hlast.
      rewrite Hsp, Htext in Hlast. discriminate.
Qed.

Lemma X9_no_key_without_value_witness :
  tokenize "a:[1,"
  = Return [("a", false, 1); (":", true, 1); ("[", true, 2);
            ("1", false, 4); (",", true, 4)]
  /\ no_empty_list [("a", ["1"])].
Proof.
  split; [reflexivity|].
  apply (X9_no_key_without_value "a:[1,"
           [("a", false, 1); (":", true, 1); ("[", true, 2);
            ("1", false, 4); (",", true, 4)]);
    reflexivity.
Defined.

(** ** The tokens of an expression without quotes and escapes *)

Lemma flatten_app (l1 l2 : list string) :
  flatten (l1 ++ l2) = flatten l1 +s+ flatten l2.
Proof.
  induction l1 as [|t l1 IH]; simpl; [reflexivity|].
  now rewrite IH, append_assoc.
Qed.

Lemma texts_zip3 (ts : list string) : forall (ss : list bool) (ns : list nat),
  List.length ts = List.length ss -> List.length ss = List.length ns ->
  map token_text (zip3 ts ss ns) = ts.
Proof.
  induction ts as [|t ts IH]; intros [|s0 ss] [|n ns] H1 H2;
    simpl in *; try discriminate; try reflexivity.
  unfold token_text at 1. simpl. rewrite IH by congruence. reflexivity.
Qed.

Lemma tokens_flush (self : Tokenizer) (special : bool) (i : nat) :
  flatten (tokens (_flush_current_item self special i))
  = flatten (tokens self) +s+ current_item self
  /\ current_item (_flush_current_item self special i) = ""
  /\ escaped (_flush_current_item self special i) = escaped self
  /\ active_quotes (_flush_current_item self special i) = active_quotes self.
Proof.
  unfold _flush_current_item.
  destruct (current_item self =? "")%string eqn:E; simpl.
  - apply String.eqb_eq in E. rewrite E, append_nil_r. tauto.
  - rewrite flatten_app. simpl. rewrite append_nil_r. tauto.
Qed.

Lemma tokens_flush_special (self : Tokenizer) (i : nat) (c : ascii) :
  flatten (tokens (flush_special self i c))
  = flatten (tokens self) +s+ current_item self +s+ String c "".
Proof.
  unfold flush_special.
  destruct (tokens_flush self false i) as (F1 & F2 & _).
  destruct (tokens_flush (add_char (_flush_current_item self false i) c) true i)
    as (G1 & _).
  rewrite G1. simpl. rewrite F1, F2. simpl. now rewrite append_assoc.
Qed.

Lemma no_quote_or_escape_cons (c : ascii) (s : string) :
  no_quote_or_escape (String c s) = true ->
  char_in_list c quote_symbols = false
  /\ Ascii.eqb c backslash = false
  /\ no_quote_or_escape s = true.
Proof.
  intros H.
  change (negb (char_in_list c quote_symbols) && negb (Ascii.eqb c backslash)
          && no_quote_or_escape s = true) in H.
  apply andb_prop in H. destruct H as [H Hs].
  apply andb_prop in H. destruct H as [Hq Hb].
  apply negb_true_iff in Hq, Hb. tauto.
Qed.

(** Outside quotes and escapes, the texts of the tokens and the pending
    text together are the characters read. *)
Lemma for_enumerate_flatten (s : string) : forall (self : Tokenizer) (i : nat),
  escaped self = false -> active_quotes self = [] ->
  no_quote_or_escape s = true ->
  let self' := for_enumerate loop_body self i s in
  flatten (tokens self') +s+ current_item self'
  = (flatten (tokens self) +s+ current_item self) +s+ s.
Proof.
  induction s as [|c s IH]; intros self i He Hq Hs; simpl.
  - now rewrite append_nil_r.
  - destruct (no_quote_or_escape_cons _ _ Hs) as (Hcq & Hcb & Hs').
    destruct (char_in_str c special_characters) eqn:Hsp.
    + rewrite (loop_body_special _ _ _ He Hq Hsp).
      destruct (flush_special_fields (set_idx self i) i c) as (F1 & F2 & F3 & _).
      rewrite IH; auto; [|now rewrite F2 | now rewrite F3].
      rewrite F1, tokens_flush_special. simpl.
      rewrite append_nil_r, !append_assoc. reflexivity.
    + assert (Ho : ordinary c = true).
      { unfold ordinary. now rewrite Hsp, Hcq, Hcb. }
      rewrite (loop_body_ordinary _ _ _ He Hq Ho).
      rewrite IH; auto. simpl. rewrite !append_assoc. reflexivity.
Qed.

(** X10: for an expression without quote symbols and without backslash,
    the texts of the tokens, one after the other, are the expression: the
    tokenizer cuts the expression into pieces and drops nothing. *)
Theorem X10_tokens_concatenate (s : string) (toks : list Token) :
  no_quote_or_escape s = true ->
  tokenize s = Return toks ->
  flatten (map token_text toks) = s.
Proof.
  intros Hs. unfold tokenize.
  destruct (_tokenize_match_arg s) as [tok|e] eqn:E; simpl; [|discriminate].
  intros H; injection H as <-.
  assert (Hne : s <> "") by (intros ->; discriminate).
  rewrite tokenize_nonempty in E by assumption. injection E as <-.
  destruct (flush_lengths (scan s) false (String.length s - 1)
              (inv_len_specials _ (TInv_scan s))
              (inv_len_indices _ (TInv_scan s))) as [L1 L2].
  unfold token_seq. rewrite texts_zip3 by assumption.
  destruct (tokens_flush (scan s) false (String.length s - 1)) as (-> & _).
  apply (for_enumerate_flatten s tokenizer_init 0 eq_refl eq_refl Hs).
Qed.

Lemma X10_tokens_concatenate_witness :
  no_quote_or_escape "id:[1a,2a]" = true
  /\ flatten (map token_text
                [("id", false, 2); (":", true, 2); ("[", true, 3);
                 ("1a", false, 6); (",", true, 6); ("2a", false, 9);
                 ("]", true, 9)])
     = "id:[1a,2a]".
Proof.
  split; [reflexivity|].
  apply (X10_tokens_concatenate "id:[1a,2a]"); reflexivity.
Defined.

(** ** Escaped and quoted values *)

(** The outcome of [parse] when the tokens are a key, the colon and one
    value. *)
Lemma parse_single_lexemes (s k v : string) (tok : Tokenizer) :
  _tokenize_match_arg s = Return tok ->
  map fst (token_seq tok) = [(k, false); (":", true); (v, false)] ->
  parse s = Return [(k, [v])].
Proof.
  intros Ht Hlex. unfold parse, _create_dictionary. rewrite Ht.
  unfold bind at 1.
  pose proof (run_parser_same_lexemes s s (token_seq tok)
                (at_zero [(k, false); (":", true); (v, false)])) as Hsame.
  rewrite map_fst_at_zero in Hsame. specialize (Hsame Hlex).
  assert (Hrun : run_parser s (at_zero [(k, false); (":", true); (v, false)])
                 = Return (mkParser expecting_key_comma [(k, [v])] None [] ""
                             (Some 0) [(k, [v])])).
  { unfold run_parser, at_zero. simpl. unfold is_special.
    rewrite andb_false_r. reflexivity. }
  rewrite Hrun in Hsame.
  destruct (run_parser s (token_seq tok)) as [a|e]; simpl in Hsame;
    [|contradiction].
  destruct Hsame as (_ & Ho & _). simpl. now rewrite Ho.
Qed.

(** A backslash outside quotes, the character after it, and the ordinary
    characters around them: the character is added to the pending text as
    it is, the backslash is dropped, no token is emitted. *)
Lemma scan_escape (v v' : string) (c : ascii) (self : Tokenizer) (i : nat) :
  escaped self = false -> active_quotes self = [] ->
  all_ordinary v = true -> all_ordinary v' = true ->
  for_enumerate loop_body self i (v +s+ String backslash (String c v'))
  = mkTokenizer (tokens self) (specials self) (indices self)
      (current_item self +s+ v +s+ String c v') false []
      (Some (i + String.length v + 1 + String.length v')).
Proof.
  intros He Hq Hv Hv'. rewrite for_enumerate_app.
  rewrite (scan_word v self i He Hq Hv).
  cbn [for_enumerate]. unfold loop_body at 2, loop_body_with. simpl.
  rewrite scan_word by (simpl; auto). simpl.
  rewrite !append_assoc. simpl. f_equal.
  destruct v'; simpl; f_equal; lia.
Qed.

(** X11: a backslash outside quotes makes the next character an ordinary
    one, whatever it is (a special character, a quote, a backslash): for a
    key that is a plain word and a value written as ordinary characters
    around one escaped character, [parse] returns the value with the
    character and without the backslash. *)
Theorem X11_escaped_character (k v v' : string) (c : ascii) :
  plain_word k = true ->
  all_ordinary v = true -> all_ordinary v' = true ->
  parse (k +s+ ":" +s+ v +s+ String backslash (String c v'))
  = Return [(k, [v +s+ String c v'])].
Proof.
  intros Hk Hv Hv'.
  set (s := k +s+ ":" +s+ v +s+ String backslash (String c v')).
  assert (Hs : s <> "") by now apply plain_word_nonempty.
  destruct (scan_word_special k ":"%char
              (v +s+ String backslash (String c v'))
              tokenizer_init 0 Ready_init Hk eq_refl)
    as (self1 & Hrun1 & [He1 Hq1 Hi1 L1 L2] & _ & Hseq1).
  assert (Hscan : scan s
                  = mkTokenizer (tokens self1) (specials self1) (indices self1)
                      (current_item self1 +s+ v +s+ String c v') false []
                      (Some (S (0 + String.length k) + String.length v + 1
                             + String.length v'))).
  { unfold scan, s.
    change (k +s+ ":" +s+ v +s+ String backslash (String c v'))
      with (k +s+ String ":"%char (v +s+ String backslash (String c v'))).
    rewrite Hrun1.
    now apply (scan_escape v v' c self1 (S (0 + String.length k))). }
  apply (parse_single_lexemes s k (v +s+ String c v')
           (_flush_current_item (scan s) false (String.length s - 1))).
  - now apply tokenize_nonempty.
  - rewrite token_seq_flush
      by (apply (inv_len_specials _ (TInv_scan s))
          || apply (inv_len_indices _ (TInv_scan s))).
    rewrite Hscan. simpl current_item.
    change (token_seq (mkTokenizer (tokens self1) (specials self1)
                         (indices self1) _ false [] _))
      with (token_seq self1).
    rewrite Hi1, Hseq1. simpl.
    destruct v; reflexivity.
Qed.

Lemma X11_escaped_character_witness :
  parse ("a" +s+ ":" +s+ "x" +s+ String backslash (String ","%char "y"))
  = Return [("a", ["x" +s+ String ","%char "y"])].
Proof.
  apply (X11_escaped_character "a" "x" "y" ","%char); reflexivity.
Defined.

Lemma no_quotes_cons (c : ascii) (t : string) :
  no_quotes (String c t) = true ->
  char_in_list c quote_symbols = false /\ no_quotes t = true.
Proof.
  intros H.
  change (negb (char_in_list c quote_symbols) && no_quotes t = true) in H.
  apply andb_prop in H. destruct H as [Hc Ht].
  apply negb_true_iff in Hc. tauto.
Qed.

(** Inside one open quote, characters that are not quote symbols are added
    to the pending text as they are. *)
Lemma scan_quoted (q : ascii) (t : string) :
  forall (self : Tokenizer) (i : nat),
  escaped self = false -> active_quotes self = [q] ->
  no_quotes t = true ->
  for_enumerate loop_body self i t
  = mkTokenizer (tokens self) (specials self) (indices self)
      (current_item self +s+ t) false [q]
      (match t with
       | EmptyString => idx self
       | String _ _ => Some (i + String.length t - 1)
       end).
Proof.
  induction t as [|c t IH]; intros self i He Hq Ht.
  - simpl. rewrite append_nil_r. destruct self; simpl in *. now subst.
  - destruct (no_quotes_cons _ _ Ht) as [Hc Ht'].
    cbn [for_enumerate].
    assert (Hstep : snd (loop_body self i c) = add_char (set_idx self i) c).
    { unfold loop_body, loop_body_with.
      change (escaped (set_idx self i)) with (escaped self).
      change (active_quotes (set_idx self i)) with (active_quotes self).
      now rewrite He, Hc, Hq. }
    rewrite Hstep, IH by assumption. simpl.
    rewrite append_assoc. simpl. f_equal.
    destruct t; simpl; f_equal; lia.
Qed.

(** A quoted text outside quotes: the quote symbols open and close the
    quote and are dropped, the text between them is added to the pending
    text. *)
Lemma scan_quoted_value (q : ascii) (t : string) (self : Tokenizer) (i : nat) :
  escaped self = false -> active_quotes self = [] ->
  char_in_list q quote_symbols = true ->
  no_quotes t = true ->
  for_enumerate loop_body self i (String q (t +s+ String q ""))
  = mkTokenizer (tokens self) (specials self) (indices self)
      (current_item self +s+ t) false []
      (Some (i + 1 + String.length t)).
Proof.
  intros He Hq Hqs Ht. cbn [for_enumerate].
  assert (Hopen : snd (loop_body self i q)
                  = set_active_quotes (set_idx self i) [q]).
  { unfold loop_body, loop_body_with.
    change (escaped (set_idx self i)) with (escaped self).
    change (active_quotes (set_idx self i)) with (active_quotes self).
    now rewrite He, Hqs, Hq. }
  rewrite Hopen, for_enumerate_app.
  rewrite (scan_quoted q t) by (simpl; auto).
  cbn [for_enumerate]. unfold loop_body, loop_body_with. simpl.
  fold squote dquote. change ((q =? squote)%char || ((q =? dquote)%char || false))
    with (char_in_list q quote_symbols).
  rewrite Hqs, Ascii.eqb_refl. simpl.
  unfold set_active_quotes, set_idx. simpl. do 2 f_equal. lia.
Qed.

(** X12: a value written between two quote symbols of the same kind, with
    no quote symbol inside, is taken as it is, special characters and
    backslashes included: for a key that is a plain word [parse] returns
    that text as the one value of the key.  When the text is empty there is
    no value, and [parse] raises [EmptyValueError] right after the
    colon. *)
Theorem X12_quoted_value (k t : string) (q : ascii) :
  plain_word k = true ->
  char_in_list q quote_symbols = true ->
  no_quotes t = true ->
  parse (k +s+ ":" +s+ String q (t +s+ String q ""))
  = match t with
    | EmptyString =>
        Raise (ShowSourceOfError EmptyValueError (String.length k + 1)
                 (k +s+ ":" +s+ String q (String q "")))
    | String _ _ => Return [(k, [t])]
    end.
Proof.
  intros Hk Hq Ht.
  set (s := k +s+ ":" +s+ String q (t +s+ String q "")).
  assert (Hs : s <> "") by now apply plain_word_nonempty.
  destruct (scan_word_special k ":"%char (String q (t +s+ String q ""))
              tokenizer_init 0 Ready_init Hk eq_refl)
    as (self1 & Hrun1 & [He1 Hq1 Hi1 L1 L2] & _ & Hseq1).
  assert (Hscan : scan s
                  = mkTokenizer (tokens self1) (specials self1) (indices self1)
                      (current_item self1 +s+ t) false []
                      (Some (S (0 + String.length k) + 1 + String.length t))).
  { unfold scan, s.
    change (k +s+ ":" +s+ String q (t +s+ String q ""))
      with (k +s+ String ":"%char (String q (t +s+ String q ""))).
    rewrite Hrun1. now apply scan_quoted_value. }
  assert (Hseq : token_seq (_flush_current_item (scan s) false
                              (String.length s - 1))
                 = token_seq self1
                   ++ (if (t =? "")%string then []
                       else [(t, false, String.length s - 1)])).
  { rewrite token_seq_flush
      by (apply (inv_len_specials _ (TInv_scan s))
          || apply (inv_len_indices _ (TInv_scan s))).
    rewrite Hscan. simpl current_item.
    change (token_seq (mkTokenizer (tokens self1) (specials self1)
                         (indices self1) _ false [] _))
      with (token_seq self1).
    rewrite Hi1. reflexivity. }
  destruct t as [|c t].
  - unfold parse. rewrite (tokenize_nonempty _ Hs). unfold bind at 1.
    unfold _create_dictionary. rewrite Hseq, Hseq1. simpl.
    do 2 f_equal; lia.
  - apply (parse_single_lexemes s k (String c t)
             (_flush_current_item (scan s) false (String.length s - 1))).
    + now apply tokenize_nonempty.
    + rewrite Hseq, Hseq1. reflexivity.
Qed.

Lemma X12_quoted_value_witness :
  parse ("a" +s+ ":" +s+ String dquote ("x,y:[\]" +s+ String dquote ""))
  = Return [("a", ["x,y:[\]"])].
Proof.
  apply (X12_quoted_value "a" "x,y:[\]" dquote); reflexivity.
Defined.

(** ** Metadata of file names: [_parse_filename] *)

Lemma split_char_nonempty (sep : ascii) (s : string) : split_char sep s <> [].
Proof.
  destruct s as [|c s]; simpl; [discriminate|].
  destruct (Ascii.eqb c sep); [discriminate|].
  destruct (split_char sep s); discriminate.
Qed.

Lemma join_split_char (sep : ascii) (s : string) :
  join (String sep "") (split_char sep s) = s.
Proof.
  induction s as [|c s IH]; [reflexivity|]. simpl.
  destruct (Ascii.eqb c sep) eqn:E.
  - apply Ascii.eqb_eq in E. subst c.
    destruct (split_char sep s) as [|f fs] eqn:Es;
      [now apply split_char_nonempty in Es|].
    change (join (String sep "") ("" :: f :: fs))
      with ("" +s+ String sep "" +s+ join (String sep "") (f :: fs)).
    now rewrite IH.
  - destruct (split_char sep s) as [|f fs] eqn:Es;
      [now apply split_char_nonempty in Es|].
    destruct fs as [|f2 fs]; simpl in *; now rewrite <- IH.
Qed.

Lemma length_split_char (sep : ascii) (s : string) :
  List.length (split_char sep s) = count_char sep s + 1.
Proof.
  induction s as [|c s IH]; [reflexivity|]. simpl.
  destruct (Ascii.eqb c sep); simpl.
  - now rewrite IH.
  - destruct (split_char sep s) as [|f fs] eqn:Es;
      [now apply split_char_nonempty in Es|].
    simpl in *. exact IH.
Qed.

Lemma split_char_fields (sep : ascii) (s : string) :
  Forall (fun f => count_char sep f = 0) (split_char sep s).
Proof.
  induction s as [|c s IH]; simpl; [repeat constructor|].
  destruct (Ascii.eqb c sep) eqn:E.
  - constructor; [reflexivity | exact IH].
  - destruct (split_char sep s) as [|f fs]; [repeat constructor; simpl; now rewrite E|].
    inversion IH as [|? ? Hf Hfs]; subst.
    constructor; [simpl; now rewrite E | exact Hfs].
Qed.

Lemma split_char_no_sep (sep : ascii) (f : string) :
  count_char sep f = 0 -> split_char sep f = [f].
Proof.
  induction f as [|c f IH]; simpl; [reflexivity|].
  destruct (Ascii.eqb c sep); [discriminate|]. simpl.
  intros H. now rewrite IH.
Qed.

Lemma split_char_append (sep : ascii) (f rest : string) :
  count_char sep f = 0 ->
  split_char sep (f +s+ String sep rest) = f :: split_char sep rest.
Proof.
  induction f as [|c f IH]; simpl.
  - intros _. now rewrite Ascii.eqb_refl.
  - destruct (Ascii.eqb c sep); [discriminate|]. simpl.
    intros H. now rewrite IH.
Qed.

Lemma split_char_join (sep : ascii) (fields : list string) :
  fields <> [] ->
  Forall (fun f => count_char sep f = 0) fields ->
  split_char sep (join (String sep "") fields) = fields.
Proof.
  induction fields as [|f fields IH]; [congruence|].
  intros _ Hall. inversion Hall as [|? ? Hf Hfs]; subst.
  destruct fields as [|f2 fields].
  - simpl. now apply split_char_no_sep.
  - change (join (String sep "") (f :: f2 :: fields))
      with (f +s+ String sep (join (String sep "") (f2 :: fields))).
    rewrite split_char_append by assumption.
    rewrite IH; [reflexivity | discriminate | assumption].
Qed.

(** X13: with a delimiter of one character, [_parse_filename] cuts the file
    name at every delimiter and loses nothing: the fields, joined again by
    the delimiter, are the file name; none of them contains the delimiter;
    and there is one field more than there are delimiters in the name (so
    never an empty list), whatever the regular expression is. *)
Theorem X13_parse_filename_splits (filename : string) (sep : ascii)
  (regex : Regex) :
  exists fields,
    _parse_filename filename (String sep "") regex = map PyStr fields
    /\ join (String sep "") fields = filename
    /\ Forall (fun f => count_char sep f = 0) fields
    /\ List.length fields = count_char sep filename + 1.
Proof.
  exists (split_char sep filename). split; [reflexivity|].
  split; [apply join_split_char|].
  split; [apply split_char_fields | apply length_split_char].
Qed.

(** X14: a file name written by joining fields with a delimiter of one
    character, where no field contains the delimiter, is parsed back by
    [_parse_filename] into exactly these fields, in order. *)
Theorem X14_parse_filename_of_joined_fields (fields : list string)
  (sep : ascii) (regex : Regex) :
  fields <> [] ->
  Forall (fun f => count_char sep f = 0) fields ->
  _parse_filename (join (String sep "") fields) (String sep "") regex
  = map PyStr fields.
Proof.
  intros Hne Hall. simpl. now rewrite split_char_join.
Qed.

Lemma X14_parse_filename_witness :
  _parse_filename (join "_" ["VIS"; "SV"; "0"; "z1"]) "_" (fun _ => None)
  = map PyStr ["VIS"; "SV"; "0"; "z1"].
Proof.
  apply (X14_parse_filename_of_joined_fields ["VIS"; "SV"; "0"; "z1"] "_"%char).
  - discriminate.
  - repeat constructor.
Defined.

(** ** Selecting images: [metadata_parser] *)

Lemma lookup_setitem (V : Type) (k k' : string) (v : V) (d : Dict V) :
  lookup k (setitem k' v d)
  = if (k =? k')%string then Some v else lookup k d.
Proof.
  induction d as [|[k0 v0] d IH]; simpl.
  - reflexivity.
  - destruct (k' =? k0)%string eqn:E1; simpl.
    + apply String.eqb_eq in E1; subst k0.
      destruct (k =? k')%string; reflexivity.
    + destruct (k =? k0)%string eqn:E2.
      * apply String.eqb_eq in E2; subst k0.
        rewrite String.eqb_sym in E1. now rewrite E1.
      * exact IH.
Qed.

Lemma keys_setitem (V : Type) (k : string) (v : V) (d : Dict V) :
  map fst (setitem k v d) = add_key (map fst d) k.
Proof.
  unfold add_key. induction d as [|[k0 v0] d IH]; simpl; [reflexivity|].
  destruct (k =? k0)%string eqn:E; simpl; [reflexivity|].
  rewrite IH. destruct (existsb (String.eqb k) (map fst d)); reflexivity.
Qed.

Lemma length_add_key (acc : list string) (k : string) :
  List.length (add_key acc k)
  = if existsb (String.eqb k) acc then List.length acc
    else S (List.length acc).
Proof.
  unfold add_key. destruct (existsb (String.eqb k) acc); [reflexivity|].
  rewrite length_app. simpl. lia.
Qed.

Lemma In_add_key (acc : list string) (k x : string) :
  In x (add_key acc k) -> In x acc \/ x = k.
Proof.
  unfold add_key. destruct (existsb (String.eqb k) acc); [tauto|].
  intros H. apply in_app_or in H. simpl in H. intuition.
Qed.

Lemma existsb_eqb_false (k : string) (l : list string) :
  ~ In k l -> existsb (String.eqb k) l = false.
Proof.
  intros H. destruct (existsb (String.eqb k) l) eqn:E; [|reflexivity].
  apply existsb_exists in E. destruct E as (x & Hx & Ex).
  apply String.eqb_eq in Ex. now subst.
Qed.

(** What one file does to [(meta, jobcount)]: nothing, or it is accepted,
    stored under its name and counted. *)
Lemma process_file_cases (w : World) (cfg : Config) (regex : Regex)
  (ext : ExtRegex) (dirpath filename : string)
  (meta meta' : Dict (Dict PyValue)) (jobcount jobcount' : nat) :
  process_file w cfg regex ext dirpath (meta, jobcount) filename
  = MReturn (meta', jobcount') ->
  (meta' = meta /\ jobcount' = jobcount)
  \/ exists img_meta,
       accepted w cfg regex ext dirpath filename img_meta
       /\ meta' = setitem filename img_meta meta
       /\ jobcount' = jobcount + 1.
Proof.
  unfold process_file, accepted.
  destruct (ext_search ext filename); [|intros H; injection H as <- <-; now left].
  destruct (List.length _ =? List.length (meta_fields cfg))%nat eqn:El;
    [|intros H; injection H as <- <-; now left].
  apply Nat.eqb_eq in El.
  destruct (for_fields cfg _ _ (valid_meta cfg)) as [[img_meta p]|e] eqn:Ef;
    unfold mbind at 1; [|discriminate].
  simpl fst; simpl snd.
  destruct (date_step w cfg img_meta p) as [p'|e] eqn:Ed; unfold mbind;
    [|discriminate].
  destruct (p' =? 1)%nat eqn:Ep; intros H; injection H as <- <-;
    [|now left].
  apply Nat.eqb_eq in Ep. subst p'. right. exists img_meta.
  repeat split; auto. exists p. now split.
Qed.

Lemma In_keys_lookup (V : Type) (k : string) (d : Dict V) :
  In k (map fst d) <-> exists v, lookup k d = Some v.
Proof.
  induction d as [|[k0 v0] d IH]; simpl.
  - split; [tauto | intros [v H]; discriminate].
  - destruct (k =? k0)%string eqn:E.
    + apply String.eqb_eq in E. subst. split; eauto.
    + apply String.eqb_neq in E. rewrite <- IH. split.
      * intros [H | H]; [congruence | exact H].
      * tauto.
Qed.

Lemma length_setitem (V : Type) (k : string) (v : V) (d : Dict V) :
  List.length (setitem k v d)
  = if existsb (String.eqb k) (map fst d) then List.length d
    else S (List.length d).
Proof.
  rewrite <- (length_map fst (setitem k v d)), keys_setitem, length_add_key.
  now rewrite length_map.
Qed.

Lemma for_files_cons (w : World) (cfg : Config) (regex : Regex)
  (ext : ExtRegex) (dirpath : string) (st : Dict (Dict PyValue) * nat)
  (f : string) (files : list string) :
  for_files w cfg regex ext dirpath st (f :: files)
  = (st' <-- process_file w cfg regex ext dirpath st f ;;
     for_files w cfg regex ext dirpath st' files).
Proof. reflexivity. Qed.

Lemma NoDup_app_disjoint (A : Type) (l1 l2 : list A) (a : A) :
  NoDup (l1 ++ l2) -> In a l1 -> ~ In a l2.
Proof.
  induction l1 as [|x l1 IH]; simpl; [tauto|].
  intros H [-> | Hin] H2.
  - inversion H as [|? ? Hx _]; subst. apply Hx. apply in_or_app. now right.
  - inversion H; subst. now apply IH.
Qed.

Section Walk.

Variables (w : World) (cfg : Config) (regex : Regex) (ext : ExtRegex).

(** The files of one directory: the count grows at least as much as the
    dictionary, and by as much when the names are new and distinct; the
    new records are accepted files of the directory. *)
Lemma for_files_spec (dirpath : string) (files : list string) :
  forall meta j meta' j',
  for_files w cfg regex ext dirpath (meta, j) files = MReturn (meta', j') ->
  (List.length meta' + j <= j' + List.length meta /\ j <= j')
  /\ (forall f r, lookup f meta' = Some r ->
        lookup f meta = Some r
        \/ (In f files /\ accepted w cfg regex ext dirpath f r))
  /\ (NoDup files -> (forall f, In f files -> ~ In f (map fst meta)) ->
      List.length meta' + j = j' + List.length meta).
Proof.
  induction files as [|f files IH]; intros meta j meta' j'.
  - intros H; injection H as <- <-.
    split; [lia|]. split; [auto | lia].
  - rewrite for_files_cons.
    destruct (process_file w cfg regex ext dirpath (meta, j) f)
      as [[meta1 j1]|e] eqn:E; unfold mbind; [|discriminate].
    intros H. destruct (IH _ _ _ _ H) as (Hb & Ha & Hx).
    destruct (process_file_cases _ _ _ _ _ _ _ _ _ _ E)
      as [[-> ->] | (r0 & Hacc & -> & ->)].
    + split; [exact Hb|]. split.
      * intros g r Hg. destruct (Ha g r Hg) as [? | [? ?]]; [now left|].
        right. split; [now right | assumption].
      * intros Hnd Hnew. inversion Hnd; subst. apply Hx; [assumption|].
        intros g Hg. apply Hnew. now right.
    + pose proof (length_setitem _ f r0 meta) as Hlen.
      split; [|split].
      * destruct (existsb (String.eqb f) (map fst meta)); lia.
      * intros g r Hg. destruct (Ha g r Hg) as [Hl | [Hin Hr]].
        -- rewrite lookup_setitem in Hl.
           destruct (g =? f)%string eqn:Eg; [|now left].
           apply String.eqb_eq in Eg. subst g. injection Hl as <-.
           right. split; [now left | exact Hacc].
        -- right. split; [now right | exact Hr].
      * intros Hnd Hnew. inversion Hnd as [|? ? Hf Hnd']; subst.
        rewrite (existsb_eqb_false f (map fst meta)) in Hlen
          by (apply Hnew; now left).
        assert (Hx' : List.length meta' + (j + 1)
                      = j' + List.length (setitem f r0 meta)).
        { apply Hx; [exact Hnd'|]. intros g Hg Hin.
          rewrite keys_setitem in Hin. apply In_add_key in Hin.
          destruct Hin as [Hin | ->]; [|contradiction].
          apply (Hnew g); [now right | exact Hin]. }
        lia.
Qed.

Lemma for_walk_cons (st : Dict (Dict PyValue) * nat) (dirpath : string)
  (files : list string) (dirs : list (string * list string)) :
  for_walk w cfg regex ext st ((dirpath, files) :: dirs)
  = (st' <-- for_files w cfg regex ext dirpath st files ;;
     for_walk w cfg regex ext st' dirs).
Proof. reflexivity. Qed.

Lemma for_walk_spec (dirs : list (string * list string)) :
  forall meta j meta' j',
  for_walk w cfg regex ext (meta, j) dirs = MReturn (meta', j') ->
  (List.length meta' + j <= j' + List.length meta /\ j <= j')
  /\ (forall f r, lookup f meta' = Some r ->
        lookup f meta = Some r
        \/ exists dirpath files,
             In (dirpath, files) dirs /\ In f files
             /\ accepted w cfg regex ext dirpath f r)
  /\ (NoDup (walked_files dirs) ->
      (forall f, In f (walked_files dirs) -> ~ In f (map fst meta)) ->
      List.length meta' + j = j' + List.length meta).
Proof.
  induction dirs as [|[dirpath files] dirs IH]; intros meta j meta' j'.
  - intros H; injection H as <- <-.
    split; [lia|]. split; [auto | lia].
  - rewrite for_walk_cons.
    destruct (for_files w cfg regex ext dirpath (meta, j) files)
      as [[meta1 j1]|e] eqn:E; unfold mbind; [|discriminate].
    intros H. destruct (IH _ _ _ _ H) as (Hb & Ha & Hx).
    destruct (for_files_spec _ _ _ _ _ _ E) as (Hb1 & Ha1 & Hx1).
    split; [lia|]. split.
    + intros f r Hf. destruct (Ha f r Hf) as [Hl | (d & fs & Hin & Hf' & Hr)].
      * destruct (Ha1 f r Hl) as [? | [Hin Hr]]; [now left|].
        right. exists dirpath, files. split; [now left | auto].
      * right. exists d, fs. split; [now right | auto].
    + unfold walked_files. simpl. intros Hnd Hnew.
      apply NoDup_app_remove_l in Hnd as Hnd2.
      apply NoDup_app_remove_r in Hnd as Hnd1.
      assert (H1 : List.length meta1 + j = j1 + List.length meta).
      { apply Hx1; [exact Hnd1|]. intros f Hf. apply Hnew.
        apply in_or_app. now left. }
      assert (H2 : List.length meta' + j1 = j' + List.length meta1).
      { apply Hx; [exact Hnd2|]. intros f Hf Hin.
        apply In_keys_lookup in Hin. destruct Hin as [r Hr].
        destruct (Ha1 f r Hr) as [Hl | [Hin _]].
        - apply (Hnew f); [apply in_or_app; now right|].
          apply In_keys_lookup. eauto.
        - now apply (NoDup_app_disjoint _ _ _ f Hnd Hin). }
      lia.
Qed.

End Walk.

Lemma py_in_true (value : PyValue) (l : list string) :
  py_in value l = true -> exists v, value = PyStr v /\ In v l.
Proof.
  destruct value as [s|]; simpl; [|discriminate].
  intros H. apply existsb_exists in H. destruct H as (x & Hx & E).
  apply String.eqb_eq in E. subst x. eauto.
Qed.

(** What one field of [valid_meta] does: it stores, under the name of the
    field, the field of the file name at the index given by [meta_fields],
    or the default value when [meta_fields] has no such field; and a
    filter on a field of the file name fails the image when the value is
    not in its list. *)
Lemma field_step_spec (cfg : Config) (metadata : list PyValue)
  (m m1 : Dict PyValue) (p p1 : nat) (field : string) (default : PyValue) :
  field_step cfg metadata (m, p) (field, default) = MReturn (m1, p1) ->
  exists value,
    m1 = setitem field value m
    /\ match lookup field (meta_fields cfg) with
       | Some index =>
           py_index metadata index = Some value
           /\ p1 = match dict_get field (meta_filters cfg) with
                   | Some l => if py_in value l then p else 0
                   | None => p
                   end
       | None => value = default /\ p1 = p
       end.
Proof.
  unfold field_step.
  destruct (lookup field (meta_fields cfg)) as [index|].
  - destruct (py_index metadata index) as [value|]; [|discriminate].
    intros H; injection H as <- <-. exists value.
    split; [reflexivity|]. split; [reflexivity|].
    destruct (dict_get field (meta_filters cfg)); [|reflexivity].
    simpl. now destruct (py_in value l).
  - intros H; injection H as <- <-. exists default. auto.
Qed.

Lemma for_fields_cons (cfg : Config) (metadata : list PyValue)
  (acc : Dict PyValue * nat) (entry : string * PyValue)
  (fields : Dict PyValue) :
  for_fields cfg metadata acc (entry :: fields)
  = (acc' <-- field_step cfg metadata acc entry ;;
     for_fields cfg metadata acc' fields).
Proof. reflexivity. Qed.

(** The loop over the fields of [valid_meta]. *)
Lemma for_fields_spec (cfg : Config) (metadata : list PyValue)
  (fields : Dict PyValue) :
  forall m p m' p',
  for_fields cfg metadata (m, p) fields = MReturn (m', p') ->
  map fst m' = fold_left add_key (map fst fields) (map fst m)
  /\ (p' = 1 -> p = 1)
  /\ (forall k, ~ In k (map fst fields) -> lookup k m' = lookup k m)
  /\ (NoDup (map fst fields) ->
      forall field default, In (field, default) fields ->
      exists value,
        lookup field m' = Some value
        /\ match lookup field (meta_fields cfg) with
           | Some index =>
               py_index metadata index = Some value
               /\ (p' = 1 ->
                   forall l, dict_get field (meta_filters cfg) = Some l ->
                   exists v, value = PyStr v /\ In v l)
           | None => value = default
           end).
Proof.
  induction fields as [|[field default] fields IH]; intros m p m' p'.
  - intros H; injection H as <- <-. repeat split; auto.
    intros _ f d [].
  - rewrite for_fields_cons.
    destruct (field_step cfg metadata (m, p) (field, default))
      as [[m1 p1]|e] eqn:E; unfold mbind; [|discriminate].
    intros H. destruct (IH _ _ _ _ H) as (Hkeys & Hp & Hkeep & Hall).
    destruct (field_step_spec _ _ _ _ _ _ _ _ E) as (value & -> & Hval).
    split; [|split; [|split]].
    + simpl. now rewrite Hkeys, keys_setitem.
    + intros Hp1. specialize (Hp Hp1). subst p1.
      destruct (lookup field (meta_fields cfg));
        [|destruct Hval as [_ Hv]; now symmetry].
      destruct Hval as [_ Hv].
      destruct (dict_get field (meta_filters cfg)); [|now symmetry].
      destruct (py_in value l); [now symmetry | discriminate].
    + intros k Hk. simpl in Hk. rewrite Hkeep by tauto.
      rewrite lookup_setitem.
      destruct (k =? field)%string eqn:Ek; [|reflexivity].
      apply String.eqb_eq in Ek. subst. tauto.
    + intros Hnd f d [Hin | Hin].
      * injection Hin as <- <-. simpl in Hnd. inversion Hnd; subst.
        exists value. rewrite Hkeep by assumption.
        rewrite lookup_setitem, String.eqb_refl. split; [reflexivity|].
        destruct (lookup field (meta_fields cfg)); [|tauto].
        destruct Hval as [Hi Hv]. split; [exact Hi|].
        intros Hp1 l Hl. specialize (Hp Hp1). rewrite Hl in Hv.
        destruct (py_in value l) eqn:Ein; [now apply py_in_true|].
        congruence.
      * simpl in Hnd. inversion Hnd; subst. now apply Hall.
Qed.

Lemma metadata_parser_returns (w : World) (data_dir : string) (cfg : Config)
  (file_type : string) (jobcount : nat) (meta : Dict (Dict PyValue)) :
  metadata_parser w data_dir cfg file_type = MReturn (jobcount, meta) ->
  exists regex ext,
    re_compile w (delimiter cfg) = Some regex
    /\ re_compile_ext w file_type = Some ext
    /\ for_walk w cfg regex ext ([], 0) (os_walk w data_dir)
       = MReturn (meta, jobcount).
Proof.
  unfold metadata_parser.
  destruct (re_compile w (delimiter cfg)) as [regex|]; [|discriminate].
  destruct (re_compile_ext w file_type) as [ext|]; [|discriminate].
  destruct (for_walk w cfg regex ext ([], 0) (os_walk w data_dir))
    as [[meta' j']|e] eqn:E; unfold mbind; [|discriminate].
  intros H; injection H as <- <-. exists regex, ext. auto.
Qed.

Lemma metadata_parser_all_accepted (w : World) (data_dir : string)
  (cfg : Config) (file_type : string) (jobcount : nat)
  (meta : Dict (Dict PyValue)) :
  metadata_parser w data_dir cfg file_type = MReturn (jobcount, meta) ->
  exists regex ext,
    re_compile w (delimiter cfg) = Some regex
    /\ re_compile_ext w file_type = Some ext
    /\ all_accepted w cfg regex ext (os_walk w data_dir) meta.
Proof.
  intros H. destruct (metadata_parser_returns _ _ _ _ _ _ H)
    as (regex & ext & Hr & He & Hwalk).
  exists regex, ext. split; [exact Hr|]. split; [exact He|].
  destruct (for_walk_spec _ _ _ _ _ _ _ _ _ Hwalk) as (_ & Ha & _).
  intros f r Hf. destruct (Ha f r Hf) as [Hl | Hacc]; [discriminate | exact Hacc].
Qed.

(** X15: the job count that [metadata_parser] returns is at least the
    number of records of the dictionary that it returns, which is keyed by
    file name alone: a name met in two directories is counted twice and
    stored once.  When all the file names of the walk are distinct, the
    two numbers are equal. *)
Theorem X15_jobcount_and_records (w : World) (data_dir : string)
  (cfg : Config) (file_type : string) (jobcount : nat)
  (meta : Dict (Dict PyValue)) :
  metadata_parser w data_dir cfg file_type = MReturn (jobcount, meta) ->
  List.length meta <= jobcount
  /\ (NoDup (walked_files (os_walk w data_dir)) ->
      List.length meta = jobcount).
Proof.
  intros H. destruct (metadata_parser_returns _ _ _ _ _ _ H)
    as (regex & ext & _ & _ & Hwalk).
  destruct (for_walk_spec _ _ _ _ _ _ _ _ _ Hwalk) as ((Hb & _) & _ & Hx).
  simpl in *. split; [lia|].
  intros Hnd. specialize (Hx Hnd (fun _ _ F => F)). lia.
Qed.

Lemma X15_jobcount_witness :
  metadata_parser example_world "data" example_config "png"
  = MReturn
      (2,
       [("VIS_SV_1.png",
         [("path", PyStr "d1"); ("camera", PyStr "SV");
          ("imgtype", PyStr "VIS"); ("id", PyStr "1"); ("timestamp", PyNone)]);
        ("VIS_TV_2.png",
         [("path", PyStr "d2"); ("camera", PyStr "TV");
          ("imgtype", PyStr "VIS"); ("id", PyStr "2"); ("timestamp", PyNone)])])
  /\ 2 <= 2.
Proof.
  split; [reflexivity|].
  exact (proj1 (X15_jobcount_and_records example_world "data" example_config
                  "png" 2 _ eq_refl)).
Defined.

(** The date step lets an image pass only if it passed the filters, and,
    when both dates are nonzero, only an image without timestamp or with a
    timestamp inside the range. *)
Lemma date_step_one (w : World) (cfg : Config) (m : Dict PyValue) (p : nat) :
  date_step w cfg m p = MReturn 1 ->
  p = 1
  /\ (start_date cfg <> 0%Z -> end_date cfg <> 0%Z ->
      exists ts,
        lookup "timestamp" m = Some ts
        /\ (ts = PyNone
            \/ exists t days seconds,
                 ts = PyStr t
                 /\ strptime_since_epoch w t (date_format cfg)
                    = StrptimeNaive days seconds
                 /\ (start_date cfg <= days * 24 * 3600 + seconds
                     <= end_date cfg)%Z)).
Proof.
  unfold date_step.
  destruct (start_date cfg =? 0)%Z eqn:Es; simpl.
  { intros H; injection H as ->. split; [reflexivity|].
    apply Z.eqb_eq in Es. intros; contradiction. }
  destruct (end_date cfg =? 0)%Z eqn:Ee; simpl.
  { intros H; injection H as ->. split; [reflexivity|].
    apply Z.eqb_eq in Ee. intros; contradiction. }
  destruct (lookup "timestamp" m) as [[t|]|]; [| |discriminate].
  - unfold check_date_range.
    destruct (strptime_since_epoch w t (date_format cfg))
      as [msg| |days seconds] eqn:Et; [discriminate | discriminate |].
    destruct ((days * 24 * 3600 + seconds <? start_date cfg)%Z
              || (days * 24 * 3600 + seconds >? end_date cfg)%Z) eqn:Er;
      simpl; [discriminate|].
    intros H; injection H as ->. split; [reflexivity|].
    intros _ _. exists (PyStr t). split; [reflexivity|]. right.
    exists t, days, seconds. repeat split; auto.
    + apply orb_false_elim in Er. destruct Er as [Er _].
      apply Z.ltb_ge in Er. exact Er.
    + apply orb_false_elim in Er. destruct Er as [_ Er].
      rewrite Z.gtb_ltb in Er. apply Z.ltb_ge in Er. exact Er.
  - intros H; injection H as ->. split; [reflexivity|].
    intros _ _. exists PyNone. auto.
Qed.

Lemma In_keys_entry (V : Type) (k : string) (d : Dict V) :
  In k (map fst d) -> exists v, In (k, v) d.
Proof.
  intros H. apply in_map_iff in H. destruct H as ([k' v] & E & Hin).
  simpl in E. subst. eauto.
Qed.

(** X16: every record that [metadata_parser] returns satisfies the
    filters: for a field of [valid_meta] that the file names carry (a
    field of [meta_fields]) and that has a filter, the value recorded for
    the image is one of the values of the filter. *)
Theorem X16_records_satisfy_filters (w : World) (data_dir : string)
  (cfg : Config) (file_type : string) (jobcount : nat)
  (meta : Dict (Dict PyValue)) :
  metadata_parser w data_dir cfg file_type = MReturn (jobcount, meta) ->
  NoDup (map fst (valid_meta cfg)) ->
  forall filename img_meta field index l,
    lookup filename meta = Some img_meta ->
    In field (map fst (valid_meta cfg)) ->
    lookup field (meta_fields cfg) = Some index ->
    dict_get field (meta_filters cfg) = Some l ->
    exists v, lookup field img_meta = Some (PyStr v) /\ In v l.
Proof.
  intros H Hnd filename img_meta field index l Hrec Hfield Hidx Hfilter.
  destruct (metadata_parser_all_accepted _ _ _ _ _ _ H)
    as (regex & ext & _ & _ & Hall).
  destruct (Hall _ _ Hrec) as (dirpath & files & _ & _ & Hacc).
  destruct Hacc as (_ & _ & p & Hfields & Hdate).
  destruct (date_step_one _ _ _ _ Hdate) as [-> _].
  destruct (for_fields_spec _ _ _ _ _ _ _ Hfields) as (_ & _ & _ & Hspec).
  destruct (In_keys_entry _ _ _ Hfield) as [default Hin].
  destruct (Hspec Hnd _ _ Hin) as (value & Hval & Hmatch).
  rewrite Hidx in Hmatch. destruct Hmatch as [_ Hpass].
  destruct (Hpass eq_refl l Hfilter) as (v & -> & Hv).
  exists v. auto.
Qed.

(** X17: when both dates are nonzero, every record that [metadata_parser]
    returns has a timestamp entry, and a timestamp that is not [None] lies
    in the range, both ends included: its Unix time, days * 86400 +
    seconds since the epoch, is at least [start_date] and at most
    [end_date]. *)
Theorem X17_records_in_date_range (w : World) (data_dir : string)
  (cfg : Config) (file_type : string) (jobcount : nat)
  (meta : Dict (Dict PyValue)) :
  metadata_parser w data_dir cfg file_type = MReturn (jobcount, meta) ->
  start_date cfg <> 0%Z -> end_date cfg <> 0%Z ->
  forall filename img_meta,
    lookup filename meta = Some img_meta ->
    exists ts,
      lookup "timestamp" img_meta = Some ts
      /\ (ts = PyNone
          \/ exists t days seconds,
               ts = PyStr t
               /\ strptime_since_epoch w t (date_format cfg)
                  = StrptimeNaive days seconds
               /\ (start_date cfg <= days * 24 * 3600 + seconds
                   <= end_date cfg)%Z).
Proof.
  intros H Hs He filename img_meta Hrec.
  destruct (metadata_parser_all_accepted _ _ _ _ _ _ H)
    as (regex & ext & _ & _ & Hall).
  destruct (Hall _ _ Hrec) as (dirpath & files & _ & _ & Hacc).
  destruct Hacc as (_ & _ & p & _ & Hdate).
  destruct (date_step_one _ _ _ _ Hdate) as [_ Hrange].
  now apply Hrange.
Qed.

Lemma NoDup_example_valid_meta : NoDup (map fst (valid_meta example_config)).
Proof. repeat constructor; simpl; intuition discriminate. Qed.

Lemma X16_records_satisfy_filters_witness :
  metadata_parser example_world "data" example_config "png"
  = MReturn (2, example_meta)
  /\ exists v,
       lookup "imgtype"
         [("path", PyStr "d1"); ("camera", PyStr "SV");
          ("imgtype", PyStr "VIS"); ("id", PyStr "1"); ("timestamp", PyNone)]
       = Some (PyStr v)
       /\ In v ["VIS"].
Proof.
  split; [reflexivity|].
  apply (X16_records_satisfy_filters example_world "data" example_config "png"
           2 example_meta eq_refl NoDup_example_valid_meta
           "VIS_SV_1.png" _ "imgtype" 0%Z ["VIS"]).
  - reflexivity.
  - simpl. tauto.
  - reflexivity.
  - reflexivity.
Defined.

Lemma X17_records_in_date_range_witness :
  metadata_parser example_world "data" example_config_dates "png"
  = MReturn (2, example_meta_dates)
  /\ exists ts,
       lookup "timestamp"
         [("path", PyStr "d1"); ("camera", PyStr "SV");
          ("imgtype", PyStr "VIS"); ("timestamp", PyStr "1")]
       = Some ts
       /\ (ts = PyNone
           \/ exists t days seconds,
                ts = PyStr t
                /\ strptime_since_epoch example_world t
                     (date_format example_config_dates)
                   = StrptimeNaive days seconds
                /\ (start_date example_config_dates
                    <= days * 24 * 3600 + seconds
                    <= end_date example_config_dates)%Z).
Proof.
  split; [reflexivity|].
  apply (X17_records_in_date_range example_world "data" example_config_dates
           "png" 2 example_meta_dates eq_refl
           ltac:(discriminate) ltac:(discriminate) "VIS_SV_1.png").
  reflexivity.
Defined.

(** X18: a record that [metadata_parser] returns for a file name has the
    key [path] and then the fields of [valid_meta], in their order; a
    field that [meta_fields] gives an index holds the field of the file
    name (without its extension, cut by [_parse_filename]) at that index,
    every other field holds its default value. *)
Theorem X18_record_contents (w : World) (data_dir : string)
  (cfg : Config) (file_type : string) (jobcount : nat)
  (meta : Dict (Dict PyValue)) :
  metadata_parser w data_dir cfg file_type = MReturn (jobcount, meta) ->
  NoDup (map fst (valid_meta cfg)) ->
  exists regex ext,
    re_compile w (delimiter cfg) = Some regex
    /\ re_compile_ext w file_type = Some ext
    /\ forall filename img_meta,
         lookup filename meta = Some img_meta ->
         map fst img_meta = keys_in_order ("path" :: map fst (valid_meta cfg))
         /\ forall field default,
              In (field, default) (valid_meta cfg) ->
              exists value,
                lookup field img_meta = Some value
                /\ match lookup field (meta_fields cfg) with
                   | Some index =>
                       py_index
                         (_parse_filename (ext_sub ext filename)
                            (delimiter cfg) regex) index
                       = Some value
                   | None => value = default
                   end.
Proof.
  intros H Hnd.
  destruct (metadata_parser_all_accepted _ _ _ _ _ _ H)
    as (regex & ext & Hr & He & Hall).
  exists regex, ext. split; [exact Hr|]. split; [exact He|].
  intros filename img_meta Hrec.
  destruct (Hall _ _ Hrec) as (dirpath & files & _ & _ & Hacc).
  destruct Hacc as (_ & _ & p & Hfields & _).
  destruct (for_fields_spec _ _ _ _ _ _ _ Hfields) as (Hkeys & _ & _ & Hspec).
  split; [exact Hkeys|].
  intros field default Hin.
  destruct (Hspec Hnd _ _ Hin) as (value & Hval & Hmatch).
  exists value. split; [exact Hval|].
  destruct (lookup field (meta_fields cfg)); tauto.
Qed.

Lemma X18_record_contents_witness :
  metadata_parser example_world "data" example_config "png"
  = MReturn (2, example_meta)
  /\ NoDup (map fst (valid_meta example_config))
  /\ exists regex ext,
       re_compile example_world (delimiter example_config) = Some regex
       /\ re_compile_ext example_world "png" = Some ext
       /\ forall filename img_meta,
            lookup filename example_meta = Some img_meta ->
            map fst img_meta
            = keys_in_order ("path" :: map fst (valid_meta example_config))
            /\ forall field default,
                 In (field, default) (valid_meta example_config) ->
                 exists value,
                   lookup field img_meta = Some value
                   /\ match lookup field (meta_fields example_config) with
                      | Some index =>
                          py_index
                            (_parse_filename (ext_sub ext filename)
                               (delimiter example_config) regex) index
                          = Some value
                      | None => value = default
                      end.
Proof.
  split; [reflexivity|]. split; [exact NoDup_example_valid_meta|].
  exact (X18_record_contents example_world "data" example_config "png"
           2 example_meta eq_refl NoDup_example_valid_meta).
Defined.

(** ** What [metadata_parser] does not look at *)

Lemma for_fields_ext (cfg cfg' : Config) (metadata : list PyValue)
  (fields : Dict PyValue) :
  (forall acc entry, In entry fields ->
     field_step cfg' metadata acc entry = field_step cfg metadata acc entry) ->
  forall acc,
  for_fields cfg' metadata acc fields = for_fields cfg metadata acc fields.
Proof.
  induction fields as [|entry fields IH]; intros Hstep acc; [reflexivity|].
  rewrite !for_fields_cons, Hstep by now left.
  destruct (field_step cfg metadata acc entry) as [acc'|e]; unfold mbind;
    [|reflexivity].
  apply IH. intros acc0 e0 Hin. apply Hstep. now right.
Qed.

Section Extensionality.

Variables (w w' : World) (cfg cfg' : Config).

Hypothesis same_fields : meta_fields cfg' = meta_fields cfg.
Hypothesis same_valid : valid_meta cfg' = valid_meta cfg.
Hypothesis same_delimiter : delimiter cfg' = delimiter cfg.
Hypothesis same_compile : re_compile w' = re_compile w.
Hypothesis same_compile_ext : re_compile_ext w' = re_compile_ext w.
Hypothesis same_walk : os_walk w' = os_walk w.
Hypothesis same_field_step :
  forall metadata acc entry, In entry (valid_meta cfg) ->
  field_step cfg' metadata acc entry = field_step cfg metadata acc entry.
Hypothesis same_date_step :
  forall m p, date_step w' cfg' m p = date_step w cfg m p.

Lemma process_file_ext (regex : Regex) (ext : ExtRegex) (dirpath : string)
  (st : Dict (Dict PyValue) * nat) (filename : string) :
  process_file w' cfg' regex ext dirpath st filename
  = process_file w cfg regex ext dirpath st filename.
Proof.
  unfold process_file. destruct st as [meta j].
  rewrite same_fields, same_valid, same_delimiter.
  destruct (ext_search ext filename); [|reflexivity].
  destruct (_ =? _)%nat; [|reflexivity].
  rewrite (for_fields_ext cfg cfg') by (intros; now apply same_field_step).
  destruct (for_fields cfg _ _ (valid_meta cfg)) as [acc|e]; unfold mbind at 1 3;
    [|reflexivity].
  now rewrite same_date_step.
Qed.

Lemma for_files_ext (regex : Regex) (ext : ExtRegex) (dirpath : string)
  (files : list string) :
  forall st,
  for_files w' cfg' regex ext dirpath st files
  = for_files w cfg regex ext dirpath st files.
Proof.
  induction files as [|f files IH]; intros st; [reflexivity|].
  rewrite !for_files_cons, process_file_ext.
  destruct (process_file w cfg regex ext dirpath st f); unfold mbind;
    [apply IH | reflexivity].
Qed.

Lemma for_walk_ext (regex : Regex) (ext : ExtRegex)
  (dirs : list (string * list string)) :
  forall st,
  for_walk w' cfg' regex ext st dirs = for_walk w cfg regex ext st dirs.
Proof.
  induction dirs as [|[dirpath files] dirs IH]; intros st; [reflexivity|].
  rewrite !for_walk_cons, for_files_ext.
  destruct (for_files w cfg regex ext dirpath st files); unfold mbind;
    [apply IH | reflexivity].
Qed.

Lemma metadata_parser_ext (data_dir file_type : string) :
  metadata_parser w' data_dir cfg' file_type
  = metadata_parser w data_dir cfg file_type.
Proof.
  unfold metadata_parser.
  rewrite same_delimiter, same_compile, same_compile_ext, same_walk.
  destruct (re_compile w (delimiter cfg)) as [regex|]; [|reflexivity].
  destruct (re_compile_ext w file_type) as [ext|]; [|reflexivity].
  now rewrite for_walk_ext.
Qed.

End Extensionality.

(** X19: [metadata_parser] looks at a filter only for a field of
    [valid_meta] that the file names carry (a field of [meta_fields]): two
    filter dictionaries that agree on these fields give the same result,
    so a filter on any other key is ignored. *)
Theorem X19_other_filters_ignored (w : World) (data_dir : string)
  (cfg : Config) (file_type : string) (filters : FilterMap) :
  (forall field index,
      In field (map fst (valid_meta cfg)) ->
      lookup field (meta_fields cfg) = Some index ->
      dict_get field filters = dict_get field (meta_filters cfg)) ->
  metadata_parser w data_dir (with_filters cfg filters) file_type
  = metadata_parser w data_dir cfg file_type.
Proof.
  intros Hagree. apply metadata_parser_ext; try reflexivity.
  intros metadata [m p] [field default] Hin. unfold field_step. simpl.
  destruct (lookup field (meta_fields cfg)) as [index|] eqn:Ei; [|reflexivity].
  rewrite (Hagree field index); [reflexivity | | exact Ei].
  apply in_map_iff. exists (field, default). auto.
Qed.

Lemma X19_other_filters_ignored_witness :
  metadata_parser example_world "data"
    (with_filters example_config [("imgtype", ["VIS"]); ("plantbarcode", ["x"])])
    "png"
  = metadata_parser example_world "data" example_config "png".
Proof.
  apply (X19_other_filters_ignored example_world "data" example_config "png"
           [("imgtype", ["VIS"]); ("plantbarcode", ["x"])]).
  intros field index Hin _. simpl in Hin.
  destruct Hin as [<- | [<- | [<- | [<- | []]]]]; reflexivity.
Defined.

(** X20: when [start_date] or [end_date] is zero, [metadata_parser] checks
    no date: its result does not depend on the date format nor on what
    [strptime] does, and no timestamp is read. *)
Theorem X20_no_date_check_without_dates (w : World) (data_dir : string)
  (cfg : Config) (file_type : string)
  (strptime : string -> string -> Strptime) (format : string) :
  start_date cfg = 0%Z \/ end_date cfg = 0%Z ->
  metadata_parser (with_strptime w strptime) data_dir
    (with_date_format cfg format) file_type
  = metadata_parser w data_dir cfg file_type.
Proof.
  intros Hzero. apply metadata_parser_ext; try reflexivity.
  intros m p. unfold date_step. simpl.
  destruct Hzero as [-> | ->]; simpl; [reflexivity|].
  now rewrite andb_false_r.
Qed.

Lemma X20_no_date_check_witness :
  metadata_parser (with_strptime example_world (fun _ _ => StrptimeValueError "bad"))
    "data" (with_date_format example_config "%d") "png"
  = metadata_parser example_world "data" example_config "png".
Proof.
  apply (X20_no_date_check_without_dates example_world "data" example_config
           "png" (fun _ _ => StrptimeValueError "bad") "%d").
  left. reflexivity.
Defined.

(** ** The text of an error *)

Lemma count_char_append (c : ascii) (s1 s2 : string) :
  count_char c (s1 +s+ s2) = count_char c s1 + count_char c s2.
Proof.
  induction s1 as [|c1 s1 IH]; simpl; [reflexivity|]. rewrite IH. lia.
Qed.

Lemma message_one_line (k : ErrorKind) :
  count_char "010"%char (message k) = 0.
Proof. destruct k; reflexivity. Qed.

Lemma count_char_spaces (n : nat) : count_char "010"%char (spaces n) = 0.
Proof. induction n as [|n IH]; simpl; [reflexivity | exact IH]. Qed.

Lemma get_spaces_caret (n : nat) (rest : string) :
  String.get n (spaces n +s+ String "^"%char rest) = Some "^"%char.
Proof. induction n as [|n IH]; simpl; [reflexivity | exact IH]. Qed.

Lemma length_spaces (n : nat) : String.length (spaces n) = n.
Proof. induction n as [|n IH]; simpl; [reflexivity | now rewrite IH]. Qed.

(** X21: for an expression of one line, the text of a [ShowSourceOfError]
    has exactly three lines: the message of its class, the expression, and
    a line of [index] spaces that ends with the caret, which so stands in
    column [index], under the character of the expression at that
    offset. *)
Theorem X21_error_text_lines (k : ErrorKind) (index : nat) (s : string) :
  count_char "010"%char s = 0 ->
  split_char "010"%char (exception_text (ShowSourceOfError k index s))
  = [message k; s; spaces index +s+ "^"]
  /\ String.get index (spaces index +s+ "^") = Some "^"%char
  /\ String.length (spaces index +s+ "^") = index + 1.
Proof.
  intros Hs. split; [|split].
  - unfold exception_text, error_message, newline.
    rewrite append_assoc. simpl (String _ "" +s+ _).
    simpl (String _ s +s+ _).
    rewrite split_char_append by apply message_one_line.
    rewrite split_char_append by exact Hs.
    rewrite split_char_no_sep; [reflexivity|].
    rewrite count_char_append, count_char_spaces. reflexivity.
  - apply get_spaces_caret.
  - rewrite length_append, length_spaces. reflexivity.
Qed.

Lemma X21_error_text_lines_witness :
  split_char "010"%char
    (exception_text (ShowSourceOfError EmptyValueError 3 "id:"))
  = ["Empty value"; "id:"; "   ^"]
  /\ String.get 3 "   ^" = Some "^"%char
  /\ String.length "   ^" = 4.
Proof.
  exact (X21_error_text_lines EmptyValueError 3 "id:" eq_refl).
Defined.

(** ** The exceptions of [metadata_parser] *)

Lemma py_index_None (A : Type) (l : list A) (index : Z) :
  py_index l index = None -> ~ index_in_range (List.length l) index.
Proof.
  unfold py_index, index_in_range.
  destruct (0 <=? index)%Z eqn:E0.
  - intros H. apply nth_error_None in H. apply Z.leb_le in E0. lia.
  - apply Z.leb_gt in E0.
    destruct (- Z.of_nat (List.length l) <=? index)%Z eqn:E1.
    + intros H. apply nth_error_None in H. apply Z.leb_le in E1. lia.
    + intros _. apply Z.leb_gt in E1. lia.
Qed.

Lemma In_add_key_intro (acc : list string) (k x : string) :
  In x acc \/ x = k -> In x (add_key acc k).
Proof.
  unfold add_key. destruct (existsb (String.eqb k) acc) eqn:E.
  - intros [H | ->]; [exact H|].
    apply existsb_exists in E. destruct E as (y & Hy & Ey).
    apply String.eqb_eq in Ey. now subst.
  - intros [H | ->]; apply in_or_app; [now left | right; now left].
Qed.

Lemma In_fold_add_key (keys : list string) :
  forall acc k, In k acc \/ In k keys -> In k (fold_left add_key keys acc).
Proof.
  induction keys as [|a keys IH]; simpl; intros acc k H; [tauto|].
  apply IH. destruct H as [H | [-> | H]]; [left | left | now right];
    apply In_add_key_intro; auto.
Qed.

Lemma field_step_raise (cfg : Config) (metadata : list PyValue)
  (acc : Dict PyValue * nat) (entry : string * PyValue) (e : MetaException) :
  field_step cfg metadata acc entry = MRaise e ->
  e = IndexError
  /\ exists index,
       lookup (fst entry) (meta_fields cfg) = Some index
       /\ py_index metadata index = None.
Proof.
  destruct acc as [m p], entry as [field default]. unfold field_step. simpl.
  destruct (lookup field (meta_fields cfg)) as [index|]; [|discriminate].
  destruct (py_index metadata index) eqn:E; [discriminate|].
  intros H; injection H as <-. eauto.
Qed.

Lemma for_fields_raise (cfg : Config) (metadata : list PyValue)
  (fields : Dict PyValue) :
  forall acc e,
  for_fields cfg metadata acc fields = MRaise e ->
  e = IndexError
  /\ exists field index,
       In field (map fst fields)
       /\ lookup field (meta_fields cfg) = Some index
       /\ py_index metadata index = None.
Proof.
  induction fields as [|entry fields IH]; intros acc e; [discriminate|].
  rewrite for_fields_cons.
  destruct (field_step cfg metadata acc entry) as [acc'|e'] eqn:E;
    unfold mbind.
  - intros H. destruct (IH _ _ H) as (-> & field & index & Hin & Hl & Hi).
    split; [reflexivity|]. exists field, index. simpl. auto.
  - intros H; injection H as ->.
    destruct (field_step_raise _ _ _ _ _ E) as (-> & index & Hl & Hi).
    split; [reflexivity|]. exists (fst entry), index. simpl. auto.
Qed.

Lemma date_step_raise (w : World) (cfg : Config) (img_meta : Dict PyValue)
  (img_pass : nat) (e : MetaException) :
  date_step w cfg img_meta img_pass = MRaise e ->
  start_date cfg <> 0%Z /\ end_date cfg <> 0%Z
  /\ ((e = KeyError "timestamp" /\ lookup "timestamp" img_meta = None)
      \/ exists img_time,
           lookup "timestamp" img_meta = Some (PyStr img_time)
           /\ ((strptime_since_epoch w img_time (date_format cfg)
                = StrptimeAware
                /\ e = TypeError)
               \/ exists err,
                    strptime_since_epoch w img_time (date_format cfg)
                    = StrptimeValueError err
                    /\ e = SystemExit
                             (err +s+ newline
                              +s+ "  --> Please specify the correct --timestampformat argument <--"
                              +s+ newline))).
Proof.
  unfold date_step.
  destruct (start_date cfg =? 0)%Z eqn:Es; [discriminate|].
  destruct (end_date cfg =? 0)%Z eqn:Ee; [discriminate|].
  apply Z.eqb_neq in Es, Ee. simpl.
  destruct (lookup "timestamp" img_meta) as [[img_time|]|] eqn:El;
    [| discriminate |].
  - unfold check_date_range.
    destruct (strptime_since_epoch w img_time (date_format cfg))
      as [err| |days seconds] eqn:Et; unfold mbind.
    + intros H; injection H as <-. repeat split; auto.
      right. exists img_time. split; [reflexivity|]. right. exists err. auto.
    + intros H; injection H as <-. repeat split; auto.
      right. exists img_time. auto.
    + destruct (_ || _); discriminate.
  - intros H; injection H as <-. repeat split; auto.
Qed.

Lemma process_file_raise (w : World) (cfg : Config) (regex : Regex)
  (ext : ExtRegex) (dirpath : string) (st : Dict (Dict PyValue) * nat)
  (filename : string) (e : MetaException) :
  process_file w cfg regex ext dirpath st filename = MRaise e ->
  file_exception_cause w cfg e.
Proof.
  unfold process_file. destruct st as [meta j].
  destruct (ext_search ext filename); [|discriminate].
  destruct (List.length _ =? List.length (meta_fields cfg))%nat eqn:El;
    [|discriminate].
  apply Nat.eqb_eq in El.
  destruct (for_fields cfg _ _ (valid_meta cfg)) as [[img_meta p]|e'] eqn:Ef;
    unfold mbind at 1.
  - simpl fst; simpl snd.
    destruct (date_step w cfg img_meta p) as [p'|e'] eqn:Ed; unfold mbind.
    + destruct (p' =? 1)%nat; discriminate.
    + intros H; injection H as ->.
      destruct (date_step_raise _ _ _ _ _ Ed)
        as (Hs & He & [[-> Hl]
                      | (t & _ & [[Ht ->] | (err & Ht & ->)])]); simpl.
      * repeat split; auto. intros Hin.
        destruct (for_fields_spec _ _ _ _ _ _ _ Ef) as (Hkeys & _).
        assert (Hk : In "timestamp" (map fst img_meta)).
        { rewrite Hkeys. apply In_fold_add_key. now right. }
        apply In_keys_lookup in Hk. destruct Hk as [v Hv]. congruence.
      * repeat split; auto. eauto.
      * repeat split; auto. eauto.
  - intros H; injection H as ->.
    destruct (for_fields_raise _ _ _ _ _ Ef) as (-> & field & index & Hin & Hl & Hi).
    simpl. exists field, index. repeat split; auto.
    rewrite <- El. now apply py_index_None.
Qed.

Lemma for_files_raise (w : World) (cfg : Config) (regex : Regex)
  (ext : ExtRegex) (dirpath : string) (files : list string) :
  forall st e,
  for_files w cfg regex ext dirpath st files = MRaise e ->
  file_exception_cause w cfg e.
Proof.
  induction files as [|f files IH]; intros st e; [discriminate|].
  rewrite for_files_cons.
  destruct (process_file w cfg regex ext dirpath st f) as [st'|e'] eqn:E;
    unfold mbind; [apply IH|].
  intros H; injection H as ->. exact (process_file_raise _ _ _ _ _ _ _ _ E).
Qed.

Lemma for_walk_raise (w : World) (cfg : Config) (regex : Regex)
  (ext : ExtRegex) (dirs : list (string * list string)) :
  forall st e,
  for_walk w cfg regex ext st dirs = MRaise e ->
  file_exception_cause w cfg e.
Proof.
  induction dirs as [|[dirpath files] dirs IH]; intros st e; [discriminate|].
  rewrite for_walk_cons.
  destruct (for_files w cfg regex ext dirpath st files) as [st'|e'] eqn:E;
    unfold mbind; [apply IH|].
  intros H; injection H as ->. exact (for_files_raise _ _ _ _ _ _ _ _ E).
Qed.

(** X22: the exceptions of [metadata_parser] and their causes.  A
    [re.error] comes from compiling the delimiter or the file type; an
    [IndexError] from a field of [valid_meta] whose index in [meta_fields]
    is out of range for a list of as many items as [meta_fields] has
    fields; a [KeyError] is for the key [timestamp], when both dates are
    nonzero and [valid_meta] has no such field; a [TypeError] comes from a
    timestamp that [strptime] returns with a UTC offset, when both dates
    are nonzero; a [SystemExit] carries the text of a [ValueError] of
    [strptime], when both dates are nonzero. *)
Theorem X22_exceptions_and_their_causes (w : World) (data_dir : string)
  (cfg : Config) (file_type : string) (e : MetaException) :
  metadata_parser w data_dir cfg file_type = MRaise e ->
  match e with
  | ReError =>
      re_compile w (delimiter cfg) = None \/ re_compile_ext w file_type = None
  | IndexError =>
      exists field index,
        In field (map fst (valid_meta cfg))
        /\ lookup field (meta_fields cfg) = Some index
        /\ ~ index_in_range (List.length (meta_fields cfg)) index
  | KeyError key =>
      key = "timestamp"
      /\ ~ In "timestamp" (map fst (valid_meta cfg))
      /\ start_date cfg <> 0%Z /\ end_date cfg <> 0%Z
  | TypeError =>
      start_date cfg <> 0%Z /\ end_date cfg <> 0%Z
      /\ exists img_time,
           strptime_since_epoch w img_time (date_format cfg) = StrptimeAware
  | SystemExit msg =>
      start_date cfg <> 0%Z /\ end_date cfg <> 0%Z
      /\ exists img_time err,
           strptime_since_epoch w img_time (date_format cfg)
           = StrptimeValueError err
           /\ msg = err +s+ newline
                    +s+ "  --> Please specify the correct --timestampformat argument <--"
                    +s+ newline
  end.
Proof.
  unfold metadata_parser.
  destruct (re_compile w (delimiter cfg)) as [regex|];
    [|intros H; injection H as <-; now left].
  destruct (re_compile_ext w file_type) as [ext|];
    [|intros H; injection H as <-; now right].
  destruct (for_walk w cfg regex ext ([], 0) (os_walk w data_dir))
    as [st|e'] eqn:E; unfold mbind; [discriminate|].
  intros H; injection H as ->.
  pose proof (for_walk_raise _ _ _ _ _ _ _ E) as Hc.
  destruct e; [destruct Hc | exact Hc | exact Hc | exact Hc | exact Hc].
Qed.

Lemma X22_exceptions_witness :
  exists field index,
    In field (map fst (valid_meta example_config_bad_index))
    /\ lookup field (meta_fields example_config_bad_index) = Some index
    /\ ~ index_in_range (List.length (meta_fields example_config_bad_index))
           index.
Proof.
  exact (X22_exceptions_and_their_causes example_world "data"
           example_config_bad_index "png" IndexError eq_refl).
Defined.

(** ** When [metadata_parser] returns *)

Lemma lookup_In_NoDup (V : Type) (k : string) (v : V) (d : Dict V) :
  NoDup (map fst d) -> In (k, v) d -> lookup k d = Some v.
Proof.
  induction d as [|[k0 v0] d IH]; simpl; [tauto|].
  intros Hnd [Hin | Hin].
  - injection Hin as -> ->. now rewrite String.eqb_refl.
  - inversion Hnd as [|? ? Hk0 Hnd']; subst.
    destruct (k =? k0)%string eqn:E; [|now apply IH].
    apply String.eqb_eq in E. subst k0. exfalso. apply Hk0.
    apply in_map_iff. exists (k, v). auto.
Qed.

Section Returns.

Variables (w : World) (cfg : Config) (regex : Regex) (ext : ExtRegex).

Hypothesis distinct_fields : NoDup (map fst (valid_meta cfg)).
Hypothesis indices_in_range :
  forall field index,
    lookup field (meta_fields cfg) = Some index ->
    index_in_range (List.length (meta_fields cfg)) index.

(** The timestamp that the date check reads in the record of an image. *)
Lemma lookup_timestamp (dirpath filename : string) (img_meta : Dict PyValue)
  (img_pass : nat) :
  ext_search ext filename = true ->
  (List.length (_parse_filename (ext_sub ext filename) (delimiter cfg) regex)
   =? List.length (meta_fields cfg))%nat = true ->
  for_fields cfg (_parse_filename (ext_sub ext filename) (delimiter cfg) regex)
    ([("path", PyStr dirpath)], 1) (valid_meta cfg)
  = MReturn (img_meta, img_pass) ->
  In "timestamp" (map fst (valid_meta cfg)) ->
  exists ts,
    lookup "timestamp" img_meta = Some ts
    /\ image_timestamp cfg regex ext filename = Some ts.
Proof.
  intros Es El Ef Hin. unfold image_timestamp. rewrite Es, El. simpl.
  destruct (In_keys_entry _ _ _ Hin) as [default Hd].
  destruct (for_fields_spec _ _ _ _ _ _ _ Ef) as (_ & _ & _ & Hall).
  destruct (Hall distinct_fields _ _ Hd) as (value & Hv & Hm).
  exists value. split; [exact Hv|].
  destruct (lookup "timestamp" (meta_fields cfg)) as [index|].
  - now destruct Hm as [-> _].
  - subst value. now apply lookup_In_NoDup.
Qed.

Lemma process_file_returns (dirpath : string)
  (st : Dict (Dict PyValue) * nat) (filename : string) :
  start_date cfg = 0%Z \/ end_date cfg = 0%Z
  \/ (In "timestamp" (map fst (valid_meta cfg))
      /\ timestamp_readable w cfg regex ext filename) ->
  exists st', process_file w cfg regex ext dirpath st filename = MReturn st'.
Proof.
  intros Hdate. unfold process_file. destruct st as [meta j].
  destruct (ext_search ext filename) eqn:Es; [|eauto].
  destruct (List.length _ =? List.length (meta_fields cfg))%nat eqn:El;
    [|eauto].
  destruct (for_fields cfg _ _ (valid_meta cfg)) as [[img_meta p]|e] eqn:Ef;
    unfold mbind at 1.
  - simpl fst; simpl snd.
    destruct (date_step w cfg img_meta p) as [p'|e] eqn:Ed; unfold mbind;
      [destruct (p' =? 1)%nat; eauto|].
    exfalso.
    destruct (date_step_raise _ _ _ _ _ Ed) as (Hs & He & Hcause).
    destruct Hdate as [? | [? | [Hin Hok]]]; [tauto | tauto |].
    destruct (lookup_timestamp _ _ _ _ Es El Ef Hin) as (ts & Hts & Hit).
    destruct Hcause as [[_ Hl] | (t & Hl & Hcause)]; [congruence|].
    assert (ts = PyStr t) by congruence. subst ts.
    destruct (Hok t Hit) as (days & seconds & Hn).
    destruct Hcause as [[Ht _] | (err & Ht & _)]; congruence.
  - exfalso. apply Nat.eqb_eq in El.
    destruct (for_fields_raise _ _ _ _ _ Ef) as (_ & field & index & _ & Hl & Hi).
    apply py_index_None in Hi. rewrite El in Hi. apply Hi. eauto.
Qed.

Lemma for_files_returns (dirpath : string) (files : list string) :
  (start_date cfg = 0%Z \/ end_date cfg = 0%Z
   \/ (In "timestamp" (map fst (valid_meta cfg))
       /\ forall filename, In filename files ->
          timestamp_readable w cfg regex ext filename)) ->
  forall st,
  exists st', for_files w cfg regex ext dirpath st files = MReturn st'.
Proof.
  induction files as [|f files IH]; intros Hdate st; [simpl; eauto|].
  rewrite for_files_cons.
  destruct (process_file_returns dirpath st f) as [st1 ->].
  { destruct Hdate as [? | [? | [Hin Hok]]]; [tauto | tauto |].
    right; right. split; [exact Hin|]. apply Hok. now left. }
  unfold mbind. apply IH.
  destruct Hdate as [? | [? | [Hin Hok]]]; [tauto | tauto |].
  right; right. split; [exact Hin|]. intros g Hg. apply Hok. now right.
Qed.

Lemma for_walk_returns (dirs : list (string * list string)) :
  (start_date cfg = 0%Z \/ end_date cfg = 0%Z
   \/ (In "timestamp" (map fst (valid_meta cfg))
       /\ forall filename, In filename (walked_files dirs) ->
          timestamp_readable w cfg regex ext filename)) ->
  forall st,
  exists st', for_walk w cfg regex ext st dirs = MReturn st'.
Proof.
  induction dirs as [|[dirpath files] dirs IH]; intros Hdate st;
    [simpl; eauto|].
  rewrite for_walk_cons.
  destruct (for_files_returns dirpath files) with (st := st) as [st1 ->].
  { destruct Hdate as [? | [? | [Hin Hok]]]; [tauto | tauto |].
    right; right. split; [exact Hin|]. intros g Hg. apply Hok.
    unfold walked_files. simpl. apply in_or_app. now left. }
  unfold mbind. apply IH.
  destruct Hdate as [? | [? | [Hin Hok]]]; [tauto | tauto |].
  right; right. split; [exact Hin|]. intros g Hg. apply Hok.
  unfold walked_files. simpl. apply in_or_app. now right.
Qed.

End Returns.

(** X23: [metadata_parser] returns a job count and a dictionary, and
    raises nothing, when the delimiter and the file type compile, the
    fields of [valid_meta] are distinct, every index of [meta_fields] is
    in range for a list of as many items as [meta_fields] has fields, and
    either a date is zero, or [valid_meta] has a [timestamp] field and,
    for every image of the walk whose name has the right number of fields
    and whose timestamp is not [None], [strptime] accepts that timestamp
    and returns it without UTC offset. *)
Theorem X23_metadata_parser_returns_a_result (w : World) (data_dir : string)
  (cfg : Config) (file_type : string) (regex : Regex) (ext : ExtRegex) :
  re_compile w (delimiter cfg) = Some regex ->
  re_compile_ext w file_type = Some ext ->
  NoDup (map fst (valid_meta cfg)) ->
  (forall field index,
      lookup field (meta_fields cfg) = Some index ->
      index_in_range (List.length (meta_fields cfg)) index) ->
  (start_date cfg = 0%Z \/ end_date cfg = 0%Z
   \/ (In "timestamp" (map fst (valid_meta cfg))
       /\ forall filename,
            In filename (walked_files (os_walk w data_dir)) ->
            timestamp_readable w cfg regex ext filename)) ->
  exists jobcount meta,
    metadata_parser w data_dir cfg file_type = MReturn (jobcount, meta).
Proof.
  intros Hre Hext Hnd Hidx Hdate. unfold metadata_parser.
  rewrite Hre, Hext.
  destruct (for_walk_returns w cfg regex ext Hnd Hidx (os_walk w data_dir)
              Hdate ([], 0)) as [[meta j] ->].
  unfold mbind. simpl. eauto.
Qed.

Lemma X23_metadata_parser_returns_witness :
  exists jobcount meta,
    metadata_parser example_world "data" example_config_dates "png"
    = MReturn (jobcount, meta).
Proof.
  apply (X23_metadata_parser_returns_a_result example_world "data"
           example_config_dates "png" _ _ eq_refl eq_refl).
  - repeat constructor; simpl; intuition discriminate.
  - intros field index. unfold index_in_range. simpl.
    destruct (field =? "imgtype")%string; [intros H; injection H as <-; lia|].
    destruct (field =? "camera")%string; [intros H; injection H as <-; lia|].
    destruct (field =? "timestamp")%string;
      [intros H; injection H as <-; lia|].
    discriminate.
  - right; right. split; [simpl; tauto|].
    intros filename Hin img_time. simpl in Hin.
    destruct Hin as [<- | [<- | [<- | [<- | []]]]]; vm_compute;
      intros H; try discriminate; injection H as <-.
    + exists 0%Z, 1%Z. reflexivity.
    + exists 0%Z, 1%Z. reflexivity.
    + exists 0%Z, 2%Z. reflexivity.
Defined.

(** ** An unterminated list *)




